(** * LiSE: the branching, tick-indexed location store and the journeys
    scheduled on it

    A shallow embedding of [src/thing.py] (class [Thing]) and of the
    timestream part of [src/LiSE/closet.py] (class [Closet]).  Python
    methods become functions in a state-and-exception monad over the
    closet; the nested [Skeleton] dictionaries become finite maps. *)

From Stdlib Require Import ZArith Floats Uint63 Ascii String.
From stdpp Require Import gmap strings list fin_maps sorting.
Open Scope Z_scope.

(** ** Rows of the [thing_location] table

    [Thing.tables] declares the columns [dimension], [thing], [branch],
    [tick_from] and [location]; [set_location] builds one such row
    dictionary per write.  A row loaded from disk may carry no location
    (a tombstone), which [get_location] tests with [is None]. *)

Record loc_rd := {
  rd_dimension : string;
  rd_thing : string;
  rd_branch : Z;
  rd_tick_from : Z;
  rd_location : option string }.

#[global] Instance loc_rd_eq_dec : EqDecision loc_rd.
Proof. solve_decision. Defined.

(** [game_bone] of closet.py: language, seed and the (branch, tick) cursor. *)
Record game_bone := {
  gb_language : string;
  gb_seed : Z;
  gb_branch : Z;
  gb_tick : Z }.

#[global] Instance game_bone_eq_dec : EqDecision game_bone.
Proof. solve_decision. Defined.

(** [Timestream.bonetype(branch=..., parent=...)]. *)
Record timestream_bone := {
  tb_branch : Z;
  tb_parent : Z }.

#[global] Instance timestream_bone_eq_dec : EqDecision timestream_bone.
Proof. solve_decision. Defined.

(** The part of [closet.skeleton] that the timestream and the things use:
    [skeleton["thing_location"][dimension][thing][branch][tick_from]],
    [skeleton["timestream"][branch]] and [skeleton["game"][0]]. *)
Record Skeleton := {
  thing_location : gmap string (gmap Z (gmap Z loc_rd));
  timestream_tab : gmap Z timestream_bone;
  game : game_bone }.

(** The two watermarks kept by the [Timestream] object. *)
Record Timestream := {
  hi_branch : Z;
  hi_tick : Z }.

(** The closet.  [thingdict] holds the [Thing] objects of the dimension,
    each with its one mutable attribute [new_branch_blank]. *)
Record closet := {
  skeleton : Skeleton;
  old_skeleton : Skeleton;
  thingdict : gmap string bool;
  timestream : Timestream;
  time_travel_history : list (Z * Z);
  updating : bool }.

(** ** Places, portals and the dimension's graph *)

Record Place := {
  place_name : string;
  place_int : Z }.

Record Portal := {
  origin : string;
  destination : string;
  portal_len : Z }.

(** What [get_location] hands back. *)
Inductive Location :=
| AtPlace (p : Place)
| InPortal (p : Portal)
| InThing (name : string).

Record Edge := {
  edge_source : Z;
  edge_target : Z;
  edge_portal : Portal }.

(** The dimension is read, never written, by the code below.  Its portal
    and place lookups and the igraph shortest-path query are taken as
    they are given.  [get_shortest_paths src dst] is [None] when igraph
    raises [ValueError], as it does for a name that is not a vertex of
    the graph; for vertices it is the list of edge paths, the empty
    path standing for a target that cannot be reached. *)
Record Dimension := {
  dim_name : string;
  get_portal : string → string → Portal;
  get_place : string → Place;
  get_shortest_paths : string → string → option (list (list nat));
  es : list Edge }.

(** ** Exceptions and the method monad *)

Inductive exn :=
| KeyError
| IndexError
| ValueError
| TimeParadox
| JourneyException
| TimestreamException.

#[global] Instance exn_eq_dec : EqDecision exn.
Proof. solve_decision. Defined.

(** A method either returns a value or raises; in both cases the closet
    is left in the state reached so far. *)
Inductive result (A : Type) :=
| Ok (a : A) (c : closet)
| Raise (e : exn) (c : closet).
Arguments Ok {A} a c.
Arguments Raise {A} e c.

Definition M (A : Type) : Type := closet → result A.

#[global] Instance M_ret : MRet M := λ A a c, Ok a c.
#[global] Instance M_bind : MBind M := λ A B f m c,
  match m c with
  | Ok a c' => f a c'
  | Raise e c' => Raise e c'
  end.

Definition raise {A} (e : exn) : M A := λ c, Raise e c.
Definition gets {A} (f : closet → A) : M A := λ c, Ok (f c) c.
Definition modify (f : closet → closet) : M unit := λ c, Ok tt (f c).

(** [try: body except e: handler] *)
Definition try_except {A} (body : M A) (e : exn) (handler : M A) : M A :=
  λ c, match body c with
       | Ok a c' => Ok a c'
       | Raise e' c' => if decide (e' = e) then handler c' else Raise e' c'
       end.

(** [for x in xs: body x] *)
Fixpoint for_each {A} (xs : list A) (body : A → M unit) : M unit :=
  match xs with
  | [] => mret tt
  | x :: xs' => body x ;; for_each xs' body
  end.

(** State of the closet after a method call, whichever way it ended. *)
Definition state_of {A} (r : result A) : closet :=
  match r with Ok _ c => c | Raise _ c => c end.

(** ** Record updates *)

Definition set_thing_location (f : gmap string (gmap Z (gmap Z loc_rd)) →
                                   gmap string (gmap Z (gmap Z loc_rd)))
    (sk : Skeleton) : Skeleton :=
  {| thing_location := f (thing_location sk);
     timestream_tab := timestream_tab sk;
     game := game sk |}.

Definition set_timestream_tab (f : gmap Z timestream_bone → gmap Z timestream_bone)
    (sk : Skeleton) : Skeleton :=
  {| thing_location := thing_location sk;
     timestream_tab := f (timestream_tab sk);
     game := game sk |}.

Definition set_game (f : game_bone → game_bone) (sk : Skeleton) : Skeleton :=
  {| thing_location := thing_location sk;
     timestream_tab := timestream_tab sk;
     game := f (game sk) |}.

Definition set_skeleton (f : Skeleton → Skeleton) (c : closet) : closet :=
  {| skeleton := f (skeleton c);
     old_skeleton := old_skeleton c;
     thingdict := thingdict c;
     timestream := timestream c;
     time_travel_history := time_travel_history c;
     updating := updating c |}.

Definition set_old_skeleton (sk : Skeleton) (c : closet) : closet :=
  {| skeleton := skeleton c;
     old_skeleton := sk;
     thingdict := thingdict c;
     timestream := timestream c;
     time_travel_history := time_travel_history c;
     updating := updating c |}.

Definition set_thingdict (f : gmap string bool → gmap string bool) (c : closet) : closet :=
  {| skeleton := skeleton c;
     old_skeleton := old_skeleton c;
     thingdict := f (thingdict c);
     timestream := timestream c;
     time_travel_history := time_travel_history c;
     updating := updating c |}.

Definition set_timestream (f : Timestream → Timestream) (c : closet) : closet :=
  {| skeleton := skeleton c;
     old_skeleton := old_skeleton c;
     thingdict := thingdict c;
     timestream := f (timestream c);
     time_travel_history := time_travel_history c;
     updating := updating c |}.

Definition set_time_travel_history (f : list (Z * Z) → list (Z * Z)) (c : closet) : closet :=
  {| skeleton := skeleton c;
     old_skeleton := old_skeleton c;
     thingdict := thingdict c;
     timestream := timestream c;
     time_travel_history := f (time_travel_history c);
     updating := updating c |}.

Definition set_updating (b : bool) (c : closet) : closet :=
  {| skeleton := skeleton c;
     old_skeleton := old_skeleton c;
     thingdict := thingdict c;
     timestream := timestream c;
     time_travel_history := time_travel_history c;
     updating := b |}.

(** [closet.branch] and [closet.tick] are read out of the game bone
    ([Closet.__getattribute__]). *)
Definition branch (c : closet) : Z := gb_branch (game (skeleton c)).
Definition tick (c : closet) : Z := gb_tick (game (skeleton c)).

(** ** The [Skeleton] dictionary operations used by the code

    [util.py], which defines [Skeleton], is not among the sources; its
    methods are modelled here from the way thing.py uses them and from
    the specification's data model. *)

Module Skel.
Section Rows.
Context {V : Type}.

Definition key_le : relation (Z * V) := λ a b, a.1 ≤ b.1.

#[global] Instance key_le_dec : ∀ a b, Decision (key_le a b).
Proof. intros a b. unfold key_le. apply _. Defined.

(** Modelled from the spec: [Skeleton.iteritems] is missing; "facts are
    ordered by [tick_from] within a bucket", so the items of one branch
    come out by increasing tick. *)
Definition iteritems (m : gmap Z V) : list (Z * V) :=
  merge_sort key_le (map_to_list m).

(** Modelled from the spec: [Skeleton.iterrows] is missing; the rows of
    a branch in increasing order of [tick_from]. *)
Definition iterrows (m : gmap Z V) : list V :=
  (iteritems m).*2.

(** Modelled from the spec: [Skeleton.key_before] is missing; the
    greatest key strictly below [k] ("most recent fact before tick"),
    and [KeyError] (here [None]) when there is none, as the handler in
    [Thing.get_location] expects. *)
Definition key_before (m : gmap Z V) (k : Z) : option Z :=
  fst <$> last (filter (λ kv, kv.1 < k) (iteritems m)).

(** Modelled from the spec: [Skeleton.key_after] is missing; the least
    key strictly above [k] ("next fact after current tick"), and
    [KeyError] (here [None]) when there is none, as the handler in
    [Thing.follow_path] expects. *)
Definition key_after (m : gmap Z V) (k : Z) : option Z :=
  fst <$> head (filter (λ kv, k < kv.1) (iteritems m)).
End Rows.
End Skel.

(** ** The missing [Timestream] methods *)

Module TS.
(** Modelled from the spec: [Timestream.upbranch] is missing; the
    timestream "tracks the highest known branch", raised the way
    [Closet.uptick_bone] raises it. *)
Definition upbranch (b : Z) : M unit :=
  modify (set_timestream (λ ts,
    {| hi_branch := if decide (hi_branch ts < b) then b else hi_branch ts;
       hi_tick := hi_tick ts |})).

(** Modelled from the spec: [Timestream.uptick] is missing; the
    timestream tracks the highest known tick, raised the way
    [Closet.uptick_bone] raises it. *)
Definition uptick (t : Z) : M unit :=
  modify (set_timestream (λ ts,
    {| hi_branch := hi_branch ts;
       hi_tick := if decide (hi_tick ts < t) then t else hi_tick ts |})).

(** Modelled from the spec: [Timestream.max_branch] is missing; the
    highest known branch is the [hi_branch] watermark. *)
Definition max_branch : M Z := gets (λ c, hi_branch (timestream c)).

(** The ticks at which any thing has a fact in branch [b]. *)
Definition branch_ticks (tl : gmap string (gmap Z (gmap Z loc_rd))) (b : Z) : list Z :=
  mjoin ((λ nl : string * gmap Z (gmap Z loc_rd),
            match nl.2 !! b with
            | Some bm => (map_to_list bm).*1
            | None => []
            end) <$> map_to_list tl).

Definition min_list (l : list Z) : option Z :=
  foldr (λ k acc, match acc with
                  | Some j => Some (Z.min k j)
                  | None => Some k
                  end) None l.

(** Modelled from the spec: [Timestream.min_tick(branch, table)] is
    missing; "the minimum tick with data" for the branch in the
    [thing_location] table, [None] when the branch holds no fact. *)
Definition min_tick (b : Z) : M (option Z) :=
  gets (λ c, min_list (branch_ticks (thing_location (skeleton c)) b)).
End TS.

(** ** Names of places, portals and things *)

(** [str(portal)]; board.py builds the same name with
    ["Portal({0}->{1})".format(orig, dest)]. *)
Definition portal_str (p : Portal) : string :=
  "Portal(" +:+ origin p +:+ "->" +:+ destination p +:+ ")".

Definition location_str (l : Location) : string :=
  match l with
  | AtPlace p => place_name p
  | InPortal p => portal_str p
  | InThing n => n
  end.

(** [str(x)] for an [x] that may be [None]. *)
Definition str_or_None {A} (f : A → string) (x : option A) : string :=
  match x with Some a => f a | None => "None" end.

(** ** [portex = compile("Portal\((.+)->(.+)\)")]

    [re.match] anchors the pattern at the start of the string only; [.]
    matches any character but a newline; [+] is greedy and backtracks. *)

Definition is_newline (a : ascii) : bool := Ascii.eqb a "010"%char.

(** Greedy [.+] followed by the rest [k] of the pattern: the longest run
    is tried first, shorter ones on failure. *)
Fixpoint dot_plus {A} (k : list ascii → option A) (l : list ascii)
    : option (list ascii * A) :=
  match l with
  | [] => None
  | a :: l' =>
      if is_newline a then None
      else match dot_plus k l' with
           | Some (g, r) => Some (a :: g, r)
           | None => match k l' with
                     | Some r => Some ([a], r)
                     | None => None
                     end
           end
  end.

Fixpoint strip_prefix (p l : list ascii) : option (list ascii) :=
  match p, l with
  | [], _ => Some l
  | a :: p', b :: l' => if Ascii.eqb a b then strip_prefix p' l' else None
  | _ :: _, [] => None
  end.

(** [match(portex, s)]: [None], or [m.groups()]. *)
Definition portex_match (s : string) : option (string * string) :=
  rest ← strip_prefix (list_ascii_of_string "Portal(") (list_ascii_of_string s);
  '(g1, (g2, _)) ← dot_plus (λ r1,
        r2 ← strip_prefix (list_ascii_of_string "->") r1;
        dot_plus (strip_prefix (list_ascii_of_string ")")) r2) rest;
  Some (string_of_list_ascii g1, string_of_list_ascii g2).

(** ** Python numbers *)

(** [Thing.basic_speed = 0.1]: the binary64 float nearest to one tenth. *)
Definition basic_speed : float := 0x1.999999999999ap-4%float.

(** An [int] operand of [/] is converted to [float]; the operand is a
    [len], which is below 2^63. *)
Definition float_of_Z (n : Z) : float := PrimFloat.of_uint63 (Uint63.of_Z n).

(** [int(q)]: truncation towards zero.  Infinities and NaN, on which
    Python raises, do not arise from a length divided by [basic_speed]. *)
Definition py_int (q : float) : Z :=
  match Prim2SF q with
  | S754_finite s m e =>
      let v := match e with
               | Z0 => Zpos m
               | Zpos p => Zpos m * 2 ^ Zpos p
               | Zneg p => Zpos m / 2 ^ Zpos p
               end in
      if s then - v else v
  | _ => 0
  end.

(** [math.ceil(q)], the rounding the specification names. *)
Definition py_ceil (q : float) : Z :=
  match Prim2SF q with
  | S754_finite s m e =>
      match e with
      | Z0 => if s then - Zpos m else Zpos m
      | Zpos p => if s then - (Zpos m * 2 ^ Zpos p) else Zpos m * 2 ^ Zpos p
      | Zneg p => if s then - (Zpos m / 2 ^ Zpos p)
                  else - ((- Zpos m) / 2 ^ Zpos p)
      end
  | _ => 0
  end.

(** ** class Thing (thing.py) *)

Module Thing.
Section Methods.
Context (dim : Dimension).

(** The [locations] property:
    [closet.skeleton["thing_location"][dimension][thing]]. *)
Definition locations (self : string) : M (gmap Z (gmap Z loc_rd)) :=
  λ c, match thing_location (skeleton c) !! self with
       | Some locs => Ok locs c
       | None => Raise KeyError c
       end.

Definition set_locations (self : string) (locs : gmap Z (gmap Z loc_rd)) : M unit :=
  modify (set_skeleton (set_thing_location (<[self := locs]>))).

(** [if branch is None: branch = self.closet.branch] *)
Definition or_branch (b : option Z) : M Z :=
  match b with Some b => mret b | None => gets branch end.

(** [if tick is None: tick = self.closet.tick] *)
Definition or_tick (t : option Z) : M Z :=
  match t with Some t => mret t | None => gets tick end.

(** [d[k]] on a dictionary, raising [KeyError]. *)
Definition getitem {K V} `{Countable K} (m : gmap K V) (k : K) : M V :=
  match m !! k with Some v => mret v | None => raise KeyError end.

Definition key_before (bm : gmap Z loc_rd) (t : Z) : M Z :=
  match Skel.key_before bm t with Some k => mret k | None => raise KeyError end.

Definition key_after (bm : gmap Z loc_rd) (t : Z) : M Z :=
  match Skel.key_after bm t with Some k => mret k | None => raise KeyError end.

Definition get_location_rd (self : string) (b t : option Z) : M (option loc_rd) :=
  b ← or_branch b;
  t ← or_tick t;
  locs ← locations self;
  match locs !! b with
  | None => mret None
  | Some bm =>
      t ← (if decide (is_Some (bm !! t)) then mret t else key_before bm t);
      rd ← getitem bm t;
      mret (Some rd)
  end.

(** The handler of [except KeyError] returns [None]; so does the test
    on [rd] that follows the [try]. *)
Definition get_location (self : string) (b t : option Z) : M (option Location) :=
  rd ← try_except (get_location_rd self b t) KeyError (mret None);
  match rd with
  | None => mret None
  | Some rd =>
      match rd_location rd with
      | None => mret None
      | Some l =>
          match portex_match l with
          | Some (o, d) => mret (Some (InPortal (get_portal dim o d)))
          | None =>
              td ← gets thingdict;
              if decide (is_Some (td !! l)) then mret (Some (InThing l))
              else mret (Some (AtPlace (get_place dim l)))
          end
      end
  end.

(** [loc] is the [str(loc)] of the argument. *)
Definition set_location (self : string) (loc : string) (b t : option Z) : M unit :=
  b ← or_branch b;
  t ← or_tick t;
  locs ← locations self;
  let bm := default ∅ (locs !! b) in
  let rd := {| rd_dimension := dim_name dim;
               rd_thing := self;
               rd_branch := b;
               rd_tick_from := t;
               rd_location := Some loc |} in
  set_locations self (<[b := <[t := rd]> bm]> locs);;
  TS.upbranch b;;
  TS.uptick t.

(** [int(len(po) / self.basic_speed)] *)
Definition get_ticks_thru (po : Portal) : Z :=
  py_int (float_of_Z (portal_len po) / basic_speed).

(** The body of the [for port in path] loop of [follow_path], with the
    running [prevtick]. *)
Fixpoint follow_steps (self : string) (path : list Portal) (b prevtick : Z) : M unit :=
  match path with
  | [] => mret tt
  | port :: path' =>
      set_location self (portal_str port) (Some b) (Some prevtick);;
      let prevtick := prevtick + get_ticks_thru port in
      set_location self (destination port) (Some b) (Some prevtick);;
      follow_steps self path' b (prevtick + 1)
  end.

Definition follow_path (self : string) (path : list Portal) (b t : Z) : M unit :=
  try_except
    (locs ← locations self;
     bm ← getitem locs b;
     _ ← key_after bm t;
     raise TimeParadox)
    KeyError (mret tt);;
  follow_steps self path b (t + 1).

Definition rebranch (b : Z) (rd : loc_rd) : loc_rd :=
  {| rd_dimension := rd_dimension rd;
     rd_thing := rd_thing rd;
     rd_branch := b;
     rd_tick_from := rd_tick_from rd;
     rd_location := rd_location rd |}.

Definition retick (t : Z) (rd : loc_rd) : loc_rd :=
  {| rd_dimension := rd_dimension rd;
     rd_thing := rd_thing rd;
     rd_branch := rd_branch rd;
     rd_tick_from := t;
     rd_location := rd_location rd |}.

(** One turn of the [for rd in self.locations[parent].iterrows()] loop
    of [new_branch]: the loop variables [prev] and [started] and the
    dictionary [self.locations[branch]] before and after. *)
Definition inherit_row (b t : Z) (st : option loc_rd * bool * gmap Z loc_rd)
    (rd : loc_rd) : option loc_rd * bool * gmap Z loc_rd :=
  let '(prev, started, bm) := st in
  if decide (t ≤ rd_tick_from rd) then
    let bm := <[rd_tick_from rd := rebranch b rd]> bm in
    let bm :=
      match prev with
      | Some p =>
          if negb started && bool_decide (t < rd_tick_from rd)
             && bool_decide (rd_tick_from p < t)
          then <[t := retick t (rebranch b p)]> bm
          else bm
      | None => bm
      end in
    (Some rd, true, bm)
  else (Some rd, started, bm).

Definition inherit_rows (b t : Z) (rows : list loc_rd) (bm : gmap Z loc_rd)
    : gmap Z loc_rd :=
  (foldl (inherit_row b t) (None, false, bm) rows).2.

Definition new_branch (self : string) (parent b t : Z) : M unit :=
  locs ← locations self;
  (if decide (is_Some (locs !! b)) then mret tt
   else set_locations self (<[b := ∅]> locs));;
  gets (λ c, default false (thingdict c !! self)) ≫= λ blank : bool,
  if blank then
    start_loc ← get_location self (Some parent) (Some t);
    match start_loc with
    | Some (InPortal _) =>
        locs ← locations self;
        pm ← getitem locs parent;
        t ← key_after pm t;
        start_loc ← get_location self (Some parent) (Some t);
        set_location self (str_or_None location_str start_loc) (Some b) (Some t)
    | _ =>
        set_location self (str_or_None location_str start_loc) (Some b) (Some t)
    end
  else
    locs ← locations self;
    pm ← getitem locs parent;
    bm ← getitem locs b;
    set_locations self (<[b := inherit_rows b t (Skel.iterrows pm) bm]> locs).

Definition branch_loc_rds (self : string) (b : option Z) : M (list loc_rd) :=
  b ← or_branch b;
  locs ← locations self;
  bm ← getitem locs b;
  mret (Skel.iterrows bm).

Definition restore_loc_rds (self : string) (rds : list loc_rd) : M unit :=
  for_each rds (λ rd,
    set_location self (str_or_None id (rd_location rd))
      (Some (rd_branch rd)) (Some (rd_tick_from rd))).
End Methods.
End Thing.

(** ** class Closet (closet.py): the timestream methods *)

Module Closet.
Section Methods.
Context (dim : Dimension).

(** Modelled from the spec: [Dimension.new_branch] is missing;
    [new_branch] "propagates the creation to every versioned entity
    collection", here to every thing of the dimension. *)
Definition dimension_new_branch (parent b t : Z) : M unit :=
  td ← gets thingdict;
  for_each (map_to_list td).*1 (λ name, Thing.new_branch dim name parent b t).

(** The boards and characters of the closet keep tables of their own,
    which are outside the skeleton modelled here. *)
Definition new_branch (parent b t : Z) : M unit :=
  dimension_new_branch parent b t;;
  modify (set_skeleton (set_timestream_tab
    (<[b := {| tb_branch := b; tb_parent := parent |}]>))).

(** [self.branch = b]: [__setattr__] goes through [upd_branch], which
    calls the listeners (none are modelled) and replaces the bone. *)
Definition upd_branch (b : Z) : M unit :=
  modify (set_skeleton (set_game (λ g,
    {| gb_language := gb_language g; gb_seed := gb_seed g;
       gb_branch := b; gb_tick := gb_tick g |}))).

Definition upd_tick (t : Z) : M unit :=
  modify (set_skeleton (set_game (λ g,
    {| gb_language := gb_language g; gb_seed := gb_seed g;
       gb_branch := gb_branch g; gb_tick := t |}))).

(** The part of [time_travel] after the branch checks: clamp the tick,
    record the history, raise the watermark, move the cursor. *)
Definition move_cursor (b t : Z) : M unit :=
  t ← (if decide (t < 0) then modify (set_updating false);; mret 0
       else mret t);
  mintick ← TS.min_tick b;
  (* [tick < mintick] is false in Python 2 when [mintick] is [None] *)
  let t := match mintick with
           | Some m => if decide (t < m) then m else t
           | None => t
           end in
  cb ← gets branch;
  ct ← gets tick;
  modify (set_time_travel_history (λ h, h ++ [(cb, ct)]));;
  ht ← gets (λ c, hi_tick (timestream c));
  (if decide (ht < t)
   then modify (set_timestream (λ ts, {| hi_branch := hi_branch ts; hi_tick := t |}))
   else mret tt);;
  upd_branch b;;
  upd_tick t.

Definition time_travel (b t : Z) : M unit :=
  hb ← gets (λ c, hi_branch (timestream c));
  if decide (hb + 1 < b) then raise TimestreamException
  else
    (if decide (b = hb + 1)
     then cb ← gets branch; new_branch cb b t
     else mret tt);;
    move_cursor b t.

Definition increment_branch (branches : Z) : M Z :=
  cb ← gets branch;
  let b := cb + branches in
  mb ← TS.max_branch;
  if decide (mb < b) then
    ct ← gets tick;
    new_branch cb (cb + 1) ct;;
    mret (cb + 1)
  else mret b.

Definition time_travel_inc_tick (ticks : Z) : M unit :=
  cb ← gets branch;
  ct ← gets tick;
  time_travel cb (ct + ticks).

Definition time_travel_inc_branch (branches : Z) : M unit :=
  _ ← increment_branch branches;
  cb ← gets branch;
  ct ← gets tick;
  time_travel (cb + branches) ct.

(** Modelled from the spec: [Skeleton.copy] is missing; [checkpoint]
    "captures the current store as the new baseline", a snapshot that
    later writes to the store do not reach. *)
Definition skeleton_copy (sk : Skeleton) : Skeleton := sk.

Definition checkpoint : M unit :=
  modify (λ c, set_old_skeleton (skeleton_copy (skeleton c)) c).

(** [uptick_bone] on a bone that may or may not have the attributes
    [branch], [tick_from] and [tick_to]. *)
Definition uptick_bone (bone_branch bone_tick_from bone_tick_to : option Z) : M unit :=
  match bone_branch with
  | Some b =>
      hb ← gets (λ c, hi_branch (timestream c));
      if decide (hb < b)
      then modify (set_timestream (λ ts, {| hi_branch := b; hi_tick := hi_tick ts |}))
      else mret tt
  | None => mret tt
  end;;
  match bone_tick_from with
  | Some t =>
      ht ← gets (λ c, hi_tick (timestream c));
      if decide (ht < t)
      then modify (set_timestream (λ ts, {| hi_branch := hi_branch ts; hi_tick := t |}))
      else mret tt
  | None => mret tt
  end;;
  match bone_tick_to with
  | Some t =>
      ht ← gets (λ c, hi_tick (timestream c));
      if decide (ht < t)
      then modify (set_timestream (λ ts, {| hi_branch := hi_branch ts; hi_tick := t |}))
      else mret tt
  | None => mret tt
  end.
End Methods.
End Closet.

(** ** The store's difference, used by [save_game] *)

Module Diff.
(** The facts of the store, one per row: thing locations keyed by
    (thing, branch, tick), branch records keyed by branch, and the game
    bone. *)
Inductive fact :=
| LocFact (thing : string) (b t : Z) (rd : loc_rd)
| BranchFact (b : Z) (bone : timestream_bone)
| GameFact (g : game_bone).

#[global] Instance fact_eq_dec : EqDecision fact.
Proof. solve_decision. Defined.

Definition loc_facts (tl : gmap string (gmap Z (gmap Z loc_rd))) : list fact :=
  '(name, locs) ← map_to_list tl;
  '(b, bm) ← map_to_list locs;
  '(t, rd) ← map_to_list bm;
  [LocFact name b t rd].

Definition facts (sk : Skeleton) : list fact :=
  loc_facts (thing_location sk)
  ++ ((λ kv, BranchFact kv.1 kv.2) <$> map_to_list (timestream_tab sk))
  ++ [GameFact (game sk)].

(** Modelled from the spec: [Skeleton.__sub__] is missing; [a - b] is
    "the set of facts" of [a] that [b] does not hold, so that
    [skeleton - old_skeleton] are the additions since the baseline and
    [old_skeleton - skeleton] the removals. *)
Definition sub (a b : Skeleton) : list fact :=
  filter (λ f, f ∉ facts b) (facts a).

(** The first two lines of [Closet.save_game]. *)
Definition to_save (c : closet) : list fact := sub (skeleton c) (old_skeleton c).
Definition to_delete (c : closet) : list fact := sub (old_skeleton c) (skeleton c).
End Diff.

(** ** [Thing.journey_to] (thing.py), which calls back into the closet *)

Module Travel.
Section Methods.
Context (dim : Dimension).

(** [self.dimension.graph.es[i]] *)
Definition es_at (i : nat) : M Edge :=
  match es dim !! i with Some e => mret e | None => raise IndexError end.

(** [[self.dimension.graph.es[i]["portal"] for i in p]] *)
Fixpoint portals_of (p : list nat) : M (list Portal) :=
  match p with
  | [] => mret []
  | i :: p' =>
      e ← es_at i;
      ps ← portals_of p';
      mret (edge_portal e :: ps)
  end.

(** The [for p in ipath] loop: the first non-empty edge path whose last
    edge ends at the destination, as a list of portals; [None] when the
    loop ends without one. *)
Fixpoint find_path (ipath : list (list nat)) (destplace : Place)
    : M (option (list Portal)) :=
  match ipath with
  | [] => mret None
  | p :: ipath' =>
      match last p with
      | None => find_path ipath' destplace
      | Some i =>
          e ← es_at i;
          if decide (edge_target e = place_int destplace)
          then path ← portals_of p; mret (Some path)
          else find_path ipath' destplace
      end
  end.

(** Lines 211-217, repeated at 246-252: where and when the journey
    starts, given the name [oloc] of the present location. *)
Definition journey_start (self : string) (oloc : string) (b otick : Z)
    : M (string * Z) :=
  match portex_match oloc with
  | Some groups =>
      let loc := groups.1 in
      locs ← Thing.locations self;
      bm ← Thing.getitem locs b;
      t ← Thing.key_after bm otick;
      mret (loc, t)
  | None => mret (oloc, otick)
  end.

(** [increment = 1; while branch + increment in self.locations:
    increment += 1].  The loop leaves after at most as many turns as
    [locs] has keys. *)
Fixpoint find_increment (fuel : nat) (locs : gmap Z (gmap Z loc_rd))
    (b increment : Z) : Z :=
  match fuel with
  | O => increment
  | S fuel' =>
      if decide (is_Some (locs !! (b + increment)))
      then find_increment fuel' locs b (increment + 1)
      else increment
  end.

(** The handler of [except TimeParadox] in [journey_to]. *)
Definition on_paradox (self : string) (path : list Portal) (oloc : string)
    (b otick : Z) (locs_saved : list loc_rd) : M unit :=
  locs ← Thing.locations self;
  _ ← Thing.getitem locs b;
  Thing.set_locations self (delete b locs);;
  Thing.restore_loc_rds dim self locs_saved;;
  modify (set_thingdict (<[self := true]>));;
  locs ← Thing.locations self;
  let increment := find_increment (S (size locs)) locs b 1 in
  Closet.time_travel_inc_branch dim increment;;
  modify (set_thingdict (<[self := false]>));;
  b ← gets branch;
  '(loc, t) ← journey_start self oloc b otick;
  Thing.follow_path dim self path b t.

(** [self.dimension.graph.get_shortest_paths(loc, to=..., output="epath")],
    which raises [ValueError] for a name that the graph has no vertex
    for. *)
Definition shortest_paths (loc dest : string) : M (list (list nat)) :=
  match get_shortest_paths dim loc dest with
  | Some ipath => mret ipath
  | None => raise ValueError
  end.

Definition journey_to (self : string) (destplace : Place) (b t : option Z) : M unit :=
  b ← Thing.or_branch b;
  t ← Thing.or_tick t;
  cur ← Thing.get_location dim self (Some b) (Some t);
  let oloc := str_or_None location_str cur in
  let otick := t in
  '(loc, t) ← journey_start self oloc b otick;
  ipath ← shortest_paths loc (place_name destplace);
  path ← find_path ipath destplace;
  match path with
  | None => raise JourneyException
  | Some path =>
      locs_saved ← Thing.branch_loc_rds self (Some b);
      try_except (Thing.follow_path dim self path b t) TimeParadox
        (on_paradox self path oloc b otick locs_saved)
  end.
End Methods.
End Travel.


(** ** Exceptions beyond those of the journey code

    [Thing.exists] and [Thing.get_progress] can end in exceptions that
    the methods above never raise; their outcomes carry the wider set. *)

Inductive pyexn :=
| Core (e : exn)
| TypeError
| ZeroDivisionError
| OverflowError
| LocationException.

#[global] Instance pyexn_eq_dec : EqDecision pyexn.
Proof. solve_decision. Defined.

Inductive outcome (A : Type) :=
| Returns (a : A) (c : closet)
| Raises (e : pyexn) (c : closet).
Arguments Returns {A} a c.
Arguments Raises {A} e c.

Definition MX (A : Type) : Type := closet → outcome A.

#[global] Instance MX_ret : MRet MX := λ A a c, Returns a c.
#[global] Instance MX_bind : MBind MX := λ A B f m c,
  match m c with
  | Returns a c' => f a c'
  | Raises e c' => Raises e c'
  end.

Definition raises {A} (e : pyexn) : MX A := λ c, Raises e c.

(** A method of the journey code called from here. *)
Definition lift {A} (m : M A) : MX A :=
  λ c, match m c with
       | Ok a c' => Returns a c'
       | Raise e c' => Raises (Core e) c'
       end.

(** [float(n)] for a Python [int] or [long] of any size: the binary64
    number nearest to [n], ties to even, and [OverflowError] when that
    is beyond the largest finite one. *)
Definition nearest_float (n : Z) : float :=
  SF2Prim (binary_normalize FloatOps.prec FloatOps.emax n 0 false).

Definition py_float (n : Z) : MX float :=
  let x := nearest_float n in
  if PrimFloat.is_infinity x then raises OverflowError else mret x.

(** ** class Thing (thing.py): the queries *)

Module ThingQueries.
(** [exists]: the handler of [except KeyError] returns [False]; past the
    [try], the tuple [(rd, rd["location"])] is built before [None] is
    looked for in it, and subscripting [rd = None] is a [TypeError]. *)
Definition exists_ (self : string) (b t : option Z) : MX bool :=
  r ← lift (try_except
              (rd ← Thing.get_location_rd self b t; mret (Some rd))
              KeyError (mret None));
  match r with
  | None => mret false
  | Some None => raises TypeError
  | Some (Some rd) => mret (bool_decide (rd_location rd ≠ None))
  end.

(** [min([tick_from for tick_from in self.locations[branch]
          if tick_from > tick])]; [min] of an empty list is a
    [ValueError]. *)
Definition min_tick_after (bm : gmap Z loc_rd) (t : Z) : MX Z :=
  match TS.min_list (filter (λ k, t < k) (map_to_list bm).*1) with
  | Some k => mret k
  | None => raises (Core ValueError)
  end.

(** [passed / duration] on floats. *)
Definition float_div (x y : float) : MX float :=
  if PrimFloat.eqb y 0%float then raises ZeroDivisionError
  else mret (x / y)%float.

Definition get_progress (self : string) (b t : option Z) : MX float :=
  b ← lift (Thing.or_branch b);
  t ← lift (Thing.or_tick t);
  locs ← lift (Thing.locations self);
  match locs !! b with
  | None => raises LocationException
  | Some bm =>
      rd ← lift (Thing.get_location_rd self (Some b) (Some t));
      match rd with
      | None => raises TypeError
      | Some rd =>
          let t1 := rd_tick_from rd in
          t2 ← min_tick_after bm t;
          duration ← py_float (t2 - t1);
          passed ← py_float (t - t1);
          float_div passed duration
      end
  end.
End ThingQueries.

(** ** class Closet (closet.py): the clock *)

Module Clock.
Section Methods.
Context (dim : Dimension).

Definition go : M unit := modify (set_updating true).

Definition stop : M unit := modify (set_updating false).

Definition back_to_start : M unit :=
  stop;;
  cb ← gets branch;
  Closet.time_travel dim cb 0.

(** [update]: [game_speed] is an attribute that [update] reads and
    never writes; it is passed in. *)
Definition update (game_speed : Z) : M unit :=
  gets updating ≫= λ u : bool,
  if u then Closet.time_travel_inc_tick dim game_speed else mret tt.

(** [uptick_skel]: [uptick_bone] on every bone of the skeleton.  The
    bones that [self.skeleton.iterbones()] yields are passed in, each
    as the attributes [branch], [tick_from] and [tick_to] it may have. *)
Definition uptick_skel (bones : list (option Z * option Z * option Z)) : M unit :=
  for_each bones (λ bone, Closet.uptick_bone bone.1.1 bone.1.2 bone.2).
End Methods.
End Clock.

(** ** class ListItemIterator (closet.py) *)

Module ListItemIterator.
(** The iterator's state: what [l_iter] has yet to give, the counter
    [i], and the list [l] it was made from. *)
Record t (A : Type) := {
  l : list A;
  l_iter : list A;
  i : nat }.
Arguments l {A}.
Arguments l_iter {A}.
Arguments i {A}.

Definition init {A} (xs : list A) : t A :=
  {| l := xs; l_iter := xs; i := 0 |}.

Definition len {A} (it : t A) : nat := length (l it).

(** [__next__]: [None] stands for the [StopIteration] that
    [next(self.l_iter)] raises, before [i] is touched. *)
Definition next {A} (it : t A) : option ((nat * A) * t A) :=
  match l_iter it with
  | [] => None
  | x :: rest => Some ((i it, x), {| l := l it; l_iter := rest; i := S (i it) |})
  end.

(** Calling [__next__] until it stops; [fuel] bounds the calls. *)
Fixpoint drain {A} (fuel : nat) (it : t A) : list (nat * A) :=
  match fuel with
  | O => []
  | S fuel' =>
      match next it with
      | None => []
      | Some (x, it') => x :: drain fuel' it'
      end
  end.
End ListItemIterator.
(** * Notions used to state the properties *)

(** [frame c c']: the cursor, the history and the baseline are the same,
    and neither watermark is lower. *)
Record frame (c c' : closet) : Prop := {
  frame_game : game (skeleton c') = game (skeleton c);
  frame_history : time_travel_history c' = time_travel_history c;
  frame_updating : updating c' = updating c;
  frame_old : old_skeleton c' = old_skeleton c;
  frame_hi_branch : hi_branch (timestream c) ≤ hi_branch (timestream c');
  frame_hi_tick : hi_tick (timestream c) ≤ hi_tick (timestream c') }.

(** A method keeps the frame when the state it ends in, returning or
    raising, is above the one it started from. *)
Definition keeps_frame {A} (m : M A) : Prop := ∀ c, frame c (state_of (m c)).


(** Strict order of the items of a branch by tick. *)
Definition key_lt {V} : relation (Z * V) := λ a b, a.1 < b.1.

(** [k] is the tick of the fact in force at [t]: the greatest key of the
    branch at or before [t]. *)
Definition greatest_at_or_before (bm : gmap Z loc_rd) (t k : Z) : Prop :=
  is_Some (bm !! k) ∧ k ≤ t ∧ map_Forall (λ j _, j ≤ t → j ≤ k) bm.

#[global] Instance greatest_at_or_before_dec bm t k :
  Decision (greatest_at_or_before bm t k).
Proof. unfold greatest_at_or_before. apply _. Defined.

(** The branch has no fact at or before [t]. *)
Definition nothing_at_or_before (bm : gmap Z loc_rd) (t : Z) : Prop :=
  map_Forall (λ j _, t < j) bm.

#[global] Instance nothing_at_or_before_dec bm t :
  Decision (nothing_at_or_before bm t).
Proof. unfold nothing_at_or_before. apply _. Defined.

(** ** A small world for worked examples

    Three places, three portals of length ten, and one thing [T]. *)

Definition place_A : Place := {| place_name := "A"; place_int := 0 |}.
Definition place_B : Place := {| place_name := "B"; place_int := 1 |}.
Definition place_C : Place := {| place_name := "C"; place_int := 2 |}.

Definition portal_of (o d : string) : Portal :=
  {| origin := o; destination := d; portal_len := 10 |}.

Definition place_of (n : string) : Place :=
  if decide (n = "A") then place_A
  else if decide (n = "B") then place_B
  else if decide (n = "C") then place_C
  else {| place_name := n; place_int := -1 |}.

(** Edge 0 is A->B, edge 1 is B->C, edge 2 is A->C.  There is no way
    back: nothing leaves C and nothing enters A.  The vertices are the
    three places; a query for any other name is refused. *)
Definition is_vertex (n : string) : Prop := n = "A" ∨ n = "B" ∨ n = "C".

#[global] Instance is_vertex_dec n : Decision (is_vertex n).
Proof. unfold is_vertex. apply _. Defined.

Definition paths_of (src dst : string) : option (list (list nat)) :=
  if decide (is_vertex src ∧ is_vertex dst) then
    Some (if decide (src = "A" ∧ dst = "B") then [[0%nat]]
          else if decide (src = "B" ∧ dst = "C") then [[1%nat]]
          else if decide (src = "A" ∧ dst = "C") then [[2%nat]]
          else [[]])
  else None.

Definition Physical : Dimension :=
  {| dim_name := "Physical";
     get_portal := portal_of;
     get_place := place_of;
     get_shortest_paths := paths_of;
     es := [ {| edge_source := 0; edge_target := 1; edge_portal := portal_of "A" "B" |};
             {| edge_source := 1; edge_target := 2; edge_portal := portal_of "B" "C" |};
             {| edge_source := 0; edge_target := 2; edge_portal := portal_of "A" "C" |} ] |}.

(** A row of [T]'s location history. *)
Definition row (b t : Z) (l : string) : loc_rd :=
  {| rd_dimension := "Physical"; rd_thing := "T"; rd_branch := b;
     rd_tick_from := t; rd_location := Some l |}.

Definition store_of (locs : gmap Z (gmap Z loc_rd)) (b t : Z) : Skeleton :=
  {| thing_location := {[ "T" := locs ]};
     timestream_tab := {[ 0 := {| tb_branch := 0; tb_parent := 0 |} ]};
     game := {| gb_language := "eng"; gb_seed := 0; gb_branch := b; gb_tick := t |} |}.

(** A closet holding [T] with the location history [locs], the cursor at
    [(b, t)] and the watermarks at [(hb, ht)], just saved. *)
Definition world (locs : gmap Z (gmap Z loc_rd)) (b t hb ht : Z) : closet :=
  {| skeleton := store_of locs b t;
     old_skeleton := store_of locs b t;
     thingdict := {[ "T" := false ]};
     timestream := {| hi_branch := hb; hi_tick := ht |};
     time_travel_history := [];
     updating := false |}.

(** [T] on the trunk: at A from tick 0, in the portal to B from tick 1,
    at B from tick 101. *)
Definition trunk_A_to_B : gmap Z (gmap Z loc_rd) :=
  {[ 0 := {[ 0 := row 0 0 "A"; 1 := row 0 1 "Portal(A->B)"; 101 := row 0 101 "B" ]} ]}.

(** ** The schedule of a journey, in the words of the specification *)

(** "[ticks_to_cross = ceil(portal_length / thing_speed)]" *)
Definition ticks_to_cross (po : Portal) : Z :=
  py_ceil (float_of_Z (portal_len po) / basic_speed).

(** "For each portal in sequence, a fact placing the thing in the portal
    at the current scheduling tick [s], then a fact placing it at the
    portal's destination at [s + ticks_to_cross(portal)]"; the next
    portal is entered one tick after the arrival.  [ticks] says how long
    a portal takes. *)
Fixpoint scheduled_facts (ticks : Portal → Z) (path : list Portal) (s : Z)
    : list (Z * string) :=
  match path with
  | [] => []
  | po :: path' =>
      (s, portal_str po)
      :: (s + ticks po, destination po)
      :: scheduled_facts ticks path' (s + ticks po + 1)
  end.

(** The facts [(tick, location)] written as rows of [self] in branch [b]. *)
Definition write_facts (dim : Dimension) (self : string) (b : Z)
    (fs : list (Z * string)) (bm : gmap Z loc_rd) : gmap Z loc_rd :=
  foldl (λ bm f, <[f.1 := {| rd_dimension := dim_name dim; rd_thing := self;
                             rd_branch := b; rd_tick_from := f.1;
                             rd_location := Some f.2 |}]> bm) bm fs.

(** The lengths that [len(po)] can return: from 0 up to [sys.maxsize],
    which is 2^63 - 1. *)
Definition len_range (po : Portal) : Prop := 0 ≤ portal_len po < 2 ^ 63.

#[global] Instance len_range_dec po : Decision (len_range po).
Proof. unfold len_range. apply _. Defined.

(** The 53 digits of [basic_speed], which is [speed_mantissa * 2^-56]. *)
Definition speed_mantissa : positive := 7205759403792794.

(** ** Clamping a requested tick, in the words of the specification

    "Clamps [tick] to [>= 0] and to [>= min_tick_with_data(branch)]";
    a branch without data has no minimum to clamp to. *)
Definition clamp_tick (t : Z) (mintick : option Z) : Z :=
  match mintick with
  | Some m => Z.max (Z.max t 0) m
  | None => Z.max t 0
  end.

(** A closet whose trunk holds [T] at A from tick 3 on. *)
Definition late_start : closet :=
  world {[ 0 := {[ 3 := row 0 3 "A" ]} ]} 0 3 0 3.

(** ** Paths of portals in the dimension's graph *)





(** [T] five ticks into the portal from A to B, which it leaves at tick
    101; the cursor is at (0, 5). *)
Definition crossing_to_B : closet := world trunk_A_to_B 0 5 0 101.

(** [T] at A from tick 0 and at B from tick 50 on the trunk, seen from
    the cursor (0, 100). *)
Definition trunk_A_then_B : gmap Z (gmap Z loc_rd) :=
  {[ 0 := {[ 0 := row 0 0 "A"; 50 := row 0 50 "B" ]} ]}.

Definition looking_back : closet := world trunk_A_then_B 0 100 0 50.

(** The same history seen from the cursor (0, 0). *)
Definition at_the_start : closet := world trunk_A_then_B 0 0 0 50.

(** ** Well-formed branches

    The last level of the skeleton is keyed by [tick_from], a column of
    the table's primary key: every row sits under its own tick. *)
Definition keyed_by_tick (bm : gmap Z loc_rd) : Prop :=
  map_Forall (λ k rd, rd_tick_from rd = k) bm.

#[global] Instance keyed_by_tick_dec bm : Decision (keyed_by_tick bm).
Proof. unfold keyed_by_tick. apply _. Defined.

(** Rows in the order of their ticks. *)
Definition tick_lt : relation loc_rd := λ a b, rd_tick_from a < rd_tick_from b.

(** A row of the parent copied into branch [b] under its own tick. *)
Definition copy_row (b : Z) (bm : gmap Z loc_rd) (rd : loc_rd) : gmap Z loc_rd :=
  <[rd_tick_from rd := Thing.rebranch b rd]> bm.

(** The branch map that [new_branch] builds for a branch new to the
    thing: the loop of [inherit_row] over the parent's rows. *)
Definition inherited (b t : Z) (pm : gmap Z loc_rd) : gmap Z loc_rd :=
  Thing.inherit_rows b t (Skel.iterrows pm) ∅.

(** A name that the pattern of [portex] reads back unchanged: not empty
    and free of newlines. *)
Definition plain_name (s : string) : Prop :=
  s ≠ "" ∧ Forall (λ a, is_newline a = false) (list_ascii_of_string s).

(** The rest of [portex] after the first group: [->(.+)\)]. *)
Definition portex_tail (l : list ascii) : option (list ascii * list ascii) :=
  r ← strip_prefix (list_ascii_of_string "->") l;
  dot_plus (strip_prefix (list_ascii_of_string ")")) r.

(** ** Notions used by the further properties *)

(** What a call answered, the closet it left aside. *)
Definition answer {A} (r : result A) : exn + A :=
  match r with
  | Ok a _ => inr a
  | Raise e _ => inl e
  end.

(** The object a stored location name stands for, as [get_location]
    reads it. *)
Definition named (dim : Dimension) (td : gmap string bool) (l : string) : Location :=
  match portex_match l with
  | Some (o, d) => InPortal (get_portal dim o d)
  | None => if decide (is_Some (td !! l)) then InThing l
            else AtPlace (get_place dim l)
  end.

(** The row that [restore_loc_rds] writes back for a saved row: its
    dimension and thing are those of the restoring thing, and its
    location is the [str] of the saved one. *)
Definition restored_row (dim : Dimension) (self : string) (rd : loc_rd) : loc_rd :=
  {| rd_dimension := dim_name dim;
     rd_thing := self;
     rd_branch := rd_branch rd;
     rd_tick_from := rd_tick_from rd;
     rd_location := Some (str_or_None id (rd_location rd)) |}.

(** Every row of the branch map is filed under branch [b]. *)
Definition filed_under (b : Z) (bm : gmap Z loc_rd) : Prop :=
  map_Forall (λ _ rd, rd_branch rd = b) bm.

#[global] Instance filed_under_dec b bm : Decision (filed_under b bm).
Proof. unfold filed_under. apply _. Defined.

(** Every row of the branch map is as [set_location] writes it for
    [self] in branch [b]. *)
Definition as_written (dim : Dimension) (self : string) (b : Z)
    (bm : gmap Z loc_rd) : Prop :=
  map_Forall (λ k rd, rd_dimension rd = dim_name dim ∧ rd_thing rd = self
                      ∧ rd_branch rd = b ∧ rd_tick_from rd = k
                      ∧ is_Some (rd_location rd)) bm.

#[global] Instance as_written_dec dim self b bm : Decision (as_written dim self b bm).
Proof. unfold as_written. apply _. Defined.

(** The steps of the [TimeParadox] handler that undo the attempt:
    [del self.locations[branch]; self.restore_loc_rds(locs)], with
    [locs] the rows saved by [branch_loc_rds(branch)] beforehand. *)
Definition save_delete_restore (dim : Dimension) (self : string) (b : Z) : M unit :=
  rds ← Thing.branch_loc_rds self (Some b);
  locs ← Thing.locations self;
  _ ← Thing.getitem locs b;
  Thing.set_locations self (delete b locs);;
  Thing.restore_loc_rds dim self rds.

(** One write of a restoring loop: the row [f rd] filed under the tick
    of [rd]. *)
Definition put_row (f : loc_rd → loc_rd) (m : gmap Z loc_rd) (rd : loc_rd)
    : gmap Z loc_rd :=
  <[rd_tick_from rd := f rd]> m.

(** A trunk that holds a tombstone: a row whose location is [None]. *)
Definition trunk_with_tombstone : closet :=
  world {[ 0 := {[ 0 := row 0 0 "A";
                   4 := {| rd_dimension := "Physical"; rd_thing := "T";
                           rd_branch := 0; rd_tick_from := 4;
                           rd_location := None |} ]} ]} 0 5 0 5.

(** The branch [b] of [self] holds a fact after tick [t]. *)
Definition fact_after (c : closet) (self : string) (b t : Z) : Prop :=
  ∃ locs bm k, thing_location (skeleton c) !! self = Some locs
    ∧ locs !! b = Some bm ∧ is_Some (bm !! k) ∧ t < k.

(** What a call leaves behind, whichever way it ends. *)
Definition result_of {A} (o : outcome A) : pyexn + A :=
  match o with Returns a _ => inr a | Raises e _ => inl e end.

Definition closet_of {A} (o : outcome A) : closet :=
  match o with Returns _ c => c | Raises _ c => c end.

(** [k] is the tick of the next fact after [t]: the least key of the
    branch above [t]. *)
Definition least_after (bm : gmap Z loc_rd) (t k : Z) : Prop :=
  is_Some (bm !! k) ∧ t < k ∧ map_Forall (λ j _, t < j → k ≤ j) bm.

#[global] Instance least_after_dec bm t k : Decision (least_after bm t k).
Proof. unfold least_after. apply _. Defined.

(** The branch has no fact after [t]. *)
Definition nothing_after (bm : gmap Z loc_rd) (t : Z) : Prop :=
  map_Forall (λ j _, j ≤ t) bm.

#[global] Instance nothing_after_dec bm t : Decision (nothing_after bm t).
Proof. unfold nothing_after. apply _. Defined.

(** The answer of [get_location(branch, tick)], which always returns. *)
Definition location_at (dim : Dimension) (self : string) (b t : Z) (c : closet)
    : option Location :=
  match Thing.get_location dim self (Some b) (Some t) c with
  | Ok l _ => l
  | Raise _ _ => None
  end.

(** The sample thing with [new_branch_blank] set, in the portal of its
    trunk at tick 50. *)
Definition blank_in_portal : closet :=
  set_thingdict (<["T" := true]>) (world trunk_A_to_B 0 50 0 101).

(** The sample trunk with the clock running, the cursor at tick 7. *)
Definition clock_running : closet :=
  set_updating true (world trunk_A_to_B 0 7 0 101).

(** [T] in the portal from A to B from tick 1 on, with no arrival
    written; the cursor is at (0, 5). *)
Definition in_portal_for_good : closet :=
  world {[ 0 := {[ 0 := row 0 0 "A"; 1 := row 0 1 "Portal(A->B)" ]} ]} 0 5 0 1.

(** [float(tick - t1) / float(t2 - t1)], the duration converted first. *)
Definition progress_ratio (t1 t t2 : Z) : MX float :=
  duration ← py_float (t2 - t1);
  passed ← py_float (t - t1);
  ThingQueries.float_div passed duration.

(** [T] at A from tick 0 and at B from tick 2^63 on, seen from the
    cursor half way, at tick 2^62. *)
Definition long_wait : closet :=
  world {[ 0 := {[ 0 := row 0 0 "A"; 2 ^ 63 := row 0 (2 ^ 63) "B" ]} ]}
    0 (2 ^ 62) 0 (2 ^ 63).
(** * Properties *)

(** ** Running the monad *)

Lemma bind_Ok {A B} (m : M A) (f : A → M B) c a c' :
  m c = Ok a c' → (m ≫= f) c = f a c'.
Proof. intros E. unfold mbind, M_bind. by rewrite E. Qed.

Lemma bind_Raise {A B} (m : M A) (f : A → M B) c e c' :
  m c = Raise e c' → (m ≫= f) c = Raise e c'.
Proof. intros E. unfold mbind, M_bind. by rewrite E. Qed.

Lemma bind_inv_Ok {A B} (m : M A) (f : A → M B) c b c2 :
  (m ≫= f) c = Ok b c2 → ∃ a c1, m c = Ok a c1 ∧ f a c1 = Ok b c2.
Proof.
  unfold mbind, M_bind. destruct (m c) as [a c1|e c1]; [eauto|discriminate].
Qed.

Ltac munfold :=
  unfold mbind, M_bind, mret, M_ret, gets, modify, raise, try_except in *.

(** ** The watermarks only go up *)

Lemma frame_refl c : frame c c.
Proof. split; done || lia. Qed.

Lemma frame_trans c1 c2 c3 : frame c1 c2 → frame c2 c3 → frame c1 c3.
Proof.
  intros [] []. split; try congruence; lia.
Qed.

Lemma keeps_frame_ret {A} (a : A) : keeps_frame (mret a).
Proof. intros c. apply frame_refl. Qed.

Lemma keeps_frame_raise {A} e : keeps_frame (@raise A e).
Proof. intros c. apply frame_refl. Qed.

Lemma keeps_frame_gets {A} (f : closet → A) : keeps_frame (gets f).
Proof. intros c. apply frame_refl. Qed.

Lemma keeps_frame_bind {A B} (m : M A) (f : A → M B) :
  keeps_frame m → (∀ a, keeps_frame (f a)) → keeps_frame (m ≫= f).
Proof.
  intros Hm Hf c. specialize (Hm c). unfold mbind, M_bind.
  destruct (m c) as [a c1|e c1]; simpl in *; [|done].
  eapply frame_trans; [done|apply Hf].
Qed.

Lemma keeps_frame_try {A} (m h : M A) e :
  keeps_frame m → keeps_frame h → keeps_frame (try_except m e h).
Proof.
  intros Hm Hh c. specialize (Hm c). unfold try_except.
  destruct (m c) as [a c1|e' c1]; simpl in *; [done|].
  destruct (decide (e' = e)); [|done].
  eapply frame_trans; [done|apply Hh].
Qed.

Lemma keeps_frame_for_each {A} (xs : list A) (body : A → M unit) :
  (∀ x, keeps_frame (body x)) → keeps_frame (for_each xs body).
Proof.
  intros Hb. induction xs as [|x xs IH]; simpl.
  - apply keeps_frame_ret.
  - apply keeps_frame_bind; [apply Hb|done].
Qed.

Lemma keeps_frame_getitem {K V} `{Countable K} (m : gmap K V) k :
  keeps_frame (Thing.getitem m k).
Proof.
  unfold Thing.getitem. destruct (m !! k);
    [apply keeps_frame_ret|apply keeps_frame_raise].
Qed.

Lemma keeps_frame_locations self : keeps_frame (Thing.locations self).
Proof.
  intros c. unfold Thing.locations.
  destruct (thing_location (skeleton c) !! self); apply frame_refl.
Qed.

Lemma keeps_frame_key_after bm t : keeps_frame (Thing.key_after bm t).
Proof.
  unfold Thing.key_after. destruct (Skel.key_after bm t);
    [apply keeps_frame_ret|apply keeps_frame_raise].
Qed.

Lemma keeps_frame_key_before bm t : keeps_frame (Thing.key_before bm t).
Proof.
  unfold Thing.key_before. destruct (Skel.key_before bm t);
    [apply keeps_frame_ret|apply keeps_frame_raise].
Qed.

Lemma keeps_frame_upbranch b : keeps_frame (TS.upbranch b).
Proof.
  intros c. unfold TS.upbranch, modify; simpl.
  split; simpl; try done; try lia. case_decide; lia.
Qed.

Lemma keeps_frame_uptick t : keeps_frame (TS.uptick t).
Proof.
  intros c. unfold TS.uptick, modify; simpl.
  split; simpl; try done; try lia. case_decide; lia.
Qed.

Lemma keeps_frame_or_branch b : keeps_frame (Thing.or_branch b).
Proof. destruct b; [apply keeps_frame_ret|apply keeps_frame_gets]. Qed.

Lemma keeps_frame_or_tick t : keeps_frame (Thing.or_tick t).
Proof. destruct t; [apply keeps_frame_ret|apply keeps_frame_gets]. Qed.

Create HintDb frame.
#[local] Hint Resolve keeps_frame_ret keeps_frame_raise keeps_frame_gets
  keeps_frame_getitem keeps_frame_locations keeps_frame_key_after
  keeps_frame_key_before keeps_frame_upbranch keeps_frame_uptick
  keeps_frame_or_branch keeps_frame_or_tick : frame.

Ltac frame_step :=
  first
    [ solve [eauto with frame]
    | apply keeps_frame_bind; [|intros ?]
    | apply keeps_frame_try
    | apply keeps_frame_for_each; intros ? ].

Section ThingFrames.
Context (dim : Dimension).

Lemma keeps_frame_set_locations self locs :
  keeps_frame (Thing.set_locations self locs).
Proof. intros c. split; simpl; done || lia. Qed.
Hint Resolve keeps_frame_set_locations : frame.

Lemma keeps_frame_get_location_rd self b t :
  keeps_frame (Thing.get_location_rd self b t).
Proof.
  unfold Thing.get_location_rd. repeat frame_step.
  destruct (_ !! _); repeat frame_step. case_decide; repeat frame_step.
Qed.
Hint Resolve keeps_frame_get_location_rd : frame.

Lemma keeps_frame_get_location self b t :
  keeps_frame (Thing.get_location dim self b t).
Proof.
  unfold Thing.get_location. repeat frame_step.
  destruct a as [rd|]; [|frame_step].
  destruct (rd_location rd) as [l|]; [|frame_step].
  destruct (portex_match l) as [[??]|]; repeat frame_step.
  case_decide; frame_step.
Qed.
Hint Resolve keeps_frame_get_location : frame.

Lemma keeps_frame_set_location self loc b t :
  keeps_frame (Thing.set_location dim self loc b t).
Proof. unfold Thing.set_location. repeat frame_step. Qed.
Hint Resolve keeps_frame_set_location : frame.

Lemma keeps_frame_new_branch self parent b t :
  keeps_frame (Thing.new_branch dim self parent b t).
Proof.
  unfold Thing.new_branch. repeat frame_step.
  { case_decide; frame_step. }
  destruct a1.
  - repeat frame_step. destruct a1 as [[| |]|]; repeat frame_step.
  - repeat frame_step.
Qed.
Hint Resolve keeps_frame_new_branch : frame.

Lemma keeps_frame_restore_loc_rds self rds :
  keeps_frame (Thing.restore_loc_rds dim self rds).
Proof. unfold Thing.restore_loc_rds. repeat frame_step. Qed.

Lemma keeps_frame_follow_steps self path b t :
  keeps_frame (Thing.follow_steps dim self path b t).
Proof.
  revert t. induction path as [|po path IH]; intros t; simpl.
  - frame_step.
  - repeat frame_step.
Qed.
Hint Resolve keeps_frame_follow_steps : frame.

Lemma keeps_frame_follow_path self path b t :
  keeps_frame (Thing.follow_path dim self path b t).
Proof. unfold Thing.follow_path. repeat frame_step. Qed.

Lemma keeps_frame_dimension_new_branch parent b t :
  keeps_frame (Closet.dimension_new_branch dim parent b t).
Proof. unfold Closet.dimension_new_branch. repeat frame_step. Qed.
Hint Resolve keeps_frame_dimension_new_branch : frame.

Lemma keeps_frame_closet_new_branch parent b t :
  keeps_frame (Closet.new_branch dim parent b t).
Proof.
  unfold Closet.new_branch. repeat frame_step.
  intros c. split; simpl; done || lia.
Qed.
End ThingFrames.

(** ** The ordered items of a branch *)

Section SkelFacts.
Context {V : Type}.
Implicit Types (m : gmap Z V) (l : list (Z * V)).

#[local] Instance key_le_total : Total (@Skel.key_le V).
Proof. intros a b. unfold Skel.key_le. lia. Qed.

#[local] Instance key_le_trans : Transitive (@Skel.key_le V).
Proof. intros a b c. unfold Skel.key_le. lia. Qed.

Lemma iteritems_elem m k v : (k, v) ∈ Skel.iteritems m ↔ m !! k = Some v.
Proof.
  unfold Skel.iteritems. rewrite merge_sort_Permutation.
  apply elem_of_map_to_list.
Qed.

Lemma iteritems_NoDup m : NoDup (Skel.iteritems m).*1.
Proof.
  unfold Skel.iteritems. rewrite merge_sort_Permutation.
  apply NoDup_fst_map_to_list.
Qed.

Lemma sorted_le_lt l :
  StronglySorted Skel.key_le l → NoDup l.*1 → StronglySorted key_lt l.
Proof.
  induction 1 as [|x l Hs IH Hx]; intros Hnd; [constructor|].
  simpl in Hnd. apply NoDup_cons in Hnd as [Hnotin Hnd].
  constructor; [by apply IH|].
  rewrite Forall_forall in Hx |- *. intros y Hy.
  specialize (Hx y Hy). unfold Skel.key_le, key_lt in *.
  assert (x.1 ≠ y.1); [|lia].
  intros E. apply Hnotin. rewrite E. apply list_elem_of_fmap. eauto.
Qed.

Lemma iteritems_sorted m : StronglySorted key_lt (Skel.iteritems m).
Proof.
  apply sorted_le_lt; [|apply iteritems_NoDup].
  unfold Skel.iteritems. apply StronglySorted_merge_sort; apply _.
Qed.

(** In a list sorted by key, the last item below a bound is the greatest
    one below it, and the first item above a bound the least. *)
Lemma last_below_spec l t :
  StronglySorted key_lt l →
  match last (filter (λ kv, kv.1 < t) l) with
  | Some x => x ∈ l ∧ x.1 < t ∧ ∀ y, y ∈ l → y.1 < t → y.1 ≤ x.1
  | None => ∀ y, y ∈ l → t ≤ y.1
  end.
Proof.
  induction 1 as [|x l Hs IH Hx]; simpl.
  { intros y Hy. by apply elem_of_nil in Hy. }
  rewrite Forall_forall in Hx. unfold key_lt in Hx.
  rewrite filter_cons. case_decide as Hxt.
  - rewrite last_cons.
    destruct (last (filter (λ kv, kv.1 < t) l)) as [z|].
    + destruct IH as (Hz & Hzt & Hmax). split; [by right|]. split; [done|].
      intros y Hy Hyt. apply elem_of_cons in Hy as [->|Hy]; [|by apply Hmax].
      specialize (Hx z Hz). lia.
    + split; [by left|]. split; [done|].
      intros y Hy Hyt. apply elem_of_cons in Hy as [->|Hy]; [lia|].
      specialize (IH y Hy). lia.
  - destruct (last (filter (λ kv, kv.1 < t) l)) as [z|].
    + destruct IH as (Hz & Hzt & Hmax). specialize (Hx z Hz). lia.
    + intros y Hy. apply elem_of_cons in Hy as [->|Hy]; [lia|by apply IH].
Qed.

Lemma head_above_spec l t :
  StronglySorted key_lt l →
  match head (filter (λ kv, t < kv.1) l) with
  | Some x => x ∈ l ∧ t < x.1 ∧ ∀ y, y ∈ l → t < y.1 → x.1 ≤ y.1
  | None => ∀ y, y ∈ l → y.1 ≤ t
  end.
Proof.
  induction 1 as [|x l Hs IH Hx]; simpl.
  { intros y Hy. by apply elem_of_nil in Hy. }
  rewrite Forall_forall in Hx. unfold key_lt in Hx.
  rewrite filter_cons. case_decide as Hxt; simpl.
  - split; [by left|]. split; [done|].
    intros y Hy Hyt. apply elem_of_cons in Hy as [->|Hy]; [lia|].
    specialize (Hx y Hy). lia.
  - destruct (head (filter (λ kv, t < kv.1) l)) as [z|].
    + destruct IH as (Hz & Hzt & Hmin). split; [by right|]. split; [done|].
      intros y Hy Hyt. apply elem_of_cons in Hy as [->|Hy]; [lia|by apply Hmin].
    + intros y Hy. apply elem_of_cons in Hy as [->|Hy]; [lia|by apply IH].
Qed.

(** [key_before] is the greatest key below the bound. *)
Lemma key_before_Some m t k :
  Skel.key_before m t = Some k ↔
  is_Some (m !! k) ∧ k < t ∧ ∀ j, is_Some (m !! j) → j < t → j ≤ k.
Proof.
  unfold Skel.key_before.
  pose proof (last_below_spec (Skel.iteritems m) t (iteritems_sorted m)) as H.
  destruct (last _) as [[k' v']|]; simpl in *.
  - destruct H as (Hin & Hlt & Hmax). apply iteritems_elem in Hin. split.
    + intros [= <-]. split; [eauto|]. split; [done|].
      intros j [w Hj] Hjt. apply (Hmax (j, w)); [by apply iteritems_elem|done].
    + intros ([v Hk] & Hkt & Hmax'). f_equal.
      assert (k' ≤ k) by (apply Hmax'; eauto).
      assert (k ≤ k'); [|lia].
      apply (Hmax (k, v)); [by apply iteritems_elem|done].
  - split; [done|]. intros ([v Hk] & Hkt & _).
    specialize (H (k, v)). simpl in H.
    assert (t ≤ k) by (apply H; by apply iteritems_elem). lia.
Qed.

Lemma key_before_None m t :
  Skel.key_before m t = None ↔ ∀ j, is_Some (m !! j) → t ≤ j.
Proof.
  unfold Skel.key_before.
  pose proof (last_below_spec (Skel.iteritems m) t (iteritems_sorted m)) as H.
  destruct (last _) as [[k' v']|]; simpl in *.
  - destruct H as (Hin & Hlt & Hmax). apply iteritems_elem in Hin. split; [done|].
    intros Hall. assert (t ≤ k') by (apply Hall; eauto). lia.
  - split; [|done]. intros _ j [w Hj].
    apply (H (j, w)). by apply iteritems_elem.
Qed.

(** [key_after] is the least key above the bound. *)
Lemma key_after_Some m t k :
  Skel.key_after m t = Some k ↔
  is_Some (m !! k) ∧ t < k ∧ ∀ j, is_Some (m !! j) → t < j → k ≤ j.
Proof.
  unfold Skel.key_after.
  pose proof (head_above_spec (Skel.iteritems m) t (iteritems_sorted m)) as H.
  destruct (head _) as [[k' v']|]; simpl in *.
  - destruct H as (Hin & Hlt & Hmin). apply iteritems_elem in Hin. split.
    + intros [= <-]. split; [eauto|]. split; [done|].
      intros j [w Hj] Hjt. apply (Hmin (j, w)); [by apply iteritems_elem|done].
    + intros ([v Hk] & Hkt & Hmin'). f_equal.
      assert (k ≤ k') by (apply Hmin'; eauto).
      assert (k' ≤ k); [|lia].
      apply (Hmin (k, v)); [by apply iteritems_elem|done].
  - split; [done|]. intros ([v Hk] & Hkt & _).
    specialize (H (k, v)). simpl in H.
    assert (k ≤ t) by (apply H; by apply iteritems_elem). lia.
Qed.

Lemma key_after_None m t :
  Skel.key_after m t = None ↔ ∀ j, is_Some (m !! j) → j ≤ t.
Proof.
  unfold Skel.key_after.
  pose proof (head_above_spec (Skel.iteritems m) t (iteritems_sorted m)) as H.
  destruct (head _) as [[k' v']|]; simpl in *.
  - destruct H as (Hin & Hlt & Hmin). apply iteritems_elem in Hin. split; [done|].
    intros Hall. assert (k' ≤ t) by (apply Hall; eauto). lia.
  - split; [|done]. intros _ j [w Hj].
    apply (H (j, w)). by apply iteritems_elem.
Qed.
End SkelFacts.

(** ** Location writes and the watermarks *)

(** What [set_location] does to a closet in which the thing has a
    location skeleton. *)
Lemma set_location_Ok dim self loc ob ot c locs :
  thing_location (skeleton c) !! self = Some locs →
  let b := default (branch c) ob in
  let t := default (tick c) ot in
  let rd := {| rd_dimension := dim_name dim; rd_thing := self; rd_branch := b;
               rd_tick_from := t; rd_location := Some loc |} in
  Thing.set_location dim self loc ob ot c =
    Ok tt (set_timestream (λ ts,
             {| hi_branch := Z.max (hi_branch ts) b;
                hi_tick := Z.max (hi_tick ts) t |})
           (set_skeleton (set_thing_location
              (<[self := <[b := <[t := rd]> (default ∅ (locs !! b))]> locs]>)) c)).
Proof.
  intros Hl b t rd. unfold Thing.set_location, Thing.locations,
    Thing.set_locations, TS.upbranch, TS.uptick, Thing.or_branch, Thing.or_tick.
  destruct ob as [b0|], ot as [t0|]; munfold; simpl in *; rewrite Hl; simpl;
    unfold set_timestream, set_skeleton; simpl; do 3 f_equal;
    repeat case_decide; f_equal; lia.
Qed.

Lemma set_location_Raise dim self loc ob ot c :
  thing_location (skeleton c) !! self = None →
  Thing.set_location dim self loc ob ot c = Raise KeyError c.
Proof.
  intros Hl. unfold Thing.set_location, Thing.locations, Thing.or_branch,
    Thing.or_tick.
  destruct ob, ot; munfold; simpl; by rewrite Hl.
Qed.

(** C10: after [set_location(loc, branch, tick)] the watermarks are at
    least [branch] and [tick], and no location write, alone or in a
    series, lowers either of them.  (A thing without a location skeleton
    raises [KeyError] before anything is written.) *)
Theorem set_location_raises_watermarks dim self loc ob ot c :
  let b := default (branch c) ob in
  let t := default (tick c) ot in
  let r := Thing.set_location dim self loc ob ot c in
  hi_branch (timestream c) ≤ hi_branch (timestream (state_of r))
  ∧ hi_tick (timestream c) ≤ hi_tick (timestream (state_of r))
  ∧ match r with
    | Ok _ c' => b ≤ hi_branch (timestream c') ∧ t ≤ hi_tick (timestream c')
    | Raise e c' =>
        e = KeyError ∧ c' = c ∧ thing_location (skeleton c) !! self = None
    end
  ∧ ∀ writes : list (string * string * option Z * option Z),
      let c' := state_of (for_each writes (λ w,
                   Thing.set_location dim w.1.1.1 w.1.1.2 w.1.2 w.2) c) in
      hi_branch (timestream c) ≤ hi_branch (timestream c')
      ∧ hi_tick (timestream c) ≤ hi_tick (timestream c').
Proof.
  intros b t r. subst r.
  assert (∀ writes : list (string * string * option Z * option Z),
      let c' := state_of (for_each writes (λ w,
                   Thing.set_location dim w.1.1.1 w.1.1.2 w.1.2 w.2) c) in
      hi_branch (timestream c) ≤ hi_branch (timestream c')
      ∧ hi_tick (timestream c) ≤ hi_tick (timestream c')) as Hseries.
  { intros writes c'. subst c'.
    pose proof (keeps_frame_for_each writes
        (λ w, Thing.set_location dim w.1.1.1 w.1.1.2 w.1.2 w.2)
        (λ w, keeps_frame_set_location dim _ _ _ _) c) as [].
    split; lia. }
  destruct (thing_location (skeleton c) !! self) as [locs|] eqn:Hl.
  - rewrite (set_location_Ok dim self loc ob ot c locs Hl). simpl.
    fold b t. split; [lia|]. split; [lia|]. split; [lia|done].
  - rewrite (set_location_Raise dim self loc ob ot c Hl). simpl.
    split; [lia|]. split; [lia|]. split; [done|done].
Qed.

(** The two watermark updates of [set_location] are what [uptick_bone]
    does with the row just written. *)
Lemma uptick_bone_location_row b t c :
  Closet.uptick_bone (Some b) (Some t) None c = (TS.upbranch b;; TS.uptick t) c.
Proof.
  unfold Closet.uptick_bone, TS.upbranch, TS.uptick. munfold. simpl.
  unfold set_timestream. simpl.
  repeat case_decide; simpl; repeat case_decide; try lia; try done;
    destruct c as [? ? ? [? ?] ? ?]; simpl in *; done.
Qed.

(** ** Looking a location up *)

Lemma greatest_at_or_before_unfold bm t k :
  greatest_at_or_before bm t k ↔
  is_Some (bm !! k) ∧ k ≤ t ∧ ∀ j, is_Some (bm !! j) → j ≤ t → j ≤ k.
Proof.
  unfold greatest_at_or_before, map_Forall. split.
  - intros (? & ? & H). repeat split; [done..|]. intros j [x Hj]. eauto.
  - intros (? & ? & H). repeat split; [done..|]. intros j x Hj. eauto.
Qed.

Lemma nothing_at_or_before_unfold bm t :
  nothing_at_or_before bm t ↔ ∀ j, is_Some (bm !! j) → t < j.
Proof.
  unfold nothing_at_or_before, map_Forall. split.
  - intros H j [x Hj]. eauto.
  - intros H j x Hj. eauto.
Qed.

(** A tick either has a fact in force or has nothing at or before it. *)
Lemma in_force_or_nothing bm t :
  (∃ k, greatest_at_or_before bm t k) ∨ nothing_at_or_before bm t.
Proof.
  destruct (bm !! t) as [rd|] eqn:Ht.
  { left. exists t. apply greatest_at_or_before_unfold. eauto with lia. }
  destruct (Skel.key_before bm t) as [k|] eqn:Hk.
  - left. exists k. apply key_before_Some in Hk as (? & ? & Hmax).
    apply greatest_at_or_before_unfold. split; [done|]. split; [lia|].
    intros j Hj Hjt. destruct (decide (j = t)) as [->|].
    + rewrite Ht in Hj. by destruct Hj.
    + apply Hmax; [done|lia].
  - right. apply nothing_at_or_before_unfold. intros j Hj.
    pose proof (proj1 (key_before_None bm t) Hk j Hj).
    destruct (decide (j = t)) as [->|]; [|lia].
    rewrite Ht in Hj. by destruct Hj.
Qed.

Section Lookup.
Context (dim : Dimension).

Lemma get_location_rd_in_force self ob ot c locs bm k rd :
  thing_location (skeleton c) !! self = Some locs →
  locs !! default (branch c) ob = Some bm →
  greatest_at_or_before bm (default (tick c) ot) k →
  bm !! k = Some rd →
  Thing.get_location_rd self ob ot c = Ok (Some rd) c.
Proof.
  intros Hl Hb Hk Hrd. apply greatest_at_or_before_unfold in Hk as (Hsome & Hle & Hmax).
  unfold Thing.get_location_rd, Thing.locations, Thing.or_branch, Thing.or_tick.
  assert (∀ b t, b = default (branch c) ob → t = default (tick c) ot →
    (match locs !! b with
     | Some bm =>
         (if decide (is_Some (bm !! t)) then mret t else Thing.key_before bm t)
           ≫= λ t, Thing.getitem bm t ≫= λ rd, mret (Some rd)
     | None => mret None
     end) c = Ok (Some rd) c) as Hbody.
  { intros b t -> ->. rewrite Hb. case_decide as Hin.
    - assert (k = default (tick c) ot) as <- by (specialize (Hmax _ Hin); lia).
      unfold Thing.getitem. munfold. simpl. rewrite Hrd. done.
    - unfold Thing.key_before.
      assert (Skel.key_before bm (default (tick c) ot) = Some k) as ->.
      { apply key_before_Some. split; [done|].
        assert (k ≠ default (tick c) ot) by (intros ->; done).
        split; [lia|]. intros j Hj Hjt. apply Hmax; [done|lia]. }
      unfold Thing.getitem. munfold. simpl. rewrite Hrd. done. }
  destruct ob, ot; munfold; simpl in *; rewrite Hl; by apply Hbody.
Qed.

Lemma get_location_rd_nothing self ob ot c locs bm :
  thing_location (skeleton c) !! self = Some locs →
  locs !! default (branch c) ob = Some bm →
  nothing_at_or_before bm (default (tick c) ot) →
  Thing.get_location_rd self ob ot c = Raise KeyError c.
Proof.
  intros Hl Hb Hn. rewrite nothing_at_or_before_unfold in Hn.
  unfold Thing.get_location_rd, Thing.locations, Thing.or_branch, Thing.or_tick.
  assert (∀ b t, b = default (branch c) ob → t = default (tick c) ot →
    (match locs !! b with
     | Some bm =>
         (if decide (is_Some (bm !! t)) then mret t else Thing.key_before bm t)
           ≫= λ t, Thing.getitem bm t ≫= λ rd, mret (Some rd)
     | None => mret None
     end) c = Raise KeyError c) as Hbody.
  { intros b t -> ->. rewrite Hb. case_decide as Hin.
    - specialize (Hn _ Hin). lia.
    - unfold Thing.key_before.
      assert (Skel.key_before bm (default (tick c) ot) = None) as ->.
      { apply key_before_None. intros j Hj. specialize (Hn j Hj). lia. }
      done. }
  destruct ob, ot; munfold; simpl in *; rewrite Hl; by apply Hbody.
Qed.

(** The lookup never writes, and raises nothing but [KeyError]. *)
Lemma get_location_rd_cases self ob ot c :
  (∃ r, Thing.get_location_rd self ob ot c = Ok r c)
  ∨ Thing.get_location_rd self ob ot c = Raise KeyError c.
Proof.
  unfold Thing.get_location_rd, Thing.locations, Thing.or_branch, Thing.or_tick,
    Thing.key_before, Thing.getitem.
  destruct ob, ot; munfold; simpl;
    (destruct (thing_location (skeleton c) !! self) as [locs|]; [|by right]);
    (destruct (locs !! _) as [bm|]; [|by eauto]);
    (case_decide as Hin;
      [destruct Hin as [rd ->]; by eauto|]);
    (destruct (Skel.key_before bm _) as [k|]; [|by right]);
    destruct (bm !! k); eauto.
Qed.

(** The rest of [get_location], after the row has been fetched. *)
Lemma get_location_of_rd self ob ot c rd :
  Thing.get_location_rd self ob ot c = Ok (Some rd) c →
  Thing.get_location dim self ob ot c =
    Ok (match rd_location rd with
        | None => None
        | Some l =>
            match portex_match l with
            | Some (o, d) => Some (InPortal (get_portal dim o d))
            | None =>
                if decide (is_Some (thingdict c !! l)) then Some (InThing l)
                else Some (AtPlace (get_place dim l))
            end
        end) c.
Proof.
  intros E. unfold Thing.get_location. munfold. rewrite E.
  destruct (rd_location rd) as [l|]; [|done].
  destruct (portex_match l) as [[o d]|]; [done|].
  by case_decide.
Qed.

Lemma get_location_total self ob ot c :
  ∃ r, Thing.get_location dim self ob ot c = Ok r c.
Proof.
  destruct (get_location_rd_cases self ob ot c) as [[[rd|] E]|E].
  - rewrite (get_location_of_rd _ _ _ _ _ E). eauto.
  - unfold Thing.get_location. munfold. rewrite E. eauto.
  - unfold Thing.get_location. munfold. rewrite E. simpl. eauto.
Qed.

Lemma get_location_nothing self ob ot c :
  Thing.get_location_rd self ob ot c = Raise KeyError c →
  Thing.get_location dim self ob ot c = Ok None c.
Proof. intros E. unfold Thing.get_location. munfold. by rewrite E. Qed.

(** A thing with no data in the branch: [get_location_rd] returns
    [None] (lines 115-116), and so does [get_location]. *)
Lemma get_location_no_branch self ob ot c locs :
  thing_location (skeleton c) !! self = Some locs →
  locs !! default (branch c) ob = None →
  Thing.get_location dim self ob ot c = Ok None c.
Proof.
  intros Hl Hb.
  assert (Thing.get_location_rd self ob ot c = Ok None c) as E.
  { unfold Thing.get_location_rd, Thing.locations, Thing.or_branch, Thing.or_tick.
    destruct ob, ot; munfold; simpl in *; rewrite Hl; simpl; by rewrite Hb. }
  unfold Thing.get_location. munfold. by rewrite E.
Qed.

(** A thing that has no location skeleton: the [KeyError] of
    [self.locations] is caught. *)
Lemma get_location_unknown self ob ot c :
  thing_location (skeleton c) !! self = None →
  Thing.get_location dim self ob ot c = Ok None c.
Proof.
  intros Hl. apply get_location_nothing.
  unfold Thing.get_location_rd, Thing.locations, Thing.or_branch, Thing.or_tick.
  destruct ob, ot; munfold; simpl; by rewrite Hl.
Qed.
End Lookup.

(** C5: [get_location(branch, tick)] resolves the fact with the greatest
    [tick_from] at or before [tick] in the branch: a portal when the
    stored name matches [Portal(origin->destination)], the thing of that
    name when the dimension has one, the place of that name otherwise;
    and it returns [None], raising nothing and writing nothing, when the
    fact is a tombstone or no fact lies at or before the tick: the
    branch has facts but none that early, the thing has no data in the
    branch, or the thing has no location data at all. *)
Theorem get_location_resolves dim self ob ot c :
  let b := default (branch c) ob in
  let t := default (tick c) ot in
  let found := Thing.get_location dim self ob ot c in
  (∃ r, found = Ok r c)
  ∧ (∀ locs bm k rd,
       thing_location (skeleton c) !! self = Some locs →
       locs !! b = Some bm →
       greatest_at_or_before bm t k →
       bm !! k = Some rd →
       (∀ l o d, rd_location rd = Some l → portex_match l = Some (o, d) →
          found = Ok (Some (InPortal (get_portal dim o d))) c)
       ∧ (∀ l, rd_location rd = Some l → portex_match l = None →
            is_Some (thingdict c !! l) →
            found = Ok (Some (InThing l)) c)
       ∧ (∀ l, rd_location rd = Some l → portex_match l = None →
            thingdict c !! l = None →
            found = Ok (Some (AtPlace (get_place dim l))) c)
       ∧ (rd_location rd = None → found = Ok None c))
  ∧ (∀ locs bm,
       thing_location (skeleton c) !! self = Some locs →
       locs !! b = Some bm →
       nothing_at_or_before bm t →
       found = Ok None c)
  ∧ (∀ locs,
       thing_location (skeleton c) !! self = Some locs →
       locs !! b = None →
       found = Ok None c)
  ∧ (thing_location (skeleton c) !! self = None → found = Ok None c).
Proof.
  intros b t found. subst b t found. split; [apply get_location_total|]. split.
  - intros locs bm k rd Hl Hb Hk Hrd.
    pose proof (get_location_rd_in_force self ob ot c locs bm k rd Hl Hb Hk Hrd) as E.
    rewrite (get_location_of_rd dim _ _ _ _ _ E).
    repeat split.
    + intros l o d -> ->. done.
    + intros l -> -> Hin. by rewrite decide_True.
    + intros l -> -> Hnot. rewrite decide_False; [done|].
      rewrite Hnot. by intros [? ?].
    + by intros ->.
  - split; [|split].
    + intros locs bm Hl Hb Hn. apply get_location_nothing.
      by eapply get_location_rd_nothing.
    + intros locs Hl Hb. by eapply get_location_no_branch.
    + apply get_location_unknown.
Qed.

(** At tick 50 the thing of the example world is in the portal it
    entered at tick 1. *)
Lemma get_location_resolves_witness :
  Thing.get_location Physical "T" (Some 0) (Some 50) (world trunk_A_to_B 0 0 0 101)
  = Ok (Some (InPortal (portal_of "A" "B"))) (world trunk_A_to_B 0 0 0 101).
Proof.
  pose proof (get_location_resolves Physical "T" (Some 0) (Some 50)
                (world trunk_A_to_B 0 0 0 101)) as (_ & H & _).
  refine (proj1 (H trunk_A_to_B
            {[ 0 := row 0 0 "A"; 1 := row 0 1 "Portal(A->B)"; 101 := row 0 101 "B" ]}
            1 (row 0 1 "Portal(A->B)") _ _ _ _) "Portal(A->B)"%string "A"%string "B"%string _ _).
  - vm_compute. reflexivity.
  - vm_compute. reflexivity.
  - apply (bool_decide_unpack (greatest_at_or_before _ _ _)). vm_compute. exact I.
  - vm_compute. reflexivity.
  - reflexivity.
  - vm_compute. reflexivity.
Defined.

(** ** Portal names are read back by [portex] *)

Lemma list_ascii_of_string_app s1 s2 :
  list_ascii_of_string (s1 +:+ s2)
  = list_ascii_of_string s1 ++ list_ascii_of_string s2.
Proof. induction s1 as [|a s1 IH]; simpl; [done|]. by rewrite IH. Qed.

Lemma strip_prefix_app p l : strip_prefix p (p ++ l) = Some l.
Proof.
  induction p as [|a p IH]; simpl; [done|]. by rewrite Ascii.eqb_refl.
Qed.

Lemma dot_plus_cons {A} (k : list ascii → option A) a l :
  dot_plus k (a :: l) =
    if is_newline a then None
    else match dot_plus k l with
         | Some (g, r) => Some (a :: g, r)
         | None => match k l with
                   | Some r => Some ([a], r)
                   | None => None
                   end
         end.
Proof. reflexivity. Qed.

(** The second group takes everything up to the closing parenthesis. *)
Lemma dot_plus_second_group d :
  d ≠ [] → Forall (λ a, is_newline a = false) d →
  dot_plus (strip_prefix (list_ascii_of_string ")")) (d ++ list_ascii_of_string ")")
  = Some (d, []).
Proof.
  induction d as [|a d IH]; intros Hne Hnl; [done|].
  apply Forall_cons in Hnl as [Ha Hnl]. cbn [app]. rewrite dot_plus_cons, Ha.
  destruct d as [|a' d'].
  - vm_compute. reflexivity.
  - rewrite IH by done. done.
Qed.

Lemma portex_tail_needs_hyphen a l :
  a ≠ "-"%char → portex_tail (a :: l) = None.
Proof.
  intros Ha. unfold portex_tail.
  change (list_ascii_of_string "->") with ["-"%char; ">"%char].
  cbn [strip_prefix].
  destruct (Ascii.eqb_spec "-" a) as [<-|_]; done.
Qed.

(** Behind the arrow of a portal name no further arrow is found when
    the destination has no hyphen. *)
Lemma dot_plus_no_arrow l :
  Forall (λ a, a ≠ "-"%char) l → dot_plus portex_tail l = None.
Proof.
  induction l as [|a l IH]; intros Hl; [done|].
  apply Forall_cons in Hl as [Ha Hl]. rewrite dot_plus_cons.
  destruct (is_newline a); [done|]. rewrite IH by done.
  destruct l as [|a' l']; [done|].
  apply Forall_cons in Hl as [Ha' _].
  by rewrite portex_tail_needs_hyphen.
Qed.

Lemma dot_plus_first_group o d :
  o ≠ [] → Forall (λ a, is_newline a = false) o →
  d ≠ [] → Forall (λ a, is_newline a = false) d →
  Forall (λ a, a ≠ "-"%char) d →
  dot_plus portex_tail
    (o ++ list_ascii_of_string "->" ++ d ++ list_ascii_of_string ")")
  = Some (o, (d, [])).
Proof.
  intros Hne Hnl Hdne Hdnl Hdh.
  assert (portex_tail (list_ascii_of_string "->" ++ d ++ list_ascii_of_string ")")
          = Some (d, [])) as Htail.
  { unfold portex_tail. rewrite strip_prefix_app. simpl.
    by apply dot_plus_second_group. }
  assert (dot_plus portex_tail
            (list_ascii_of_string "->" ++ d ++ list_ascii_of_string ")") = None)
    as Hsep.
  { change (list_ascii_of_string "->" ++ d ++ list_ascii_of_string ")")
      with ("-"%char :: ">"%char :: d ++ list_ascii_of_string ")").
    rewrite dot_plus_cons. change (is_newline "-") with false. cbn iota.
    rewrite dot_plus_no_arrow.
    - rewrite portex_tail_needs_hyphen; [reflexivity|discriminate].
    - constructor; [discriminate|]. apply Forall_app. split; [done|].
      repeat constructor. discriminate. }
  induction o as [|a o IH]; [done|].
  apply Forall_cons in Hnl as [Ha Hnl].
  cbn [app]. rewrite dot_plus_cons, Ha.
  destruct o as [|a' o'].
  - cbn [app]. rewrite Hsep, Htail. done.
  - rewrite IH by done. done.
Qed.

(** [match(portex, str(portal))] gives back the portal's two ends, for
    plain names and a destination without a hyphen. *)
Lemma portex_match_portal_str po :
  plain_name (origin po) → plain_name (destination po) →
  Forall (λ a, a ≠ "-"%char) (list_ascii_of_string (destination po)) →
  portex_match (portal_str po) = Some (origin po, destination po).
Proof.
  intros [Ho Hol] [Hd Hdl] Hh. unfold portex_match, portal_str.
  rewrite !list_ascii_of_string_app. rewrite strip_prefix_app.
  cbn [mbind option_bind].
  change (λ r1, strip_prefix (list_ascii_of_string "->") r1
                ≫= dot_plus (strip_prefix (list_ascii_of_string ")")))
    with portex_tail.
  rewrite dot_plus_first_group; try done.
  - simpl. by rewrite !string_of_list_ascii_of_string.
  - intros E. apply Ho. by destruct (origin po).
  - intros E. apply Hd. by destruct (destination po).
Qed.

(** ** Following a path *)

(** ** Binary64 division by [basic_speed] *)

Lemma digits2_pos_size p : digits2_pos p = Pos.size p.
Proof. induction p; simpl; congruence. Qed.

Lemma digits2_pos_bounds p :
  2 ^ (Z.pos (digits2_pos p) - 1) ≤ Z.pos p < 2 ^ Z.pos (digits2_pos p).
Proof.
  rewrite digits2_pos_size.
  pose proof (Pos.size_gt p) as Hgt. pose proof (Pos.size_le p) as Hle.
  apply Pos2Z.pos_lt_pos in Hgt. apply Pos2Z.pos_le_pos in Hle.
  rewrite Pos2Z.inj_pow in Hgt, Hle.
  change (Z.pos p~0) with (2 * Z.pos p) in Hle.
  replace (Z.pos (Pos.size p)) with (Z.succ (Z.pos (Pos.size p) - 1)) in Hle at 1 by lia.
  rewrite Z.pow_succ_r in Hle by lia. lia.
Qed.

Lemma Zdigits2_unique m d :
  2 ^ (d - 1) ≤ m < 2 ^ d → 0 < m → Zdigits2 m = d.
Proof.
  intros Hb Hm. destruct m as [|p|p]; try lia. simpl.
  pose proof (digits2_pos_bounds p) as Hp.
  set (d' := Z.pos (digits2_pos p)) in *.
  destruct (Z.lt_trichotomy d' d) as [Hlt|[Heq|Hgt]]; [|done|].
  - assert (2 ^ d' ≤ 2 ^ (d - 1)) by (apply Z.pow_le_mono_r; lia). lia.
  - assert (2 ^ d ≤ 2 ^ (d' - 1)) by (apply Z.pow_le_mono_r; [lia|lia]).
    destruct (decide (0 ≤ d)); [lia|].
    rewrite Z.pow_neg_r in Hb by lia. lia.
Qed.

(** [int] and [ceil] agree on a float that holds an integer. *)
Lemma int_ceil_nonneg_exp q s m e :
  Prim2SF q = S754_finite s m e → 0 ≤ e → py_int q = py_ceil q.
Proof.
  intros Hq He. unfold py_int, py_ceil. rewrite Hq.
  destruct e as [|p|p]; [by destruct s..|lia].
Qed.

Lemma int_ceil_not_finite q :
  (∀ s m e, Prim2SF q ≠ S754_finite s m e) → py_int q = py_ceil q.
Proof.
  intros Hq. unfold py_int, py_ceil.
  destruct (Prim2SF q) as [| | |s m e] eqn:E; try done. by destruct (Hq s m e).
Qed.

Lemma int_ceil_of_value q m e N :
  Prim2SF q = S754_finite false m e →
  (0 ≤ e → Z.pos m * 2 ^ e = N) →
  (e < 0 → Z.pos m = N * 2 ^ (- e)) →
  py_int q = N ∧ py_ceil q = N.
Proof.
  intros Hq Hpos Hneg. unfold py_int, py_ceil. rewrite Hq.
  destruct e as [|p|p].
  - specialize (Hpos ltac:(lia)). rewrite Z.pow_0_r in Hpos. lia.
  - specialize (Hpos ltac:(lia)). lia.
  - specialize (Hneg ltac:(lia)). change (- Z.neg p) with (Z.pos p) in Hneg.
    assert (0 < 2 ^ Z.pos p) by (apply Z.pow_pos_nonneg; lia).
    rewrite Hneg. rewrite <- Z.mul_opp_l. rewrite !Z.div_mul by lia. lia.
Qed.

(** Rounding never lowers the exponent it is given. *)
Lemma shr_exp mrs e n : e ≤ (shr mrs e n).2.
Proof. destruct n; simpl; lia. Qed.

Lemma binary_round_aux_exp s mx ex lx s' m e :
  binary_round_aux prec emax s mx ex lx = S754_finite s' m e → ex ≤ e.
Proof.
  unfold binary_round_aux, shr_fexp.
  pose proof (shr_exp (shr_record_of_loc mx lx) ex
                (fexp prec emax (Zdigits2 mx + ex) - ex)) as H1.
  destruct (shr (shr_record_of_loc mx lx) ex _) as [mrs' e'].
  set (m' := round_nearest_even (shr_m mrs') (loc_of_shr_record mrs')).
  pose proof (shr_exp (shr_record_of_loc m' loc_Exact) e'
                (fexp prec emax (Zdigits2 m' + e') - e')) as H2.
  destruct (shr (shr_record_of_loc m' loc_Exact) e' _) as [mrs'' e''].
  simpl in *. destruct (shr_m mrs''); try discriminate.
  destruct (e'' <=? emax - prec); [|discriminate].
  intros [= _ _ <-]. lia.
Qed.

Lemma Prim2SF_basic_speed :
  Prim2SF basic_speed = S754_finite false speed_mantissa (-56).
Proof. vm_compute. reflexivity. Qed.

(** A float of at least 2^50 divided by [basic_speed] has a positive
    exponent. *)
Lemma div_speed_exp x s1 m1 e1 s m e :
  Prim2SF x = S754_finite s1 m1 e1 → -2 ≤ e1 →
  Prim2SF (x / basic_speed) = S754_finite s m e → 1 ≤ e.
Proof.
  intros Hx He1 Hq.
  pose proof (Prim2SF_valid x) as Hv. rewrite Hx in Hv.
  unfold SpecFloat.valid_binary, bounded, canonical_mantissa in Hv.
  apply andb_true_iff in Hv as [Hc _]. apply Z.eqb_eq in Hc.
  unfold fexp, SpecFloat.emin, prec, emax in Hc.
  assert (Z.pos (digits2_pos m1) = 53) as Hd by lia.
  rewrite FloatAxioms.div_spec, Hx, Prim2SF_basic_speed in Hq.
  unfold SF64div, SFdiv, SFdiv_core_binary in Hq.
  cbv zeta in Hq.
  destruct (Z.div_eucl _ _) as [qq r] in Hq.
  apply binary_round_aux_exp in Hq.
  simpl Zdigits2 in Hq. rewrite Hd in Hq.
  unfold fexp, SpecFloat.emin, prec, emax in Hq. lia.
Qed.

(** ** [float(len(po))] *)

Lemma Prim2SF_float_of_Z n :
  0 ≤ n < 2 ^ 63 →
  Prim2SF (float_of_Z n) = binary_normalize prec emax n 0 false.
Proof.
  intros Hn. unfold float_of_Z. rewrite of_uint63_spec, Uint63.of_Z_spec.
  rewrite Z.mod_small; [done|]. exact Hn.
Qed.

Lemma pos_iter_xO p d : Z.pos (Pos.iter xO p d) = Z.pos p * 2 ^ Z.pos d.
Proof.
  induction d as [|d IH] using Pos.peano_ind.
  - simpl. lia.
  - rewrite Pos.iter_succ, Pos2Z.inj_succ, Z.pow_succ_r by lia.
    change (Z.pos (Pos.iter xO p d)~0) with (2 * Z.pos (Pos.iter xO p d)).
    rewrite IH. lia.
Qed.

(** A mantissa of 53 digits with its exponent in range is a float as
    it stands. *)
Lemma binary_round_aux_exact s m e :
  Zdigits2 (Z.pos m) = 53 → -1074 ≤ e ≤ 971 →
  binary_round_aux prec emax s (Z.pos m) e loc_Exact = S754_finite s m e.
Proof.
  intros Hd He. simpl in Hd.
  assert (fexp prec emax (53 + e) - e = 0) as Hf
    by (unfold fexp, SpecFloat.emin, prec, emax; lia).
  unfold binary_round_aux, shr_fexp. simpl Zdigits2. rewrite Hd, Hf.
  cbn [shr shr_record_of_loc shr_m loc_of_shr_record round_nearest_even].
  simpl Zdigits2. rewrite Hd, Hf.
  cbn [shr shr_record_of_loc shr_m].
  assert ((e <=? emax - prec) = true) as ->; [|done].
  apply Z.leb_le. unfold emax, prec. lia.
Qed.

Lemma float_of_Z_exp n s m e :
  2 ^ 50 ≤ n < 2 ^ 63 →
  Prim2SF (float_of_Z n) = S754_finite s m e → -2 ≤ e.
Proof.
  intros Hn. rewrite Prim2SF_float_of_Z by lia.
  destruct n as [|p|p]; [lia| |lia]. unfold binary_normalize, binary_round.
  pose proof (digits2_pos_bounds p) as Hp.
  set (L := Z.pos (digits2_pos p)) in *.
  assert (51 ≤ L).
  { destruct (decide (51 ≤ L)); [done|].
    assert (2 ^ L ≤ 2 ^ 50) by (apply Z.pow_le_mono_r; lia). lia. }
  assert (∃ mz ez, shl_align p 0 (fexp prec emax (L + 0)) = (mz, ez) ∧ -2 ≤ ez)
    as (mz & ez & -> & Hez).
  { unfold shl_align, fexp, SpecFloat.emin, prec, emax.
    destruct (Z.max (L + 0 - 53) (3 - 1024 - 53) - 0) eqn:E; eexists _, _;
      (split; [reflexivity|]); lia. }
  intros Hq. apply binary_round_aux_exp in Hq. lia.
Qed.

Lemma float_of_Z_small n :
  0 < n < 2 ^ 53 →
  ∃ m d, 0 ≤ d ≤ 52 ∧ Z.pos m = n * 2 ^ d ∧ Zdigits2 (Z.pos m) = 53
    ∧ Prim2SF (float_of_Z n) = S754_finite false m (- d).
Proof.
  intros Hn. rewrite Prim2SF_float_of_Z by lia.
  destruct n as [|p|p]; [lia| |lia]. unfold binary_normalize, binary_round.
  pose proof (digits2_pos_bounds p) as Hp.
  set (L := Z.pos (digits2_pos p)) in *.
  assert (1 ≤ L ≤ 53).
  { split; [lia|]. destruct (decide (L ≤ 53)); [done|].
    assert (2 ^ 53 ≤ 2 ^ (L - 1)) by (apply Z.pow_le_mono_r; lia). lia. }
  assert (fexp prec emax (L + 0) = L - 53) as ->
    by (unfold fexp, SpecFloat.emin, prec, emax; lia).
  unfold shl_align.
  destruct (L - 53 - 0) as [|dd|dd] eqn:E; [|lia|].
  - exists p, 0. split; [lia|]. split; [lia|].
    assert (Zdigits2 (Z.pos p) = 53) as Hd by (change (L = 53); lia).
    split; [done|]. by apply binary_round_aux_exact.
  - assert (Z.pos dd = 53 - L) as Hdd by lia.
    exists (Pos.iter xO p dd), (Z.pos dd).
    assert (Z.pos (Pos.iter xO p dd) = Z.pos p * 2 ^ Z.pos dd) as Hm
      by apply pos_iter_xO.
    assert (Zdigits2 (Z.pos (Pos.iter xO p dd)) = 53) as Hd.
    { apply Zdigits2_unique; [|lia]. rewrite Hm, Hdd.
      assert (0 < 2 ^ (53 - L)) by (apply Z.pow_pos_nonneg; lia).
      assert (2 ^ (53 - 1) = 2 ^ (L - 1) * 2 ^ (53 - L)) as ->
        by (rewrite <- Z.pow_add_r by lia; f_equal; lia).
      assert (2 ^ 53 = 2 ^ L * 2 ^ (53 - L)) as ->
        by (rewrite <- Z.pow_add_r by lia; f_equal; lia).
      split; [apply Z.mul_le_mono_nonneg_r; lia|apply Z.mul_lt_mono_pos_r; lia]. }
    split; [lia|]. split; [done|]. split; [done|].
    replace (L - 53) with (- Z.pos dd) by lia.
    apply binary_round_aux_exact; [done|lia].
Qed.

(** ** The quotient of a small length *)

Lemma div_core_small m1 e1 k :
  Z.pos m1 = 8 * k → 2 ^ 49 ≤ k < 2 ^ 50 → -1000 ≤ e1 ≤ 900 →
  SFdiv_core_binary prec emax (Z.pos m1) e1 (Z.pos speed_mantissa) (-56)
  = (10 * k - 1, e1 + 3,
     loc_Inexact (2 * (Z.pos speed_mantissa - 4 * k) ?= Z.pos speed_mantissa)).
Proof.
  intros Hm Hk He.
  assert (Zdigits2 (Z.pos m1) = 53) as Hd1.
  { apply Zdigits2_unique; [|lia]. rewrite Hm.
    change (2 ^ (53 - 1)) with (8 * 2 ^ 49). change (2 ^ 53) with (8 * 2 ^ 50). lia. }
  unfold SFdiv_core_binary. rewrite Hd1.
  change (Zdigits2 (Z.pos speed_mantissa)) with 53.
  assert (Z.min (fexp prec emax (53 + e1 - (53 + -56))) (e1 - -56) = e1 + 3) as ->
    by (unfold fexp, SpecFloat.emin, prec, emax; lia).
  replace (e1 - -56 - (e1 + 3)) with 53 by lia.
  cbv zeta iota. rewrite Z.shiftl_mul_pow2 by lia.
  assert (Z.div_eucl (Z.pos m1 * 2 ^ 53) (Z.pos speed_mantissa)
          = (10 * k - 1, Z.pos speed_mantissa - 4 * k)) as ->.
  { pose proof (Z_div_mod (Z.pos m1 * 2 ^ 53) (Z.pos speed_mantissa) eq_refl) as H.
    destruct (Z.div_eucl _ _) as [q r]. destruct H as [Heq Hr].
    assert (Z.pos speed_mantissa * q + r
            = Z.pos speed_mantissa * (10 * k - 1) + (Z.pos speed_mantissa - 4 * k))
      as Huniq.
    { rewrite <- Heq, Hm. unfold speed_mantissa. lia. }
    apply Z.div_mod_unique in Huniq as [-> ->]; [done|left; lia|].
    left. unfold speed_mantissa. lia. }
  unfold new_location. change (Z.even (Z.pos speed_mantissa)) with true.
  cbv iota. unfold new_location_even.
  assert ((Z.pos speed_mantissa - 4 * k =? 0) = false) as ->
    by (apply Z.eqb_neq; unfold speed_mantissa; lia).
  reflexivity.
Qed.

Lemma fexp_53 e : -1074 ≤ e → fexp prec emax (53 + e) - e = 0.
Proof. unfold fexp, SpecFloat.emin, prec, emax. lia. Qed.

Lemma fexp_54 e : -1074 ≤ e → fexp prec emax (54 + e) - e = 1.
Proof. unfold fexp, SpecFloat.emin, prec, emax. lia. Qed.

(** Rounding up a quotient of 53 digits that lies above the half. *)
Lemma binary_round_aux_up s m e :
  Zdigits2 m = 53 → Zdigits2 (m + 1) = 53 → 0 < m → -1074 ≤ e ≤ 971 →
  binary_round_aux prec emax s m e (loc_Inexact Gt)
  = S754_finite s (Z.to_pos (m + 1)) e.
Proof.
  intros Hd Hd' Hm He. unfold binary_round_aux, shr_fexp.
  rewrite Hd, fexp_53 by lia.
  cbn [shr shr_record_of_loc shr_m shr_r shr_s loc_of_shr_record round_nearest_even].
  rewrite Hd', fexp_53 by lia.
  cbn [shr shr_record_of_loc shr_m].
  destruct (m + 1) as [|p|p] eqn:E; [lia| |lia].
  assert ((e <=? emax - prec) = true) as ->; [|done].
  apply Z.leb_le. unfold emax, prec. lia.
Qed.

(** Rounding a quotient of 54 digits that lies below the half: the
    last digit goes, and takes the result up. *)
Lemma binary_round_aux_shift s j e :
  Zdigits2 (2 * j + 1) = 54 → Zdigits2 (j + 1) = 53 → 0 < j →
  -1074 ≤ e ≤ 970 →
  binary_round_aux prec emax s (2 * j + 1) e (loc_Inexact Lt)
  = S754_finite s (Z.to_pos (j + 1)) (e + 1).
Proof.
  intros Hd Hd' Hj He. unfold binary_round_aux, shr_fexp.
  rewrite Hd, fexp_54 by lia.
  destruct j as [|p|p]; [lia| |lia].
  change (2 * Z.pos p + 1) with (Z.pos p~1).
  cbn [shr shr_record_of_loc SpecFloat.iter_pos shr_1 shr_m shr_r shr_s orb
       loc_of_shr_record round_nearest_even].
  rewrite Hd', fexp_53 by lia.
  cbn [shr shr_record_of_loc shr_m].
  destruct (Z.pos p + 1) as [|p'|p'] eqn:E; [lia| |lia].
  assert ((e + 1 <=? emax - prec) = true) as ->; [|done].
  apply Z.leb_le. unfold emax, prec. lia.
Qed.

Lemma div_speed_small x m1 e1 k :
  Prim2SF x = S754_finite false m1 e1 →
  Z.pos m1 = 8 * k → 2 ^ 49 ≤ k < 2 ^ 50 → -1000 ≤ e1 ≤ 900 →
  ∃ m e, Prim2SF (x / basic_speed) = S754_finite false m e
    ∧ ((Z.pos m = 10 * k ∧ e = e1 + 3) ∨ (Z.pos m = 5 * k ∧ e = e1 + 4)).
Proof.
  intros Hx Hm Hk He.
  rewrite FloatAxioms.div_spec, Hx, Prim2SF_basic_speed.
  unfold SF64div, SFdiv. rewrite (div_core_small m1 e1 k Hm Hk He).
  cbn [xorb].
  destruct (Z.lt_ge_cases (8 * k) (Z.pos speed_mantissa)) as [Hlt|Hge].
  - assert ((2 * (Z.pos speed_mantissa - 4 * k) ?= Z.pos speed_mantissa) = Gt) as ->
      by (apply Z.compare_gt_iff; lia).
    unfold speed_mantissa in Hlt.
    rewrite binary_round_aux_up; [| | |lia|lia].
    + eexists _, _. split; [reflexivity|]. left. split; [|done].
      rewrite Z2Pos.id by lia. lia.
    + apply Zdigits2_unique; [|lia].
      change (2 ^ (53 - 1)) with 4503599627370496.
      change (2 ^ 53) with 9007199254740992.
      change (2 ^ 49) with 562949953421312 in Hk. lia.
    + apply Zdigits2_unique; [|lia].
      change (2 ^ (53 - 1)) with 4503599627370496.
      change (2 ^ 53) with 9007199254740992.
      change (2 ^ 49) with 562949953421312 in Hk. lia.
  - assert ((2 * (Z.pos speed_mantissa - 4 * k) ?= Z.pos speed_mantissa) = Lt) as ->
      by (apply Z.compare_lt_iff; unfold speed_mantissa in *; lia).
    unfold speed_mantissa in Hge.
    replace (10 * k - 1) with (2 * (5 * k - 1) + 1) by lia.
    rewrite binary_round_aux_shift; [| | |lia|lia].
    + eexists _, _. split; [reflexivity|]. right. split; [|lia].
      rewrite Z2Pos.id by lia. lia.
    + apply Zdigits2_unique; [|lia].
      change (2 ^ (54 - 1)) with 9007199254740992.
      change (2 ^ 54) with 18014398509481984.
      change (2 ^ 50) with 1125899906842624 in Hk. lia.
    + apply Zdigits2_unique; [|lia].
      change (2 ^ (53 - 1)) with 4503599627370496.
      change (2 ^ 53) with 9007199254740992.
      change (2 ^ 50) with 1125899906842624 in Hk. lia.
Qed.

(** A length below 2^50 divided by [basic_speed] is ten times the
    length, exactly. *)
Lemma quotient_small n :
  0 < n < 2 ^ 50 →
  py_int (float_of_Z n / basic_speed) = 10 * n
  ∧ py_ceil (float_of_Z n / basic_speed) = 10 * n.
Proof.
  intros Hn.
  destruct (float_of_Z_small n) as (m & d & Hd & Hm & Hdig & Hx).
  { change (2 ^ 50) with 1125899906842624 in Hn.
    change (2 ^ 53) with 9007199254740992. lia. }
  pose proof (digits2_pos_bounds m) as Hb. simpl in Hdig. rewrite Hdig in Hb.
  change (2 ^ (53 - 1)) with 4503599627370496 in Hb.
  change (2 ^ 53) with 9007199254740992 in Hb.
  change (2 ^ 50) with 1125899906842624 in Hn.
  assert (3 ≤ d) as Hd3.
  { destruct (decide (3 ≤ d)); [done|].
    assert (2 ^ d ≤ 2 ^ 2) by (apply Z.pow_le_mono_r; lia).
    change (2 ^ 2) with 4 in *. nia. }
  set (P := 2 ^ (d - 3)).
  assert (0 < P) as HP by (apply Z.pow_pos_nonneg; lia).
  assert (2 ^ d = 8 * P) as HdP.
  { subst P. replace d with (3 + (d - 3)) at 1 by lia.
    rewrite Z.pow_add_r by lia. done. }
  set (k := n * P).
  assert (Z.pos m = 8 * k) as Hmk by (subst k; rewrite Hm, HdP; lia).
  destruct (div_speed_small _ m (- d) k Hx Hmk) as (m' & e & Hq & Hcase).
  { change (2 ^ 49) with 562949953421312.
    change (2 ^ 50) with 1125899906842624. lia. }
  { lia. }
  apply (int_ceil_of_value _ m' e); [done|..].
  - intros He. destruct Hcase as [[Hm' ->]|[Hm' ->]].
    + assert (d = 3) as -> by lia. subst P k. simpl in *. lia.
    + assert (d = 3 ∨ d = 4) as [->| ->] by lia; subst P k; simpl in *; lia.
  - intros He. destruct Hcase as [[Hm' ->]|[Hm' ->]].
    + replace (- (- d + 3)) with (d - 3) by lia. fold P. lia.
    + replace (- (- d + 4)) with (d - 4) by lia.
      assert (P = 2 * 2 ^ (d - 4)) as HP4.
      { subst P. replace (d - 3) with (Z.succ (d - 4)) by lia.
        rewrite Z.pow_succ_r by lia. done. }
      subst k. rewrite Hm', HP4. lia.
Qed.

(** For every length that [len] can return, the quotient by
    [basic_speed] holds an integer: truncating it and taking its
    ceiling give the same number. *)
Lemma quotient_integer n :
  0 ≤ n < 2 ^ 63 →
  py_int (float_of_Z n / basic_speed) = py_ceil (float_of_Z n / basic_speed).
Proof.
  intros Hn.
  destruct (decide (n = 0)) as [->|Hn0]; [vm_compute; reflexivity|].
  destruct (decide (n < 2 ^ 50)) as [Hsmall|Hbig].
  { destruct (quotient_small n) as [-> ->]; [lia|done]. }
  destruct (Prim2SF (float_of_Z n / basic_speed)) as [| | |s m e] eqn:Hq;
    try (apply int_ceil_not_finite; intros ? ? ?; rewrite Hq; discriminate).
  destruct (Prim2SF (float_of_Z n)) as [| | |s1 m1 e1] eqn:Hx.
  1-3: rewrite FloatAxioms.div_spec, Hx, Prim2SF_basic_speed in Hq; discriminate.
  apply (int_ceil_nonneg_exp _ s m e); [done|].
  assert (-2 ≤ e1) by (apply (float_of_Z_exp n s1 m1 e1); [lia|done]).
  pose proof (div_speed_exp _ s1 m1 e1 s m e Hx ltac:(lia) Hq). lia.
Qed.

(** The ticks the code computes by truncation are the ceiling the
    specification names, for every length. *)
Lemma get_ticks_thru_ceil po :
  len_range po → Thing.get_ticks_thru po = ticks_to_cross po.
Proof. intros H. by apply quotient_integer. Qed.

(** Ten ticks per unit of length, at lengths below 2^50. *)
Lemma ticks_to_cross_ten po :
  0 ≤ portal_len po < 2 ^ 50 → ticks_to_cross po = 10 * portal_len po.
Proof.
  intros H. unfold ticks_to_cross.
  destruct (decide (portal_len po = 0)) as [->|Hne]; [vm_compute; reflexivity|].
  destruct (quotient_small (portal_len po)) as [_ ->]; [lia|done].
Qed.

Lemma scheduled_facts_ext (f g : Portal → Z) path : ∀ s,
  Forall (λ po, f po = g po) path →
  scheduled_facts f path s = scheduled_facts g path s.
Proof.
  induction path as [|po path IH]; intros s Hfg; [done|].
  apply Forall_cons in Hfg as [Hpo Hfg]. simpl. rewrite Hpo. by rewrite IH.
Qed.

Section FollowPath.
Context (dim : Dimension).

Lemma follow_steps_schedule self b path : ∀ s c locs,
  thing_location (skeleton c) !! self = Some locs →
  ∃ c', Thing.follow_steps dim self path b s c = Ok tt c'
    ∧ thing_location (skeleton c') =
        match path with
        | [] => thing_location (skeleton c)
        | _ => <[self := <[b := write_facts dim self b
                                   (scheduled_facts Thing.get_ticks_thru path s)
                                   (default ∅ (locs !! b))]> locs]>
                 (thing_location (skeleton c))
        end.
Proof.
  induction path as [|po path IH]; intros s c locs Hl.
  { exists c. done. }
  cbn [Thing.follow_steps].
  set (bm0 := default ∅ (locs !! b)).
  set (rd1 := {| rd_dimension := dim_name dim; rd_thing := self; rd_branch := b;
                 rd_tick_from := s; rd_location := Some (portal_str po) |}).
  set (s2 := s + Thing.get_ticks_thru po).
  set (rd2 := {| rd_dimension := dim_name dim; rd_thing := self; rd_branch := b;
                 rd_tick_from := s2; rd_location := Some (destination po) |}).
  pose proof (set_location_Ok dim self (portal_str po) (Some b) (Some s) c locs Hl)
    as E1. simpl in E1. fold bm0 rd1 in E1.
  erewrite bind_Ok; [|exact E1]. clear E1.
  set (c1 := set_timestream _ (set_skeleton _ c)).
  assert (thing_location (skeleton c1) !! self = Some (<[b := <[s := rd1]> bm0]> locs))
    as Hl1 by (subst c1; simpl; apply lookup_insert_eq).
  pose proof (set_location_Ok dim self (destination po) (Some b) (Some s2) c1 _ Hl1)
    as E2. simpl in E2. fold rd2 in E2.
  rewrite lookup_insert_eq, insert_insert_eq in E2. simpl in E2.
  erewrite bind_Ok; [|exact E2]. clear E2.
  set (bm2 := <[s2 := rd2]> (<[s := rd1]> bm0)).
  set (c2 := set_timestream _ (set_skeleton _ c1)).
  assert (thing_location (skeleton c2) !! self = Some (<[b := bm2]> locs))
    as Hl2 by (subst c2; simpl; apply lookup_insert_eq).
  destruct (IH (s2 + 1) c2 (<[b := bm2]> locs) Hl2) as (c' & Hrun & Htl).
  exists c'. split; [done|]. rewrite Htl.
  assert (thing_location (skeleton c2)
          = <[self := <[b := bm2]> locs]> (thing_location (skeleton c))) as ->
    by (subst c2 c1; simpl; apply insert_insert_eq).
  rewrite lookup_insert_eq. simpl. fold s2.
  destruct path as [|po' path']; [done|].
  by rewrite !insert_insert_eq.
Qed.

(** The guard of [follow_path] lets the journey through when the branch
    has no fact after the starting tick (or does not exist yet). *)
Lemma follow_path_guard_passes self b t c locs :
  thing_location (skeleton c) !! self = Some locs →
  (∀ bm, locs !! b = Some bm → map_Forall (λ j _, j ≤ t) bm) →
  try_except
    (locs ← Thing.locations self;
     bm ← Thing.getitem locs b;
     _ ← Thing.key_after bm t;
     raise TimeParadox)
    KeyError (mret tt) c = Ok tt c.
Proof.
  intros Hl Hnone. unfold Thing.locations, Thing.getitem, Thing.key_after.
  munfold. rewrite Hl. destruct (locs !! b) as [bm|] eqn:Hb; [|done].
  assert (Skel.key_after bm t = None) as ->; [|done].
  apply key_after_None. intros j [x Hj]. by apply (Hnone bm eq_refl j x).
Qed.

(** The guard raises [TimeParadox], with nothing written, when the
    branch has a fact after the starting tick. *)
Lemma follow_path_paradox self path b t c locs bm k :
  thing_location (skeleton c) !! self = Some locs →
  locs !! b = Some bm →
  is_Some (bm !! k) → t < k →
  Thing.follow_path dim self path b t c = Raise TimeParadox c.
Proof.
  intros Hl Hb Hk Htk. unfold Thing.follow_path, Thing.locations,
    Thing.getitem, Thing.key_after.
  munfold. rewrite Hl, Hb.
  destruct (Skel.key_after bm t) as [k'|] eqn:Hka; [done|].
  pose proof (proj1 (key_after_None bm t) Hka k Hk). lia.
Qed.
End FollowPath.

(** C3: from scheduling tick [t], [follow_path] writes for each portal
    in turn a fact in the portal at the current scheduling tick and a
    fact at the portal's destination [ticks_to_cross(portal)] ticks
    later, [ticks_to_cross] being the [ceil(length / speed)] of the
    specification: the [int(length / speed)] that [get_ticks_thru]
    computes on binary64 floats is that ceiling for every length that
    [len] can return, and ten ticks per unit of length below 2^50; and
    a thing at A at tick 0, sent to B through one portal of length 10
    at speed 0.1, ends with the facts (A, 0), (Portal(A->B), 1),
    (B, 101). *)
Theorem follow_path_writes_schedule :
  (∀ dim self path b t c locs,
     thing_location (skeleton c) !! self = Some locs →
     (∀ bm, locs !! b = Some bm → map_Forall (λ j _, j ≤ t) bm) →
     Forall len_range path →
     ∃ c', Thing.follow_path dim self path b t c = Ok tt c'
       ∧ thing_location (skeleton c') =
           match path with
           | [] => thing_location (skeleton c)
           | _ => <[self := <[b := write_facts dim self b
                                      (scheduled_facts ticks_to_cross path (t + 1))
                                      (default ∅ (locs !! b))]> locs]>
                    (thing_location (skeleton c))
           end)
  ∧ (∀ po, len_range po → Thing.get_ticks_thru po = ticks_to_cross po)
  ∧ (∀ po, 0 ≤ portal_len po < 2 ^ 50 → ticks_to_cross po = 10 * portal_len po)
  ∧ (∃ c', Travel.journey_to Physical "T" place_B None None
             (world {[ 0 := {[ 0 := row 0 0 "A" ]} ]} 0 0 0 0) = Ok tt c'
       ∧ thing_location (skeleton c') !! "T"
         = Some {[ 0 := {[ 0 := row 0 0 "A";
                           1 := row 0 1 "Portal(A->B)";
                           101 := row 0 101 "B" ]} ]}).
Proof.
  split; [|split; [|split]].
  - intros dim self path b t c locs Hl Hnone Hlen.
    rewrite <- (scheduled_facts_ext Thing.get_ticks_thru ticks_to_cross path (t + 1)).
    + unfold Thing.follow_path.
      erewrite bind_Ok; [|by eapply follow_path_guard_passes].
      by apply follow_steps_schedule.
    + eapply Forall_impl; [exact Hlen|]. intros po. apply get_ticks_thru_ceil.
  - apply get_ticks_thru_ceil.
  - apply ticks_to_cross_ten.
  - eexists. split; vm_compute; reflexivity.
Qed.

(** The general statement at the scenario's path: one portal A->B
    followed from tick 0 on a trunk that holds only (A, 0), the portal
    taking the hundred ticks that the ceiling gives. *)
Lemma follow_path_writes_schedule_witness :
  (∃ c', Thing.follow_path Physical "T" [portal_of "A" "B"] 0 0
          (world {[ 0 := {[ 0 := row 0 0 "A" ]} ]} 0 0 0 0) = Ok tt c'
    ∧ thing_location (skeleton c') !! "T"
      = Some {[ 0 := {[ 0 := row 0 0 "A";
                        1 := row 0 1 "Portal(A->B)";
                        101 := row 0 101 "B" ]} ]})
  ∧ Thing.get_ticks_thru (portal_of "A" "B") = ticks_to_cross (portal_of "A" "B")
  ∧ ticks_to_cross (portal_of "A" "B") = 100.
Proof.
  split; [|split].
  - destruct (proj1 follow_path_writes_schedule Physical "T" [portal_of "A" "B"] 0 0
                (world {[ 0 := {[ 0 := row 0 0 "A" ]} ]} 0 0 0 0)
                {[ 0 := {[ 0 := row 0 0 "A" ]} ]}) as (c' & Hrun & Htl).
    + vm_compute. reflexivity.
    + intros bm Hbm.
      assert (bm = {[ 0 := row 0 0 "A" ]}) as ->
        by (apply (inj Some); rewrite <- Hbm; vm_compute; reflexivity).
      apply (bool_decide_unpack (map_Forall _ _)). vm_compute. exact I.
    + apply (bool_decide_unpack (Forall _ _)). vm_compute. exact I.
    + exists c'. split; [exact Hrun|]. rewrite Htl. vm_compute. reflexivity.
  - apply (proj1 (proj2 follow_path_writes_schedule) (portal_of "A" "B")).
    apply (bool_decide_unpack (len_range _)). vm_compute. exact I.
  - apply (proj1 (proj2 (proj2 follow_path_writes_schedule)) (portal_of "A" "B")).
    vm_compute. split; [discriminate|reflexivity].
Defined.

(** ** Time travel *)

(** [min_list] is the least element. *)
Lemma min_list_Some l m :
  TS.min_list l = Some m ↔ m ∈ l ∧ ∀ x, x ∈ l → m ≤ x.
Proof.
  revert m. induction l as [|k l IH]; intros m; simpl.
  { split; [discriminate|]. intros [H _]. by apply elem_of_nil in H. }
  destruct (TS.min_list l) as [j|] eqn:Hj.
  - specialize (IH j). destruct (proj1 IH eq_refl) as [Hjl Hjmin]. split.
    + intros [= <-]. split.
      * destruct (Z.min_spec k j) as [[_ ->]|[_ ->]]; [left|by right].
      * intros x Hx. apply elem_of_cons in Hx as [->|Hx]; [lia|].
        specialize (Hjmin x Hx). lia.
    + intros [Hm Hmin]. f_equal.
      assert (m ≤ k) by (apply Hmin; left).
      assert (m ≤ j) by (apply Hmin; by right).
      apply elem_of_cons in Hm as [->|Hm]; [lia|].
      specialize (Hjmin m Hm). lia.
  - assert (l = []) as ->.
    { destruct l as [|x l]; [done|]. simpl in Hj.
      destruct (TS.min_list l); discriminate. }
    split.
    + intros [= <-]. split; [left|]. intros x Hx.
      apply elem_of_cons in Hx as [->|Hx]; [lia|by apply elem_of_nil in Hx].
    + intros [Hm _]. apply elem_of_cons in Hm as [->|Hm]; [done|].
      by apply elem_of_nil in Hm.
Qed.

Lemma min_list_None l : TS.min_list l = None ↔ l = [].
Proof.
  destruct l as [|k l]; simpl; [done|].
  destruct (TS.min_list l); split; discriminate.
Qed.

(** The ticks of a branch are the ticks at which some thing has a fact
    in it. *)
Lemma elem_of_branch_ticks tl b k :
  k ∈ TS.branch_ticks tl b ↔
  ∃ name locs bm, tl !! name = Some locs ∧ locs !! b = Some bm ∧ is_Some (bm !! k).
Proof.
  unfold TS.branch_ticks. rewrite list_elem_of_join. split.
  - intros (l & Hk & Hl). apply list_elem_of_fmap in Hl as ([name locs] & -> & Hin).
    apply elem_of_map_to_list in Hin. simpl in Hk.
    destruct (locs !! b) as [bm|] eqn:Hb; [|by apply elem_of_nil in Hk].
    apply list_elem_of_fmap in Hk as ([k' rd] & -> & Hrd).
    apply elem_of_map_to_list in Hrd. exists name, locs, bm. eauto.
  - intros (name & locs & bm & Hn & Hb & [rd Hrd]).
    exists ((map_to_list bm).*1). split.
    + apply list_elem_of_fmap. exists (k, rd). split; [done|].
      by apply elem_of_map_to_list.
    + apply list_elem_of_fmap. exists (name, locs). simpl. rewrite Hb.
      split; [done|]. by apply elem_of_map_to_list.
Qed.

Section TimeTravel.
Context (dim : Dimension).

(** What remains of [time_travel] once the branch exists. *)
Lemma move_cursor_Ok b t c :
  let t' := clamp_tick t (TS.min_list (TS.branch_ticks (thing_location (skeleton c)) b)) in
  ∃ c', Closet.move_cursor b t c = Ok tt c'
    ∧ branch c' = b
    ∧ tick c' = t'
    ∧ time_travel_history c' = time_travel_history c ++ [(branch c, tick c)]
    ∧ hi_tick (timestream c') = Z.max (hi_tick (timestream c)) t'
    ∧ hi_branch (timestream c') = hi_branch (timestream c)
    ∧ thing_location (skeleton c') = thing_location (skeleton c)
    ∧ timestream_tab (skeleton c') = timestream_tab (skeleton c)
    ∧ updating c' = (if decide (t < 0) then false else updating c).
Proof.
  intros t'. subst t'. unfold Closet.move_cursor, TS.min_tick, Closet.upd_branch,
    Closet.upd_tick, clamp_tick.
  munfold. simpl.
  destruct (decide (t < 0)) as [Hneg|Hneg]; simpl;
    destruct (TS.min_list _) as [m|]; simpl;
    repeat (case_decide; simpl);
    eexists; (split; [reflexivity|]); unfold branch, tick; simpl;
    repeat split; try done; try lia; try (f_equal; lia).
Qed.

(** Creating a branch leaves the cursor and the history where they are,
    and registers the branch under its parent when it returns. *)
Lemma closet_new_branch_registers parent b t c :
  match Closet.new_branch dim parent b t c with
  | Ok _ c1 =>
      branch c1 = branch c ∧ tick c1 = tick c
      ∧ time_travel_history c1 = time_travel_history c
      ∧ hi_tick (timestream c) ≤ hi_tick (timestream c1)
      ∧ timestream_tab (skeleton c1) !! b
        = Some {| tb_branch := b; tb_parent := parent |}
  | Raise _ c1 =>
      branch c1 = branch c ∧ tick c1 = tick c
      ∧ time_travel_history c1 = time_travel_history c
  end.
Proof.
  pose proof (keeps_frame_closet_new_branch dim parent b t c) as Hf.
  pose proof (keeps_frame_dimension_new_branch dim parent b t c) as Hd.
  unfold Closet.new_branch in *. munfold.
  destruct (Closet.dimension_new_branch dim parent b t c) as [[] c1|e c1];
    simpl in *; destruct Hf, Hd; unfold branch, tick; simpl in *.
  - repeat split; try congruence. apply lookup_insert_eq.
  - repeat split; congruence.
Qed.

(** C4: [time_travel(branch, tick)] to a branch beyond [hi_branch + 1]
    fails with [TimestreamException] and leaves the closet, cursor
    included, as it was; to branch [hi_branch + 1] it first runs
    [new_branch(current_branch, branch, tick)], which leaves the cursor
    in place, and only then moves the cursor. *)
Theorem time_travel_branch_checks b t c :
  (hi_branch (timestream c) + 1 < b →
     Closet.time_travel dim b t c = Raise TimestreamException c)
  ∧ (b = hi_branch (timestream c) + 1 →
     match Closet.new_branch dim (branch c) b t c with
     | Ok _ c1 =>
         branch c1 = branch c ∧ tick c1 = tick c
         ∧ timestream_tab (skeleton c1) !! b
           = Some {| tb_branch := b; tb_parent := branch c |}
         ∧ Closet.time_travel dim b t c = Closet.move_cursor b t c1
     | Raise e c1 =>
         branch c1 = branch c ∧ tick c1 = tick c
         ∧ Closet.time_travel dim b t c = Raise e c1
     end).
Proof.
  split.
  - intros Hhi. unfold Closet.time_travel. munfold. by rewrite decide_True.
  - intros ->.
    pose proof (closet_new_branch_registers (branch c)
                  (hi_branch (timestream c) + 1) t c) as Hnb.
    unfold Closet.time_travel. munfold.
    rewrite decide_False by lia. rewrite decide_True by done.
    destruct (Closet.new_branch dim (branch c) _ t c) as [[] c1|e c1].
    + destruct Hnb as (? & ? & ? & ? & ?). done.
    + destruct Hnb as (? & ? & ?). done.
Qed.

(** C7: after a successful [time_travel(branch, tick)] the cursor is on
    the branch at the requested tick clamped to at least 0 and at least
    the minimum tick with data for the branch; [hi_tick] is the greater
    of its value before the move and the final tick (before the move it
    is what it was at the call, or higher if a branch was created); and
    the cursor of the call is the last entry of the history. *)
Theorem time_travel_moves_cursor b t c c' :
  Closet.time_travel dim b t c = Ok tt c' →
  branch c' = b
  ∧ tick c' = clamp_tick t (TS.min_list (TS.branch_ticks (thing_location (skeleton c')) b))
  ∧ 0 ≤ tick c'
  ∧ (∀ m, m ∈ TS.branch_ticks (thing_location (skeleton c')) b →
       (∀ x, x ∈ TS.branch_ticks (thing_location (skeleton c')) b → m ≤ x) →
       m ≤ tick c')
  ∧ time_travel_history c' = time_travel_history c ++ [(branch c, tick c)]
  ∧ (∃ h, hi_tick (timestream c) ≤ h
        ∧ (b ≤ hi_branch (timestream c) → h = hi_tick (timestream c))
        ∧ hi_tick (timestream c') = Z.max h (tick c')).
Proof.
  intros Hrun.
  assert (∃ c1, Closet.move_cursor b t c1 = Ok tt c'
            ∧ branch c1 = branch c ∧ tick c1 = tick c
            ∧ time_travel_history c1 = time_travel_history c
            ∧ hi_tick (timestream c) ≤ hi_tick (timestream c1)
            ∧ (b ≤ hi_branch (timestream c) → c1 = c)) as (c1 & Hmove & Hb & Ht & Hh & Hhi & Hsame).
  { unfold Closet.time_travel in Hrun. munfold.
    case_decide as Hskip; [discriminate|].
    case_decide as Hnew.
    - pose proof (closet_new_branch_registers (branch c) b t c) as Hnb.
      destruct (Closet.new_branch dim (branch c) b t c) as [[] c1|e c1];
        [|discriminate].
      destruct Hnb as (? & ? & ? & ? & ?).
      exists c1. repeat split; first [done | lia | intros; lia].
    - exists c. repeat split; first [done | lia | intros; lia]. }
  destruct (move_cursor_Ok b t c1) as (c'' & Hmove' & Hb' & Ht' & Hh' & Hhi' & _ & Htl & _).
  rewrite Hmove in Hmove'. injection Hmove' as <-.
  rewrite <- Htl in Ht', Hhi'.
  split; [done|]. split; [done|]. split.
  { rewrite Ht'. unfold clamp_tick. destruct (TS.min_list _); lia. }
  split.
  { intros m Hm Hmin. rewrite Ht'.
    assert (TS.min_list (TS.branch_ticks (thing_location (skeleton c')) b) = Some m) as ->
      by (by apply min_list_Some).
    unfold clamp_tick. lia. }
  split; [by rewrite Hh', Hh, Hb, Ht|].
  exists (hi_tick (timestream c1)). split; [done|]. split.
  - intros Hle. by rewrite (Hsame Hle).
  - rewrite Hhi', Ht'. done.
Qed.

(** To a branch already known, [time_travel] always succeeds. *)
Lemma time_travel_returns b t c :
  b ≤ hi_branch (timestream c) →
  ∃ c', Closet.time_travel dim b t c = Ok tt c'.
Proof.
  intros Hle. unfold Closet.time_travel. munfold.
  rewrite decide_False by lia. rewrite decide_False by lia.
  destruct (move_cursor_Ok b t c) as (c' & E & _). eauto.
Qed.
End TimeTravel.

(** Branch 2 cannot be reached while branch 0 is the highest; branch 1
    is created under the trunk before the cursor moves there. *)
Lemma time_travel_branch_checks_witness :
  Closet.time_travel Physical 2 5 late_start = Raise TimestreamException late_start
  ∧ ∃ c1, Closet.new_branch Physical 0 1 5 late_start = Ok tt c1
      ∧ branch c1 = 0 ∧ tick c1 = 3
      ∧ Closet.time_travel Physical 1 5 late_start = Closet.move_cursor 1 5 c1.
Proof.
  split.
  - apply (proj1 (time_travel_branch_checks Physical 2 5 late_start)).
    vm_compute. reflexivity.
  - pose proof (proj2 (time_travel_branch_checks Physical 1 5 late_start)
                  ltac:(vm_compute; reflexivity)) as H.
    change (Closet.new_branch Physical 0 1 5 late_start)
      with (Closet.new_branch Physical (branch late_start) 1 5 late_start).
    destruct (Closet.new_branch Physical (branch late_start) 1 5 late_start)
      as [[] c1|e c1] eqn:E; [|vm_compute in E; discriminate].
    destruct H as (Hb & Ht & _ & Htt). exists c1.
    split; [reflexivity|]. split; [rewrite Hb; reflexivity|].
    split; [rewrite Ht; reflexivity|exact Htt].
Defined.

(** Travelling to tick -4 of the trunk, whose data starts at tick 3,
    lands on tick 3 and records the cursor left behind. *)
Lemma time_travel_moves_cursor_witness :
  ∃ c', Closet.time_travel Physical 0 (-4) late_start = Ok tt c'
    ∧ branch c' = 0 ∧ tick c' = 3
    ∧ time_travel_history c' = [(0, 3)].
Proof.
  destruct (Closet.time_travel Physical 0 (-4) late_start) as [[] c'|e c'] eqn:E;
    [|vm_compute in E; discriminate].
  exists c'. split; [reflexivity|].
  destruct (time_travel_moves_cursor Physical 0 (-4) late_start c' E)
    as (Hb & Ht & _ & _ & Hh & _).
  split; [exact Hb|]. split; [|exact Hh].
  rewrite Ht. vm_compute in E. injection E as <-. vm_compute. reflexivity.
Defined.

(** ** Checkpoints and the difference to the baseline *)

Lemma sub_diag sk : Diff.sub sk sk = [].
Proof.
  unfold Diff.sub. apply elem_of_nil_inv. intros f Hf.
  apply list_elem_of_filter in Hf as [Hnot Hin]. done.
Qed.

Lemma get_location_pure dim self ob ot c :
  state_of (Thing.get_location dim self ob ot c) = c.
Proof. destruct (get_location_total dim self ob ot c) as [r ->]. done. Qed.

(** C9: right after [checkpoint()] the store differs from the baseline
    in neither direction; a second [checkpoint()] changes nothing and
    finds the same empty difference, and so does any lookup in between,
    which is no write. *)
Theorem checkpoint_idempotent c :
  match Closet.checkpoint c with
  | Ok _ c1 =>
      skeleton c1 = skeleton c
      ∧ Diff.to_save c1 = [] ∧ Diff.to_delete c1 = []
      ∧ match Closet.checkpoint c1 with
        | Ok _ c2 => c2 = c1 ∧ Diff.to_save c2 = [] ∧ Diff.to_delete c2 = []
        | Raise _ _ => False
        end
      ∧ ∀ dim self ob ot,
          let c2 := state_of (Thing.get_location dim self ob ot c1) in
          Diff.to_save c2 = [] ∧ Diff.to_delete c2 = []
  | Raise _ _ => False
  end.
Proof.
  unfold Closet.checkpoint, modify, Diff.to_save, Diff.to_delete,
    Closet.skeleton_copy. simpl.
  split; [done|]. split; [apply sub_diag|]. split; [apply sub_diag|].
  split.
  - split; [done|]. split; apply sub_diag.
  - intros dim self ob ot. rewrite get_location_pure. simpl.
    split; apply sub_diag.
Qed.

(** The difference is not blind: a location written after the
    checkpoint is the one fact to save, and nothing is to delete. *)
Lemma diff_sees_a_write :
  ∃ c1 c2, Closet.checkpoint late_start = Ok tt c1
    ∧ Thing.set_location Physical "T" "B" (Some 0) (Some 7) c1 = Ok tt c2
    ∧ Diff.to_save c2 = [Diff.LocFact "T" 0 7 (row 0 7 "B")]
    ∧ Diff.to_delete c2 = [].
Proof. do 2 eexists. repeat split; vm_compute; reflexivity. Qed.

(** ** A journey with no path *)


Section NoPath.
Context (dim : Dimension).


End NoPath.




(** ** Where and when a journey starts *)

Section JourneyStart.
Context (dim : Dimension).

(** From a place the journey starts there, at the tick given. *)
Lemma journey_start_at_place self oloc b otick c :
  portex_match oloc = None →
  Travel.journey_start self oloc b otick c = Ok (oloc, otick) c.
Proof. intros E. unfold Travel.journey_start. by rewrite E. Qed.

(** From inside a portal the journey starts at the tick of the next
    fact of the branch, and the place handed to the path search is the
    first group of the name, the portal's origin. *)
Lemma journey_start_in_portal self oloc o d b otick c locs bm k :
  portex_match oloc = Some (o, d) →
  thing_location (skeleton c) !! self = Some locs →
  locs !! b = Some bm →
  Skel.key_after bm otick = Some k →
  Travel.journey_start self oloc b otick c = Ok (o, k) c.
Proof.
  intros E Hl Hb Hk. unfold Travel.journey_start, Thing.locations,
    Thing.getitem, Thing.key_after.
  rewrite E. munfold. by rewrite Hl, Hb, Hk.
Qed.
End JourneyStart.

(** C6, on the code: from a place the journey starts there at the tick
    given, and from inside a portal it is scheduled from the tick of the
    next fact of the branch, as specified; but the place its path is
    searched from is the first group of [Portal(origin->destination)],
    the origin.  [T] is inside Portal(A->B), due at B at tick 101: asked
    to go to C it is scheduled from tick 101 along the path from A, and
    is written into Portal(A->C) at tick 102, right after arriving at B. *)
Theorem journey_from_portal_starts_at_origin :
  (∀ self oloc b otick c,
     portex_match oloc = None →
     Travel.journey_start self oloc b otick c = Ok (oloc, otick) c)
  ∧ (∀ self oloc o d b otick c locs bm k,
       portex_match oloc = Some (o, d) →
       thing_location (skeleton c) !! self = Some locs →
       locs !! b = Some bm →
       Skel.key_after bm otick = Some k →
       Travel.journey_start self oloc b otick c = Ok (o, k) c)
  ∧ Thing.get_location Physical "T" None None crossing_to_B
    = Ok (Some (InPortal (portal_of "A" "B"))) crossing_to_B
  ∧ destination (portal_of "A" "B") = "B"
  ∧ Travel.journey_start "T" (portal_str (portal_of "A" "B")) 0 5 crossing_to_B
    = Ok ("A", 101) crossing_to_B
  ∧ ∃ c', Travel.journey_to Physical "T" place_C None None crossing_to_B = Ok tt c'
      ∧ thing_location (skeleton c') !! "T"
        = Some {[ 0 := {[ 0 := row 0 0 "A";
                          1 := row 0 1 "Portal(A->B)";
                          101 := row 0 101 "B";
                          102 := row 0 102 "Portal(A->C)";
                          202 := row 0 202 "C" ]} ]}.
Proof.
  split; [apply journey_start_at_place|].
  split; [apply journey_start_in_portal|].
  split; [vm_compute; reflexivity|]. split; [reflexivity|].
  split; [vm_compute; reflexivity|].
  eexists. split; vm_compute; reflexivity.
Qed.

(** ** Journeys into a future already written *)

(** With the cursor where the journey starts, the retry on the new
    branch goes through: branch 1 is made with [T] at A at tick 0, and
    the path is written there. *)
Lemma journey_paradox_at_cursor :
  ∃ c', Travel.journey_to Physical "T" place_C None None at_the_start = Ok tt c'
    ∧ branch c' = 1 ∧ tick c' = 0
    ∧ thing_location (skeleton c') !! "T"
      = Some {[ 0 := {[ 0 := row 0 0 "A"; 50 := row 0 50 "B" ]};
                1 := {[ 0 := row 1 0 "A";
                        1 := row 1 1 "Portal(A->C)";
                        101 := row 1 101 "C" ]} ]}.
Proof. eexists. repeat split; vm_compute; reflexivity. Qed.

(** C1, on the code: a fact after the starting tick makes
    [follow_path] raise [TimeParadox] with nothing written, as specified;
    but the retry can raise again.  The cursor is at (0, 100) and the
    journey is asked for at (0, 0), before the fact at tick 50: the
    handler forks at the cursor, so branch 1 starts with [T] at B at
    tick 100; the retry from tick 0 meets that fact and raises
    [TimeParadox], which leaves [journey_to]. *)
Theorem journey_paradox_escapes :
  (∀ dim self path b t c locs bm k,
     thing_location (skeleton c) !! self = Some locs →
     locs !! b = Some bm →
     is_Some (bm !! k) → t < k →
     Thing.follow_path dim self path b t c = Raise TimeParadox c)
  ∧ Thing.follow_path Physical "T" [portal_of "A" "C"] 0 0 looking_back
    = Raise TimeParadox looking_back
  ∧ ∃ c', Travel.journey_to Physical "T" place_C (Some 0) (Some 0) looking_back
          = Raise TimeParadox c'
      ∧ branch c' = 1 ∧ tick c' = 100
      ∧ thing_location (skeleton c') !! "T"
        = Some {[ 0 := {[ 0 := row 0 0 "A"; 50 := row 0 50 "B" ]};
                  1 := {[ 100 := row 1 100 "B" ]} ]}.
Proof.
  split; [apply follow_path_paradox|].
  split; [vm_compute; reflexivity|].
  eexists. repeat split; vm_compute; reflexivity.
Qed.

(** The [while] loop that looks for a branch number free for the thing
    ends within the turns it is given, on the first free number. *)
Lemma find_increment_free (locs : gmap Z (gmap Z loc_rd)) (b : Z) :
  ∀ (fuel : nat) (inc : Z),
  (size (filter (λ k : Z, (b + inc ≤ k)%Z) (dom locs)) < fuel)%nat →
  let r := Travel.find_increment fuel locs b inc in
  inc ≤ r ∧ locs !! (b + r) = None
  ∧ ∀ i, inc ≤ i < r → is_Some (locs !! (b + i)).
Proof.
  induction fuel as [|fuel IH]; intros inc Hsize; [lia|].
  cbn [Travel.find_increment]. case_decide as Hin.
  - destruct (IH (inc + 1)) as (Hle & Hfree & Hused).
    { assert (filter (λ k : Z, b + (inc + 1) ≤ k) (dom locs)
              ⊂ filter (λ k : Z, b + inc ≤ k) (dom locs)) as Hsub.
      { apply elem_of_dom in Hin. split.
        - intros k. rewrite !elem_of_filter. intros [? ?]. split; [lia|done].
        - intros Hsub. specialize (Hsub (b + inc)).
          rewrite !elem_of_filter in Hsub.
          destruct Hsub as [? _]; [split; [lia|done]|lia]. }
      apply subset_size in Hsub. lia. }
    split; [lia|]. split; [done|].
    intros i Hi. destruct (decide (i = inc)) as [->|]; [done|].
    apply Hused. lia.
  - split; [lia|]. split.
    + destruct (locs !! (b + inc)) eqn:E; [|done]. exfalso. apply Hin. eauto.
    + intros i Hi. lia.
Qed.

Lemma find_increment_in_handler (locs : gmap Z (gmap Z loc_rd)) (b : Z) :
  let r := Travel.find_increment (S (size locs)) locs b 1 in
  1 ≤ r ∧ locs !! (b + r) = None.
Proof.
  destruct (find_increment_free locs b (S (size locs)) 1) as (? & ? & _); [|done].
  pose proof (subseteq_size (filter (λ k : Z, b + 1 ≤ k) (dom locs)) (dom locs)) as H.
  rewrite size_dom in H.
  assert (filter (λ k : Z, b + 1 ≤ k) (dom locs) ⊆ dom locs) as Hsub
    by (intros k; rewrite elem_of_filter; tauto).
  specialize (H Hsub). lia.
Qed.

(** ** What a new branch inherits *)

Section Inherit.
Context (B F : Z).
Implicit Types (rows lo hi : list loc_rd) (m : gmap Z loc_rd).

Lemma sorted_split rows :
  StronglySorted tick_lt rows →
  ∃ lo hi, rows = lo ++ hi
    ∧ Forall (λ rd, rd_tick_from rd < F) lo
    ∧ Forall (λ rd, F ≤ rd_tick_from rd) hi.
Proof.
  induction 1 as [|x l Hs IH Hx].
  { exists [], []. by repeat constructor. }
  destruct (decide (rd_tick_from x < F)) as [Hlt|Hge].
  - destruct IH as (lo & hi & -> & Hlo & Hhi).
    exists (x :: lo), hi. split; [done|]. split; [by constructor|done].
  - exists [], (x :: l). split; [done|]. split; [constructor|].
    constructor; [lia|]. eapply Forall_impl; [exact Hx|].
    intros y Hy. unfold tick_lt in Hy. simpl in Hy. lia.
Qed.

(** Before the fork tick the loop only remembers the previous row. *)
Lemma inherit_before lo : ∀ prev m,
  Forall (λ rd, rd_tick_from rd < F) lo →
  foldl (Thing.inherit_row B F) (prev, false, m) lo
  = (match last lo with Some p => Some p | None => prev end, false, m).
Proof.
  induction lo as [|x lo IH]; intros prev m Hlo; [done|].
  apply Forall_cons in Hlo as [Hx Hlo]. simpl.
  rewrite decide_False by lia. rewrite IH by done.
  destruct lo as [|y lo]; [done|].
  rewrite last_cons_cons. destruct (last (y :: lo)) eqn:E; [done|].
  by apply last_None in E.
Qed.

(** Once started, the loop copies every row. *)
Lemma inherit_started hi : ∀ prev m,
  Forall (λ rd, F ≤ rd_tick_from rd) hi →
  (foldl (Thing.inherit_row B F) (prev, true, m) hi).2 = foldl (copy_row B) m hi.
Proof.
  induction hi as [|x hi IH]; intros prev m Hhi; [done|].
  apply Forall_cons in Hhi as [Hx Hhi]. simpl.
  rewrite decide_True by lia.
  destruct prev as [p|]; simpl; by rewrite IH.
Qed.

(** The branch map after the whole loop, for rows in tick order. *)
Lemma inherit_rows_split lo hi :
  Forall (λ rd, rd_tick_from rd < F) lo →
  Forall (λ rd, F ≤ rd_tick_from rd) hi →
  Thing.inherit_rows B F (lo ++ hi) ∅ =
    match hi with
    | [] => ∅
    | h :: hi' =>
        foldl (copy_row B)
          (match last lo with
           | Some p =>
               if decide (F < rd_tick_from h)
               then <[F := Thing.retick F (Thing.rebranch B p)]> (copy_row B ∅ h)
               else copy_row B ∅ h
           | None => copy_row B ∅ h
           end) hi'
    end.
Proof.
  intros Hlo Hhi. unfold Thing.inherit_rows.
  rewrite foldl_app, inherit_before by done.
  destruct hi as [|h hi']; [done|].
  apply Forall_cons in Hhi as [Hh Hhi]. simpl.
  rewrite decide_True by lia.
  destruct (last lo) as [p|] eqn:Hlast; simpl.
  - assert (rd_tick_from p < F) as Hp.
    { apply last_Some_elem_of in Hlast.
      rewrite Forall_forall in Hlo. by apply Hlo. }
    rewrite (bool_decide_eq_true_2 (rd_tick_from p < F)) by done.
    rewrite andb_true_r.
    destruct (decide (F < rd_tick_from h)).
    + rewrite bool_decide_eq_true_2 by done. by rewrite inherit_started.
    + rewrite bool_decide_eq_false_2 by done. by rewrite inherit_started.
  - by rewrite inherit_started.
Qed.

Lemma copy_rows_lookup_other hi : ∀ m k,
  (∀ rd, rd ∈ hi → rd_tick_from rd ≠ k) →
  foldl (copy_row B) m hi !! k = m !! k.
Proof.
  induction hi as [|x hi IH]; intros m k Hk; [done|]. simpl.
  rewrite IH by (intros rd Hrd; apply Hk; by right).
  unfold copy_row. apply lookup_insert_ne. apply Hk. left.
Qed.

Lemma copy_rows_lookup hi : ∀ m rd,
  StronglySorted tick_lt hi → rd ∈ hi →
  foldl (copy_row B) m hi !! rd_tick_from rd = Some (Thing.rebranch B rd).
Proof.
  induction hi as [|x hi IH]; intros m rd Hs Hrd.
  { by apply elem_of_nil in Hrd. }
  apply StronglySorted_cons in Hs as [Hx Hs]. rewrite Forall_forall in Hx.
  simpl. apply elem_of_cons in Hrd as [->|Hrd].
  - rewrite copy_rows_lookup_other.
    + unfold copy_row. apply lookup_insert_eq.
    + intros rd Hrd. specialize (Hx rd Hrd). unfold tick_lt in Hx. lia.
  - by apply IH.
Qed.
End Inherit.

Lemma sorted_items_rows (l : list (Z * loc_rd)) :
  StronglySorted key_lt l →
  Forall (λ kv, rd_tick_from kv.2 = kv.1) l →
  StronglySorted tick_lt l.*2.
Proof.
  induction 1 as [|x l Hs IH Hx]; intros Hk; [constructor|].
  apply Forall_cons in Hk as [Hkx Hk]. simpl.
  constructor; [by apply IH|].
  rewrite Forall_fmap. rewrite Forall_forall in Hx, Hk |- *.
  intros y Hy. specialize (Hx y Hy). specialize (Hk y Hy).
  unfold key_lt, tick_lt in *. simpl. lia.
Qed.

Lemma iterrows_sorted pm :
  keyed_by_tick pm → StronglySorted tick_lt (Skel.iterrows pm).
Proof.
  intros Hk. unfold Skel.iterrows. apply sorted_items_rows.
  - apply iteritems_sorted.
  - apply Forall_forall. intros [k rd] Hin. apply iteritems_elem in Hin.
    simpl. by apply (Hk k rd).
Qed.

Lemma elem_of_iterrows pm rd :
  keyed_by_tick pm →
  rd ∈ Skel.iterrows pm ↔ pm !! rd_tick_from rd = Some rd.
Proof.
  intros Hk. unfold Skel.iterrows. rewrite list_elem_of_fmap. split.
  - intros ([k rd'] & -> & Hin). apply iteritems_elem in Hin. simpl.
    by rewrite (Hk k rd' Hin).
  - intros Hin. exists (rd_tick_from rd, rd). split; [done|].
    by apply iteritems_elem.
Qed.

Lemma sorted_last_max lo q :
  StronglySorted tick_lt lo → last lo = Some q →
  ∀ r, r ∈ lo → rd_tick_from r ≤ rd_tick_from q.
Proof.
  intros Hs Hlast r Hr. apply last_Some in Hlast as [lo' ->].
  apply elem_of_app in Hr as [Hr|Hr].
  - apply StronglySorted_app in Hs as (Hcross & _ & _).
    specialize (Hcross r q Hr ltac:(left)). unfold tick_lt in Hcross. lia.
  - apply list_elem_of_singleton in Hr as ->. lia.
Qed.

Section InheritFromParent.
Context (B F : Z) (pm : gmap Z loc_rd).
Hypothesis Hkeyed : keyed_by_tick pm.

(** The parent's rows, cut at the fork tick. *)
Lemma parent_rows_cut :
  ∃ lo hi, Skel.iterrows pm = lo ++ hi
    ∧ StronglySorted tick_lt lo ∧ StronglySorted tick_lt hi
    ∧ (∀ rd, rd ∈ lo ↔ pm !! rd_tick_from rd = Some rd ∧ rd_tick_from rd < F)
    ∧ (∀ rd, rd ∈ hi ↔ pm !! rd_tick_from rd = Some rd ∧ F ≤ rd_tick_from rd)
    ∧ inherited B F pm = match hi with
           | [] => ∅
           | h :: hi' =>
               foldl (copy_row B)
                 (match last lo with
                  | Some p =>
                      if decide (F < rd_tick_from h)
                      then <[F := Thing.retick F (Thing.rebranch B p)]> (copy_row B ∅ h)
                      else copy_row B ∅ h
                  | None => copy_row B ∅ h
                  end) hi'
           end.
Proof.
  pose proof (iterrows_sorted pm Hkeyed) as Hs.
  destruct (sorted_split F _ Hs) as (lo & hi & E & Hlo & Hhi).
  exists lo, hi. split; [done|]. rewrite E in Hs.
  split; [by eapply StronglySorted_app_1_l|].
  split; [by eapply StronglySorted_app_1_r|].
  rewrite Forall_forall in Hlo, Hhi.
  assert (∀ rd, rd ∈ lo ++ hi ↔ pm !! rd_tick_from rd = Some rd) as Hin.
  { intros rd. rewrite <- E. by apply elem_of_iterrows. }
  split; [|split].
  - intros rd. split.
    + intros Hrd. split; [|by apply Hlo]. apply Hin, elem_of_app. by left.
    + intros [Hrd Hlt]. apply Hin, elem_of_app in Hrd as [Hrd|Hrd]; [done|].
      specialize (Hhi rd Hrd). simpl in Hhi. lia.
  - intros rd. split.
    + intros Hrd. split; [|by apply Hhi]. apply Hin, elem_of_app. by right.
    + intros [Hrd Hge]. apply Hin, elem_of_app in Hrd as [Hrd|Hrd]; [|done].
      specialize (Hlo rd Hrd). simpl in Hlo. lia.
  - unfold inherited. rewrite E. apply inherit_rows_split; by apply Forall_forall.
Qed.

(** Every fact of the parent at or after the fork tick is copied. *)
Lemma inherited_copy k rd :
  pm !! k = Some rd → F ≤ k → inherited B F pm !! k = Some (Thing.rebranch B rd).
Proof.
  intros Hrd Hge.
  destruct parent_rows_cut as (lo & hi & _ & Hslo & Hshi & Hlo & Hhi & ->).
  assert (rd_tick_from rd = k) as Hk by (by apply (Hkeyed k rd)).
  assert (rd ∈ hi) as Hin by (apply Hhi; rewrite Hk; done).
  destruct hi as [|h hi']; [by apply elem_of_nil in Hin|].
  apply StronglySorted_cons in Hshi as [Hh Hshi]. rewrite Forall_forall in Hh.
  rewrite <- Hk. apply elem_of_cons in Hin as [->|Hin].
  - rewrite copy_rows_lookup_other.
    2:{ intros r Hr. specialize (Hh r Hr). unfold tick_lt in Hh. lia. }
    destruct (last lo) as [p|]; [case_decide|]; unfold copy_row.
    + rewrite lookup_insert_ne by lia. apply lookup_insert_eq.
    + apply lookup_insert_eq.
    + apply lookup_insert_eq.
  - by apply copy_rows_lookup.
Qed.

(** Every fact of the new branch is such a copy, or the one fact made
    at the fork tick out of the parent's last fact before it. *)
Lemma inherited_cases k x :
  inherited B F pm !! k = Some x →
  (∃ rd, pm !! k = Some rd ∧ F ≤ k ∧ x = Thing.rebranch B rd)
  ∨ (k = F ∧ pm !! F = None
     ∧ ∃ p rd, pm !! p = Some rd ∧ p < F
         ∧ (∀ j, is_Some (pm !! j) → j < F → j ≤ p)
         ∧ x = Thing.retick F (Thing.rebranch B rd)).
Proof.
  intros Hx.
  destruct (pm !! k) as [rd|] eqn:Hpk.
  { destruct (decide (F ≤ k)) as [Hge|Hlt].
    - left. exists rd. rewrite (inherited_copy k rd Hpk Hge) in Hx.
      injection Hx as <-. done.
    - exfalso. revert Hx.
      destruct parent_rows_cut as (lo & hi & _ & Hslo & Hshi & Hlo & Hhi & ->).
      destruct hi as [|h hi']; [by rewrite lookup_empty|].
      assert (F ≤ rd_tick_from h) as Hh by (apply (Hhi h); left).
      rewrite copy_rows_lookup_other.
      2:{ intros r Hr. assert (F ≤ rd_tick_from r); [|lia].
          apply (Hhi r). by right. }
      destruct (last lo) as [p|]; [case_decide|]; unfold copy_row;
        rewrite ?lookup_insert_ne, ?lookup_empty by lia; done. }
  right. revert Hx.
  destruct parent_rows_cut as (lo & hi & _ & Hslo & Hshi & Hlo & Hhi & ->).
  destruct hi as [|h hi']; [by rewrite lookup_empty|].
  assert (pm !! rd_tick_from h = Some h ∧ F ≤ rd_tick_from h) as [Hph Hh]
    by (apply (Hhi h); left).
  rewrite copy_rows_lookup_other.
  2:{ intros r Hr Heq.
      assert (pm !! rd_tick_from r = Some r) by (apply (Hhi r); by right).
      congruence. }
  assert (k ≠ rd_tick_from h) as Hkh by congruence.
  destruct (last lo) as [p|] eqn:Hlast.
  2:{ unfold copy_row. by rewrite lookup_insert_ne, lookup_empty. }
  case_decide as HFh.
  2:{ unfold copy_row. by rewrite lookup_insert_ne, lookup_empty. }
  destruct (decide (k = F)) as [->|Hne].
  2:{ unfold copy_row. by rewrite !lookup_insert_ne, lookup_empty. }
  rewrite lookup_insert_eq. intros [= <-].
  split; [done|]. split; [done|].
  assert (p ∈ lo) as Hp by (by apply last_Some_elem_of).
  apply Hlo in Hp as [Hpp Hpl].
  exists (rd_tick_from p), p. split; [done|]. split; [done|]. split; [|done].
  intros j [q Hq] Hj.
  assert (rd_tick_from q = j) as Hqj by (by apply (Hkeyed j q)).
  assert (q ∈ lo) as Hqlo by (apply Hlo; rewrite Hqj; done).
  pose proof (sorted_last_max lo p Hslo Hlast q Hqlo). lia.
Qed.

(** When the parent has no fact at the fork tick itself but has one
    later and one earlier, the earlier one is restated at the fork. *)
Lemma inherited_fork p rd :
  pm !! F = None →
  (∃ k, is_Some (pm !! k) ∧ F ≤ k) →
  pm !! p = Some rd → p < F →
  (∀ j, is_Some (pm !! j) → j < F → j ≤ p) →
  inherited B F pm !! F = Some (Thing.retick F (Thing.rebranch B rd)).
Proof.
  intros HF (k & [rk Hk] & Hge) Hp Hlt Hmax.
  destruct parent_rows_cut as (lo & hi & _ & Hslo & Hshi & Hlo & Hhi & ->).
  assert (rd_tick_from rk = k) as Hrk by (by apply (Hkeyed k rk)).
  assert (rd_tick_from rd = p) as Hrp by (by apply (Hkeyed p rd)).
  assert (rk ∈ hi) as Hrkin by (apply Hhi; rewrite Hrk; done).
  destruct hi as [|h hi']; [by apply elem_of_nil in Hrkin|].
  assert (pm !! rd_tick_from h = Some h ∧ F ≤ rd_tick_from h) as [Hph Hh]
    by (apply (Hhi h); left).
  assert (F < rd_tick_from h) as HFh.
  { destruct (decide (rd_tick_from h = F)) as [E|]; [|lia]. congruence. }
  rewrite copy_rows_lookup_other.
  2:{ intros r Hr Heq.
      assert (pm !! rd_tick_from r = Some r) by (apply (Hhi r); by right).
      congruence. }
  assert (rd ∈ lo) as Hrdlo by (apply Hlo; rewrite Hrp; done).
  destruct (last lo) as [q|] eqn:Hlast.
  2:{ apply last_None in Hlast. subst lo. by apply elem_of_nil in Hrdlo. }
  rewrite decide_True by done. rewrite lookup_insert_eq.
  assert (q ∈ lo) as Hq by (by apply last_Some_elem_of).
  apply Hlo in Hq as [Hpq Hql].
  pose proof (sorted_last_max lo q Hslo Hlast rd Hrdlo).
  assert (rd_tick_from q ≤ p) by (apply Hmax; [eauto|done]).
  assert (rd_tick_from q = p) as Hqp by lia.
  rewrite Hqp in Hpq. rewrite Hp in Hpq. by injection Hpq as ->.
Qed.
End InheritFromParent.

Section NewBranch.
Context (dim : Dimension).

(** The state [new_branch] leaves when the thing's [new_branch_blank]
    is off and the branch is new to the thing. *)
Lemma new_branch_copies self P B F c locs pm :
  thing_location (skeleton c) !! self = Some locs →
  default false (thingdict c !! self) = false →
  locs !! P = Some pm →
  locs !! B = None →
  ∃ c', Thing.new_branch dim self P B F c = Ok tt c'
    ∧ thing_location (skeleton c') !! self
      = Some (<[B := Thing.inherit_rows B F (Skel.iterrows pm) ∅]> locs)
    ∧ thingdict c' = thingdict c.
Proof.
  intros Hl Hblank HP HB.
  assert (P ≠ B) as Hne by congruence.
  unfold Thing.new_branch, Thing.locations, Thing.set_locations, Thing.getitem.
  munfold. rewrite Hl. rewrite decide_False by (rewrite HB; by intros [? ?]).
  simpl. rewrite Hblank. simpl. rewrite lookup_insert_eq.
  rewrite lookup_insert_ne by done. rewrite HP. rewrite lookup_insert_eq.
  eexists. split; [reflexivity|]. simpl. split; [|done].
  rewrite lookup_insert_eq. by rewrite insert_insert_eq.
Qed.

(** Two rows with the same location name resolve to the same object. *)
Lemma get_location_same_name self ob1 ot1 ob2 ot2 c1 c2 rd1 rd2 :
  Thing.get_location_rd self ob1 ot1 c1 = Ok (Some rd1) c1 →
  Thing.get_location_rd self ob2 ot2 c2 = Ok (Some rd2) c2 →
  rd_location rd1 = rd_location rd2 →
  thingdict c1 = thingdict c2 →
  ∃ r, Thing.get_location dim self ob1 ot1 c1 = Ok r c1
     ∧ Thing.get_location dim self ob2 ot2 c2 = Ok r c2.
Proof.
  intros E1 E2 Hloc Htd.
  rewrite (get_location_of_rd dim _ _ _ _ _ E1), (get_location_of_rd dim _ _ _ _ _ E2).
  rewrite Hloc, Htd. eauto.
Qed.
(** C2, as the code has it: a branch [B] that [new_branch(P, B, F)]
    creates for a thing whose parent branch has a fact at or after the
    fork tick [F] agrees with the parent from [F] on: for every tick
    [t >= F] the thing's location at [(B, t)] is its location at
    [(P, t)].  Before [F] the new branch holds no fact, and the lookup
    at [(B, t)] gives [None]. *)
Theorem new_branch_inherits_from_fork self P B F c locs pm :
  thing_location (skeleton c) !! self = Some locs →
  default false (thingdict c !! self) = false →
  locs !! P = Some pm →
  keyed_by_tick pm →
  locs !! B = None →
  (∃ k, is_Some (pm !! k) ∧ F ≤ k) →
  ∃ c', Thing.new_branch dim self P B F c = Ok tt c'
    ∧ (∀ t, F ≤ t →
         ∃ r, Thing.get_location dim self (Some B) (Some t) c' = Ok r c'
            ∧ Thing.get_location dim self (Some P) (Some t) c' = Ok r c'
            ∧ Thing.get_location dim self (Some P) (Some t) c = Ok r c)
    ∧ (∀ t, t < F →
         Thing.get_location dim self (Some B) (Some t) c' = Ok None c').
Proof.
  intros Hl Hblank HP Hkeyed HB Hlater.
  destruct (new_branch_copies self P B F c locs pm Hl Hblank HP HB)
    as (c' & Hrun & Hl' & Htd).
  exists c'. split; [done|].
  set (mB := Thing.inherit_rows B F (Skel.iterrows pm) ∅) in *.
  assert ((<[B := mB]> locs) !! B = Some mB) as HB' by apply lookup_insert_eq.
  assert ((<[B := mB]> locs) !! P = Some pm) as HP'
    by (rewrite lookup_insert_ne; congruence).
  split.
  - intros t Ht.
    destruct (in_force_or_nothing pm t) as [[kP HkP]|Hnone].
    + pose proof HkP as HkP0.
      apply greatest_at_or_before_unfold in HkP as ([rdP HrdP] & Hle & Hmax).
      pose proof (get_location_rd_in_force self (Some P) (Some t) c' _ pm kP rdP
                    Hl' HP' HkP0 HrdP) as EP'.
      pose proof (get_location_rd_in_force self (Some P) (Some t) c locs pm kP rdP
                    Hl HP HkP0 HrdP) as EP.
      assert (∃ kB rdB, greatest_at_or_before mB t kB ∧ mB !! kB = Some rdB
                ∧ rd_location rdB = rd_location rdP) as (kB & rdB & HkB & HrdB & Hloc).
      { destruct (decide (F ≤ kP)) as [Hge|Hlt].
        - exists kP, (Thing.rebranch B rdP).
          assert (mB !! kP = Some (Thing.rebranch B rdP)) as HmB
            by (by apply inherited_copy).
          split; [|done].
          apply greatest_at_or_before_unfold. split; [eauto|]. split; [done|].
          intros j [x Hj] Hjt.
          destruct (inherited_cases B F pm Hkeyed j x Hj)
            as [(rd & Hrd & _ & _)|(-> & _)]; [apply Hmax; eauto|lia].
        - exists F, (Thing.retick F (Thing.rebranch B rdP)).
          assert (pm !! F = None) as HF.
          { destruct (pm !! F) eqn:E; [|done].
            assert (F ≤ kP) by (apply Hmax; eauto). lia. }
          assert (mB !! F = Some (Thing.retick F (Thing.rebranch B rdP))) as HmF.
          { apply (inherited_fork B F pm Hkeyed kP rdP); [done|done|done|lia|].
            intros j Hj Hjlt. apply Hmax; [done|lia]. }
          split; [|done].
          apply greatest_at_or_before_unfold. split; [eauto|]. split; [done|].
          intros j [x Hj] Hjt.
          destruct (inherited_cases B F pm Hkeyed j x Hj)
            as [(rd & Hrd & HFj & _)|(-> & _)]; [|lia].
          assert (j ≤ kP) by (apply Hmax; eauto). lia. }
      pose proof (get_location_rd_in_force self (Some B) (Some t) c' _ mB kB rdB
                    Hl' HB' HkB HrdB) as EB.
      destruct (get_location_same_name self _ _ _ _ c' c' rdB rdP
                  EB EP' Hloc eq_refl) as (r & E1 & E2).
      destruct (get_location_same_name self _ _ _ _ c' c rdB rdP
                  EB EP Hloc Htd) as (r' & E1' & E3).
      exists r. rewrite E1 in E1'. injection E1' as <-. done.
    + exists None.
      pose proof (proj1 (nothing_at_or_before_unfold pm t) Hnone) as Hn.
      assert (nothing_at_or_before mB t) as HnB.
      { apply nothing_at_or_before_unfold. intros j [x Hj].
        destruct (inherited_cases B F pm Hkeyed j x Hj)
          as [(rd & Hrd & _)|(-> & _ & p & rd & Hp & Hlt & _)].
        - apply Hn. eauto.
        - assert (t < p) by (apply Hn; eauto). lia. }
      split; [|split]; apply get_location_nothing;
        eapply get_location_rd_nothing; eauto.
  - intros t Ht. apply get_location_nothing.
    eapply get_location_rd_nothing; [exact Hl'|exact HB'|].
    apply nothing_at_or_before_unfold. intros j [x Hj]. simpl.
    destruct (inherited_cases B F pm Hkeyed j x Hj)
      as [(rd & _ & HFj & _)|(-> & _)]; lia.
Qed.
End NewBranch.

(** Before the fork tick the branch does not agree with its parent:
    branch 1, forked from the trunk at tick 50, has no fact before tick
    50; at tick 0 the thing is nowhere in branch 1 while it is at A on
    the trunk. *)
Lemma new_branch_forgets_the_past :
  ∃ c', Thing.new_branch Physical "T" 0 1 50 (world trunk_A_to_B 0 0 0 101) = Ok tt c'
    ∧ 0 < 50
    ∧ Thing.get_location Physical "T" (Some 1) (Some 0) c' = Ok None c'
    ∧ Thing.get_location Physical "T" (Some 0) (Some 0) c'
      = Ok (Some (AtPlace place_A)) c'.
Proof. eexists. repeat split; vm_compute; reflexivity. Qed.

(** Forked at tick 50, in mid-portal, branch 1 has the thing in the
    portal from tick 50 and at B from tick 101, as the trunk has. *)
Lemma new_branch_inherits_from_fork_witness :
  ∃ c', Thing.new_branch Physical "T" 0 1 50 (world trunk_A_to_B 0 0 0 101) = Ok tt c'
    ∧ (∃ r, Thing.get_location Physical "T" (Some 1) (Some 75) c' = Ok r c'
          ∧ Thing.get_location Physical "T" (Some 0) (Some 75) c' = Ok r c')
    ∧ Thing.get_location Physical "T" (Some 1) (Some 49) c' = Ok None c'.
Proof.
  destruct (new_branch_inherits_from_fork Physical "T" 0 1 50
              (world trunk_A_to_B 0 0 0 101) trunk_A_to_B
              {[ 0 := row 0 0 "A"; 1 := row 0 1 "Portal(A->B)"; 101 := row 0 101 "B" ]})
    as (c' & Hrun & Hafter & Hbefore).
  - vm_compute. reflexivity.
  - vm_compute. reflexivity.
  - vm_compute. reflexivity.
  - apply (bool_decide_unpack (keyed_by_tick _)). vm_compute. exact I.
  - vm_compute. reflexivity.
  - exists 101. split; [|lia]. vm_compute. eauto.
  - exists c'. split; [exact Hrun|]. split.
    + destruct (Hafter 75 ltac:(lia)) as (r & E1 & E2 & _). eauto.
    + apply Hbefore. lia.
Defined.

(** What the statement above leaves out: when the parent has no fact at
    or after the fork tick, the loop copies nothing, and the thing is
    nowhere in the new branch although it is at A on the trunk. *)
Lemma new_branch_without_future_is_empty :
  ∃ c', Thing.new_branch Physical "T" 0 1 5 late_start = Ok tt c'
    ∧ thing_location (skeleton c') !! "T"
      = Some {[ 0 := {[ 3 := row 0 3 "A" ]}; 1 := ∅ ]}
    ∧ Thing.get_location Physical "T" (Some 1) (Some 7) c' = Ok None c'
    ∧ Thing.get_location Physical "T" (Some 0) (Some 7) c'
      = Ok (Some (AtPlace place_A)) c'.
Proof. eexists. repeat split; vm_compute; reflexivity. Qed.

(** * Further properties of the code *)

(** ** Writing a location and reading it back *)

Lemma get_location_rd_eval self b t c :
  Thing.get_location_rd self (Some b) (Some t) c =
    match thing_location (skeleton c) !! self with
    | None => Raise KeyError c
    | Some locs =>
        match locs !! b with
        | None => Ok None c
        | Some bm =>
            match (if decide (is_Some (bm !! t)) then Some t
                   else Skel.key_before bm t) with
            | None => Raise KeyError c
            | Some k =>
                match bm !! k with
                | Some rd => Ok (Some rd) c
                | None => Raise KeyError c
                end
            end
        end
    end.
Proof.
  unfold Thing.get_location_rd, Thing.locations, Thing.or_branch, Thing.or_tick,
    Thing.key_before, Thing.getitem.
  munfold. simpl.
  destruct (thing_location (skeleton c) !! self) as [locs|]; [|done].
  destruct (locs !! b) as [bm|]; [|done].
  case_decide.
  - destruct (bm !! t); done.
  - destruct (Skel.key_before bm t) as [k|]; [|done]. destruct (bm !! k); done.
Qed.

Lemma get_location_eval dim self b t c :
  Thing.get_location dim self (Some b) (Some t) c =
    Ok (match Thing.get_location_rd self (Some b) (Some t) c with
        | Ok (Some rd) _ => named dim (thingdict c) <$> rd_location rd
        | _ => None
        end) c.
Proof.
  destruct (get_location_rd_cases self (Some b) (Some t) c) as [[[rd|] E]|E].
  - rewrite (get_location_of_rd dim _ _ _ _ _ E), E. unfold named.
    destruct (rd_location rd) as [l|]; [|done]. simpl.
    destruct (portex_match l) as [[o d]|]; [done|by case_decide].
  - rewrite E. unfold Thing.get_location. munfold. by rewrite E.
  - rewrite E. by apply get_location_nothing.
Qed.

(** The keys below a bound decide [key_before]. *)
Lemma key_before_ext {V} (m1 m2 : gmap Z V) t :
  (∀ j, j < t → (is_Some (m1 !! j) ↔ is_Some (m2 !! j))) →
  Skel.key_before m1 t = Skel.key_before m2 t.
Proof.
  intros Hsame.
  destruct (Skel.key_before m1 t) as [k|] eqn:E1; symmetry.
  - apply key_before_Some in E1 as (Hk & Hlt & Hmax).
    apply key_before_Some. split; [by apply Hsame|]. split; [done|].
    intros j Hj Hjt. apply Hmax; [by apply Hsame|done].
  - apply key_before_None. intros j Hj.
    destruct (decide (j < t)) as [Hlt|]; [|lia].
    apply (proj1 (key_before_None m1 t) E1 j). by apply Hsame.
Qed.

Section WriteRead.
Context (dim : Dimension).

(** X1: a location written with [set_location(loc, branch, tick)] is
    what [get_location_rd] and [get_location] answer at that tick and at
    every later tick up to the next fact the branch already had. *)
Theorem set_location_then_get self loc ob ot c locs :
  thing_location (skeleton c) !! self = Some locs →
  let b := default (branch c) ob in
  let t := default (tick c) ot in
  ∃ c', Thing.set_location dim self loc ob ot c = Ok tt c'
    ∧ ∀ t', t ≤ t' →
        (∀ bm k, locs !! b = Some bm → is_Some (bm !! k) → k ≤ t ∨ t' < k) →
        Thing.get_location_rd self (Some b) (Some t') c'
        = Ok (Some {| rd_dimension := dim_name dim; rd_thing := self;
                      rd_branch := b; rd_tick_from := t;
                      rd_location := Some loc |}) c'
        ∧ Thing.get_location dim self (Some b) (Some t') c'
          = Ok (Some (named dim (thingdict c) loc)) c'.
Proof.
  intros Hl b t.
  rewrite (set_location_Ok dim self loc ob ot c locs Hl). fold b t.
  eexists. split; [reflexivity|].
  intros t' Htt' Hgap.
  set (rd := {| rd_dimension := dim_name dim; rd_thing := self; rd_branch := b;
                rd_tick_from := t; rd_location := Some loc |}).
  set (bm0 := default ∅ (locs !! b)).
  set (c' := set_timestream _ _).
  assert (Thing.get_location_rd self (Some b) (Some t') c' = Ok (Some rd) c') as E.
  { apply (get_location_rd_in_force self (Some b) (Some t') c'
             (<[b := <[t := rd]> bm0]> locs) (<[t := rd]> bm0) t rd).
    - subst c'. simpl. apply lookup_insert_eq.
    - apply lookup_insert_eq.
    - apply greatest_at_or_before_unfold. rewrite lookup_insert_eq.
      split; [eauto|]. split; [done|]. simpl. intros j Hj Hjt'.
      destruct (decide (j = t)) as [->|Hne]; [lia|].
      rewrite lookup_insert_ne in Hj by done. subst bm0.
      destruct (locs !! b) as [bm|] eqn:Hb; simpl in Hj.
      + destruct (Hgap bm j eq_refl Hj); lia.
      + rewrite lookup_empty in Hj. by destruct Hj.
    - apply lookup_insert_eq. }
  split; [done|]. rewrite get_location_eval, E. done.
Qed.

(** X2: [set_location] at [(branch, tick)] changes no answer of
    [get_location] for another thing, in another branch, or at an
    earlier tick of the same branch. *)
Theorem set_location_elsewhere self loc ob ot c self' b' t' :
  let b := default (branch c) ob in
  let t := default (tick c) ot in
  self' ≠ self ∨ b' ≠ b ∨ t' < t →
  answer (Thing.get_location dim self' (Some b') (Some t')
            (state_of (Thing.set_location dim self loc ob ot c)))
  = answer (Thing.get_location dim self' (Some b') (Some t') c).
Proof.
  intros b t Hother.
  destruct (thing_location (skeleton c) !! self) as [locs|] eqn:Hl.
  2:{ by rewrite (set_location_Raise dim self loc ob ot c Hl). }
  rewrite (set_location_Ok dim self loc ob ot c locs Hl). fold b t.
  cbn [state_of].
  set (rd := {| rd_dimension := dim_name dim; rd_thing := self; rd_branch := b;
                rd_tick_from := t; rd_location := Some loc |}).
  set (bm0 := default ∅ (locs !! b)).
  set (c' := set_timestream _ _).
  rewrite !get_location_eval. cbn [answer]. f_equal.
  assert (thingdict c' = thingdict c) as -> by done.
  rewrite !get_location_rd_eval.
  assert (thing_location (skeleton c')
          = <[self := <[b := <[t := rd]> bm0]> locs]> (thing_location (skeleton c)))
    as -> by done.
  destruct (decide (self' = self)) as [->|Hs].
  2:{ rewrite lookup_insert_ne by done.
      destruct (thing_location (skeleton c) !! self') as [locs'|]; [|done].
      destruct (locs' !! b') as [bm'|]; [|done].
      destruct (if decide (is_Some (bm' !! t')) then Some t'
                else Skel.key_before bm' t') as [k|]; [|done].
      destruct (bm' !! k); done. }
  rewrite lookup_insert_eq, Hl.
  destruct (decide (b' = b)) as [->|Hb].
  2:{ rewrite lookup_insert_ne by done.
      destruct (locs !! b') as [bm'|]; [|done].
      destruct (if decide (is_Some (bm' !! t')) then Some t'
                else Skel.key_before bm' t') as [k|]; [|done].
      destruct (bm' !! k); done. }
  assert (t' < t) as Hlt by (destruct Hother as [?|[?|?]]; done).
  rewrite lookup_insert_eq.
  assert (∀ (m : gmap Z loc_rd) j, j < t → <[t := rd]> m !! j = m !! j) as Hsame
    by (intros m j Hj; apply lookup_insert_ne; lia).
  rewrite (Hsame bm0 t') by done.
  rewrite (key_before_ext (<[t := rd]> bm0) bm0 t').
  2:{ intros j Hj. rewrite Hsame by lia. done. }
  assert (bm0 = match locs !! b with Some bm => bm | None => ∅ end) as Hbm0
    by (subst bm0; destruct (locs !! b); done).
  clearbody bm0. destruct (locs !! b) as [bm|] eqn:Hbm; subst bm0.
  - destruct (if decide (is_Some (bm !! t')) then Some t'
              else Skel.key_before bm t') as [k|] eqn:Hk; [|done].
    assert (k < t) as Hkt.
    { case_decide; [injection Hk as <-; done|].
      apply key_before_Some in Hk as (_ & ? & _). lia. }
    rewrite (Hsame bm k) by done. destruct (bm !! k); done.
  - rewrite decide_False by (rewrite lookup_empty; by intros [? ?]).
    assert (Skel.key_before (∅ : gmap Z loc_rd) t' = None) as ->.
    { apply key_before_None. intros j Hj. rewrite lookup_empty in Hj.
      by destruct Hj. }
    done.
Qed.
End WriteRead.

(** Written at B from tick 7 on the trunk of the late starter, the thing
    is at B at ticks 7 and 20, and still at A at tick 5. *)
Lemma set_location_then_get_witness :
  ∃ c', Thing.set_location Physical "T" "B" (Some 0) (Some 7) late_start = Ok tt c'
    ∧ Thing.get_location Physical "T" (Some 0) (Some 20) c'
      = Ok (Some (AtPlace place_B)) c'.
Proof.
  destruct (set_location_then_get Physical "T" "B" (Some 0) (Some 7) late_start
              {[ 0 := {[ 3 := row 0 3 "A" ]} ]}) as (c' & Hrun & Hget);
    [vm_compute; reflexivity|].
  exists c'. split; [exact Hrun|].
  refine (proj2 (Hget 20 _ _)).
  - vm_compute. discriminate.
  - simpl. intros bm k Hbm Hk. left.
    assert (bm = {[ 3 := row 0 3 "A" ]}) as ->
      by (apply (inj Some); rewrite <- Hbm; vm_compute; reflexivity).
    destruct (decide (k = 3)) as [->|Hne]; [lia|].
    rewrite lookup_singleton_ne in Hk by done. by destruct Hk.
Defined.

Lemma set_location_elsewhere_witness :
  answer (Thing.get_location Physical "T" (Some 0) (Some 5)
            (state_of (Thing.set_location Physical "T" "B" (Some 0) (Some 7) late_start)))
  = inr (Some (AtPlace place_A)).
Proof.
  rewrite (set_location_elsewhere Physical "T" "B" (Some 0) (Some 7) late_start "T" 0 5).
  - vm_compute. reflexivity.
  - right. right. vm_compute. reflexivity.
Defined.

(** ** Saving a branch, deleting it and restoring it *)

Section Rewrite.
Context (f : loc_rd → loc_rd).

Lemma put_rows_lookup_other rows : ∀ m k,
  (∀ rd, rd ∈ rows → rd_tick_from rd ≠ k) →
  foldl (put_row f) m rows !! k = m !! k.
Proof.
  induction rows as [|x rows IH]; intros m k Hk; [done|]. simpl.
  rewrite IH by (intros rd Hrd; apply Hk; by right).
  unfold put_row. apply lookup_insert_ne. apply Hk. left.
Qed.

Lemma put_rows_lookup rows : ∀ m rd,
  StronglySorted tick_lt rows → rd ∈ rows →
  foldl (put_row f) m rows !! rd_tick_from rd = Some (f rd).
Proof.
  induction rows as [|x rows IH]; intros m rd Hs Hrd.
  { by apply elem_of_nil in Hrd. }
  apply StronglySorted_cons in Hs as [Hx Hs]. rewrite Forall_forall in Hx.
  simpl. apply elem_of_cons in Hrd as [->|Hrd].
  - rewrite put_rows_lookup_other.
    + unfold put_row. apply lookup_insert_eq.
    + intros rd Hrd. specialize (Hx rd Hrd). unfold tick_lt in Hx. lia.
  - by apply IH.
Qed.

(** Putting back every row of a branch, each under its tick, rebuilds
    the branch with [f] applied to its rows. *)
Lemma put_rows_iterrows bm :
  keyed_by_tick bm → foldl (put_row f) ∅ (Skel.iterrows bm) = f <$> bm.
Proof.
  intros Hk. apply map_eq. intros k. rewrite lookup_fmap.
  destruct (bm !! k) as [rd|] eqn:Hrd; simpl.
  - assert (rd_tick_from rd = k) as <- by (by apply (Hk k rd)).
    apply put_rows_lookup; [by apply iterrows_sorted|].
    by apply elem_of_iterrows.
  - rewrite put_rows_lookup_other; [done|].
    intros rd Hin <-. apply elem_of_iterrows in Hin; [|done]. congruence.
Qed.
End Rewrite.

Section Restore.
Context (dim : Dimension).

(** The writes of [restore_loc_rds] for rows of one branch. *)
Lemma restore_writes self b rows : ∀ c locs,
  thing_location (skeleton c) !! self = Some locs →
  Forall (λ rd, rd_branch rd = b) rows →
  ∃ c', Thing.restore_loc_rds dim self rows c = Ok tt c'
    ∧ thingdict c' = thingdict c
    ∧ timestream_tab (skeleton c') = timestream_tab (skeleton c)
    ∧ thing_location (skeleton c') =
        match rows with
        | [] => thing_location (skeleton c)
        | _ => <[self := <[b := foldl (put_row (restored_row dim self))
                                   (default ∅ (locs !! b)) rows]> locs]>
                 (thing_location (skeleton c))
        end
    ∧ hi_branch (timestream c') =
        match rows with
        | [] => hi_branch (timestream c)
        | _ => Z.max (hi_branch (timestream c)) b
        end.
Proof.
  unfold Thing.restore_loc_rds.
  induction rows as [|rd rows IH]; intros c locs Hl Hb.
  { exists c. done. }
  apply Forall_cons in Hb as [Hrd Hb].
  cbn [for_each].
  pose proof (set_location_Ok dim self (str_or_None id (rd_location rd))
                (Some (rd_branch rd)) (Some (rd_tick_from rd)) c locs Hl) as E.
  simpl in E. rewrite Hrd in E.
  erewrite bind_Ok; [|rewrite Hrd; exact E]. clear E.
  set (bm1 := <[rd_tick_from rd := _]> (default ∅ (locs !! b))).
  set (c1 := set_timestream _ (set_skeleton _ c)).
  assert (thing_location (skeleton c1) !! self = Some (<[b := bm1]> locs)) as Hl1
    by (subst c1; simpl; apply lookup_insert_eq).
  assert (hi_branch (timestream c1) = Z.max (hi_branch (timestream c)) b) as Hhb1
    by done.
  destruct (IH c1 _ Hl1 Hb) as (c' & Hrun & Htd & Htab & Htl & Hhb).
  exists c'. split; [done|]. split; [by rewrite Htd|]. split; [by rewrite Htab|].
  split.
  - rewrite Htl.
    assert (thing_location (skeleton c1)
            = <[self := <[b := bm1]> locs]> (thing_location (skeleton c))) as Hc1
      by done.
    assert (bm1 = put_row (restored_row dim self) (default ∅ (locs !! b)) rd) as Hbm1.
    { subst bm1. unfold put_row, restored_row. by rewrite Hrd. }
    destruct rows as [|rd' rows]; [by rewrite Hc1, Hbm1|].
    rewrite Hc1, lookup_insert_eq, insert_insert_eq, insert_insert_eq. simpl.
    by rewrite Hbm1.
  - rewrite Hhb, Hhb1. destruct rows; lia.
Qed.

(** What [str] makes of a saved row is the row itself when it is as
    [set_location] wrote it. *)
Lemma restored_row_as_written self b bm :
  as_written dim self b bm → restored_row dim self <$> bm = bm.
Proof.
  intros Hw. apply map_eq. intros k. rewrite lookup_fmap.
  destruct (bm !! k) as [rd|] eqn:E; [|done]. simpl. f_equal.
  destruct (Hw k rd E) as (Hd & Ht & _ & _ & [l Hl]).
  destruct rd as [d th rb tf lo]. simpl in *. subst. done.
Qed.

(** Deleting a branch and restoring its rows. *)
Lemma delete_restore_Ok self b c locs bm :
  thing_location (skeleton c) !! self = Some locs →
  locs !! b = Some bm →
  keyed_by_tick bm →
  filed_under b bm →
  ∃ c', Thing.restore_loc_rds dim self (Skel.iterrows bm)
          (set_skeleton (set_thing_location (<[self := delete b locs]>)) c) = Ok tt c'
    ∧ frame c c'
    ∧ thingdict c' = thingdict c
    ∧ timestream_tab (skeleton c') = timestream_tab (skeleton c)
    ∧ thing_location (skeleton c') =
        <[self := if decide (bm = ∅) then delete b locs
                  else <[b := restored_row dim self <$> bm]> locs]>
          (thing_location (skeleton c))
    ∧ (bm ≠ ∅ → hi_branch (timestream c') = Z.max (hi_branch (timestream c)) b).
Proof.
  intros Hl Hbm Hk Hf.
  assert (Forall (λ rd, rd_branch rd = b) (Skel.iterrows bm)) as Hrows.
  { apply Forall_forall. intros rd Hin. apply elem_of_iterrows in Hin; [|done].
    exact (Hf _ _ Hin). }
  assert (bm ≠ ∅ → Skel.iterrows bm ≠ []) as Hrowsne.
  { intros Hemp Hit. apply Hemp. apply map_eq. intros k. rewrite lookup_empty.
    destruct (bm !! k) as [rd|] eqn:E; [|done].
    assert (rd_tick_from rd = k) as <- by (by apply (Hk k rd)).
    apply elem_of_iterrows in E; [|done]. rewrite Hit in E.
    by apply elem_of_nil in E. }
  set (c0 := set_skeleton (set_thing_location (<[self := delete b locs]>)) c).
  assert (thing_location (skeleton c0) !! self = Some (delete b locs)) as Hl0
    by (subst c0; simpl; apply lookup_insert_eq).
  destruct (restore_writes self b (Skel.iterrows bm) c0 _ Hl0 Hrows)
    as (c' & Hrun & Htd & Htab & Htl & Hhb).
  exists c'. split; [done|]. split.
  { pose proof (keeps_frame_restore_loc_rds dim self (Skel.iterrows bm) c0) as Hfr.
    rewrite Hrun in Hfr. apply (frame_trans c c0 c'); [|done].
    split; simpl; done || lia. }
  split; [by rewrite Htd|]. split; [by rewrite Htab|]. split.
  - rewrite Htl. case_decide as Hemp.
    + subst bm. rewrite (elem_of_nil_inv (Skel.iterrows ∅)); [done|].
      intros rd Hin. apply elem_of_iterrows in Hin; done.
    + specialize (Hrowsne Hemp).
      destruct (Skel.iterrows bm) as [|r0 rows] eqn:Hit; [done|].
      rewrite <- Hit. subst c0. simpl.
      rewrite lookup_delete_eq. simpl. rewrite insert_insert_eq.
      rewrite put_rows_iterrows by done. f_equal.
      by rewrite insert_delete_eq.
  - intros Hemp. specialize (Hrowsne Hemp). rewrite Hhb.
    by destruct (Skel.iterrows bm).
Qed.

(** The store after [save_delete_restore]. *)
Lemma save_delete_restore_Ok self b c locs bm :
  thing_location (skeleton c) !! self = Some locs →
  locs !! b = Some bm →
  keyed_by_tick bm →
  filed_under b bm →
  ∃ c', save_delete_restore dim self b c = Ok tt c'
    ∧ frame c c'
    ∧ thingdict c' = thingdict c
    ∧ timestream_tab (skeleton c') = timestream_tab (skeleton c)
    ∧ thing_location (skeleton c') =
        <[self := if decide (bm = ∅) then delete b locs
                  else <[b := restored_row dim self <$> bm]> locs]>
          (thing_location (skeleton c)).
Proof.
  intros Hl Hbm Hk Hf.
  destruct (delete_restore_Ok self b c locs bm Hl Hbm Hk Hf)
    as (c' & Hrun & Hfr & Htd & Htab & Htl & _).
  exists c'. split; [|done].
  unfold save_delete_restore, Thing.branch_loc_rds, Thing.locations,
    Thing.getitem, Thing.set_locations, Thing.or_branch.
  munfold. simpl. rewrite Hl. simpl. rewrite Hbm. simpl.
  rewrite Hl. simpl. rewrite Hbm. simpl. exact Hrun.
Qed.

(** X3: the undo of [journey_to]'s [TimeParadox] handler.  Saving the
    rows of a branch with [branch_loc_rds], deleting the branch and
    calling [restore_loc_rds] on the saved rows returns, moves neither
    the cursor nor the baseline, and leaves the store as it was when
    the rows are as [set_location] wrote them; a branch that had no
    row is not recreated. *)
Theorem restore_after_delete self b c locs bm :
  thing_location (skeleton c) !! self = Some locs →
  locs !! b = Some bm →
  as_written dim self b bm →
  ∃ c', save_delete_restore dim self b c = Ok tt c'
    ∧ frame c c'
    ∧ thingdict c' = thingdict c
    ∧ timestream_tab (skeleton c') = timestream_tab (skeleton c)
    ∧ (bm ≠ ∅ → thing_location (skeleton c') = thing_location (skeleton c))
    ∧ (bm = ∅ → thing_location (skeleton c') !! self = Some (delete b locs)).
Proof.
  intros Hl Hbm Hw.
  assert (keyed_by_tick bm) as Hk by (intros k rd E; apply (Hw k rd E)).
  assert (filed_under b bm) as Hf by (intros k rd E; apply (Hw k rd E)).
  destruct (save_delete_restore_Ok self b c locs bm Hl Hbm Hk Hf)
    as (c' & Hrun & Hfr & Htd & Htab & Hres).
  exists c'. repeat (split; [done|]). split.
  - intros Hne. rewrite Hres. rewrite decide_False by done.
    rewrite (restored_row_as_written self b bm Hw).
    rewrite (insert_id locs b bm Hbm). by apply insert_id.
  - intros Hemp. rewrite Hres. rewrite decide_True by done.
    apply lookup_insert_eq.
Qed.

(** X4: a row whose location is [None] does not survive the undo:
    [restore_loc_rds] passes [rd["location"]] to [set_location], which
    stores its [str].  Where the thing was nowhere before, it is at the
    location named "None" afterwards. *)
Theorem restore_revives_tombstone self b t c locs bm k rd :
  thing_location (skeleton c) !! self = Some locs →
  locs !! b = Some bm →
  keyed_by_tick bm →
  filed_under b bm →
  bm !! k = Some rd →
  rd_location rd = None →
  greatest_at_or_before bm t k →
  Thing.get_location dim self (Some b) (Some t) c = Ok None c
  ∧ ∃ c', save_delete_restore dim self b c = Ok tt c'
      ∧ Thing.get_location dim self (Some b) (Some t) c'
        = Ok (Some (named dim (thingdict c) "None")) c'.
Proof.
  intros Hl Hbm Hk Hf Hrd Hnone Hgr. split.
  { rewrite (get_location_of_rd dim self (Some b) (Some t) c rd).
    - by rewrite Hnone.
    - by apply (get_location_rd_in_force self (Some b) (Some t) c locs bm k rd). }
  destruct (save_delete_restore_Ok self b c locs bm Hl Hbm Hk Hf)
    as (c' & Hrun & _ & Htd & _ & Hres).
  exists c'. split; [done|].
  rewrite decide_False in Hres by (intros ->; by rewrite lookup_empty in Hrd).
  rewrite (get_location_of_rd dim self (Some b) (Some t) c' (restored_row dim self rd)).
  - unfold restored_row, named. cbn [rd_location]. rewrite Hnone, Htd.
    cbn [str_or_None].
    assert (portex_match "None" = None) as -> by (vm_compute; reflexivity).
    by case_decide.
  - apply (get_location_rd_in_force self (Some b) (Some t) c'
             (<[b := restored_row dim self <$> bm]> locs)
             (restored_row dim self <$> bm) k).
    + rewrite Hres. apply lookup_insert_eq.
    + simpl. apply lookup_insert_eq.
    + simpl. apply greatest_at_or_before_unfold.
      apply greatest_at_or_before_unfold in Hgr as (Hs & Hle & Hmax).
      split; [by rewrite lookup_fmap, Hrd|]. split; [done|].
      intros j Hj. apply Hmax. rewrite lookup_fmap in Hj.
      destruct (bm !! j); [done|by destruct Hj].
    + by rewrite lookup_fmap, Hrd.
Qed.
End Restore.

(** On the sample trunk the journey from A to B comes back row for row. *)
Lemma restore_after_delete_witness :
  ∃ c', save_delete_restore Physical "T" 0 (world trunk_A_to_B 0 0 0 101) = Ok tt c'
    ∧ thing_location (skeleton c') = {[ "T" := trunk_A_to_B ]}.
Proof.
  destruct (restore_after_delete Physical "T" 0 (world trunk_A_to_B 0 0 0 101)
              trunk_A_to_B
              {[ 0 := row 0 0 "A"; 1 := row 0 1 "Portal(A->B)"; 101 := row 0 101 "B" ]})
    as (c' & Hrun & _ & _ & _ & Hsame & _).
  - vm_compute. reflexivity.
  - vm_compute. reflexivity.
  - apply (bool_decide_unpack (as_written _ _ _ _)). vm_compute. exact I.
  - exists c'. split; [exact Hrun|]. rewrite Hsame.
    + reflexivity.
    + apply (bool_decide_unpack (_ ≠ _)). vm_compute. exact I.
Defined.

(** The thing that stopped existing at tick 4 is at the place "None" at
    tick 5 once its trunk has been saved, deleted and restored. *)
Lemma restore_revives_tombstone_witness :
  Thing.get_location Physical "T" (Some 0) (Some 5) trunk_with_tombstone
    = Ok None trunk_with_tombstone
  ∧ ∃ c', save_delete_restore Physical "T" 0 trunk_with_tombstone = Ok tt c'
      ∧ Thing.get_location Physical "T" (Some 0) (Some 5) c'
        = Ok (Some (AtPlace (place_of "None"))) c'.
Proof.
  refine (restore_revives_tombstone Physical "T" 0 5 trunk_with_tombstone
            {[ 0 := {[ 0 := row 0 0 "A";
                       4 := {| rd_dimension := "Physical"; rd_thing := "T";
                               rd_branch := 0; rd_tick_from := 4;
                               rd_location := None |} ]} ]}
            {[ 0 := row 0 0 "A";
               4 := {| rd_dimension := "Physical"; rd_thing := "T";
                       rd_branch := 0; rd_tick_from := 4;
                       rd_location := None |} ]}
            4 _ _ _ _ _ _ _ _).
  - vm_compute. reflexivity.
  - vm_compute. reflexivity.
  - apply (bool_decide_unpack (keyed_by_tick _)). vm_compute. exact I.
  - apply (bool_decide_unpack (filed_under _ _)). vm_compute. exact I.
  - vm_compute. reflexivity.
  - reflexivity.
  - apply (bool_decide_unpack (greatest_at_or_before _ _ _)). vm_compute. exact I.
Defined.

(** ** [follow_path] writes all of the path or nothing *)

Section AllOrNothing.
Context (dim : Dimension).

Lemma fact_after_or_not c self b t :
  fact_after c self b t ∨ ¬ fact_after c self b t.
Proof.
  destruct (thing_location (skeleton c) !! self) as [locs|] eqn:Hl.
  2:{ right. intros (? & ? & ? & Hl' & _). congruence. }
  destruct (locs !! b) as [bm|] eqn:Hb.
  2:{ right. intros (locs' & ? & ? & Hl' & Hb' & _). congruence. }
  destruct (Skel.key_after bm t) as [k|] eqn:Hka.
  - apply key_after_Some in Hka as (Hk & Htk & _). left. by exists locs, bm, k.
  - right. intros (locs' & bm' & k & Hl' & Hb' & Hk & Htk).
    assert (bm' = bm) as -> by congruence.
    pose proof (proj1 (key_after_None bm t) Hka k Hk). lia.
Qed.

(** X5: [follow_path] writes all of the path or nothing.  It raises
    [TimeParadox] exactly when the branch holds a fact after [tick],
    and [KeyError] exactly when the thing has no location skeleton and
    there is a portal to write; either way the closet is as it was.
    In every other case it returns, and then the whole schedule of the
    path, a fact in each portal and a fact at its destination, is in
    the branch, with the cursor, the history and the baseline as they
    were. *)
Theorem follow_path_all_or_nothing self path b t c :
  (fact_after c self b t →
   Thing.follow_path dim self path b t c = Raise TimeParadox c)
  ∧ (thing_location (skeleton c) !! self = None → path ≠ [] →
     Thing.follow_path dim self path b t c = Raise KeyError c)
  ∧ (thing_location (skeleton c) !! self = None → path = [] →
     Thing.follow_path dim self path b t c = Ok tt c)
  ∧ (∀ locs, thing_location (skeleton c) !! self = Some locs →
       ¬ fact_after c self b t →
       ∃ c', Thing.follow_path dim self path b t c = Ok tt c'
         ∧ frame c c'
         ∧ thing_location (skeleton c') =
             match path with
             | [] => thing_location (skeleton c)
             | _ => <[self := <[b := write_facts dim self b
                                        (scheduled_facts Thing.get_ticks_thru path (t + 1))
                                        (default ∅ (locs !! b))]> locs]>
                      (thing_location (skeleton c))
             end)
  ∧ match Thing.follow_path dim self path b t c with
    | Ok _ c' =>
        ¬ fact_after c self b t
        ∧ (thing_location (skeleton c) !! self = None → path = [])
        ∧ (path = [] → c' = c)
    | Raise e c' =>
        c' = c
        ∧ ((e = TimeParadox ∧ fact_after c self b t)
           ∨ (e = KeyError ∧ thing_location (skeleton c) !! self = None
              ∧ path ≠ []))
    end.
Proof.
  assert (fact_after c self b t →
          Thing.follow_path dim self path b t c = Raise TimeParadox c) as Hpar.
  { intros (locs & bm & k & Hl & Hb & Hk & Htk).
    by apply (follow_path_paradox dim self path b t c locs bm k). }
  assert (thing_location (skeleton c) !! self = None →
          Thing.follow_path dim self path b t c
          = match path with [] => Ok tt c | _ => Raise KeyError c end) as Hunknown.
  { intros Hl. unfold Thing.follow_path.
    erewrite (bind_Ok _ _ c tt c).
    2:{ unfold Thing.locations. munfold. by rewrite Hl. }
    destruct path as [|po path]; [done|]. simpl.
    erewrite bind_Raise; [done|]. by apply set_location_Raise. }
  assert (∀ locs, thing_location (skeleton c) !! self = Some locs →
       ¬ fact_after c self b t →
       ∃ c', Thing.follow_path dim self path b t c = Ok tt c'
         ∧ frame c c'
         ∧ thing_location (skeleton c') =
             match path with
             | [] => thing_location (skeleton c)
             | _ => <[self := <[b := write_facts dim self b
                                        (scheduled_facts Thing.get_ticks_thru path (t + 1))
                                        (default ∅ (locs !! b))]> locs]>
                      (thing_location (skeleton c))
             end) as Hfree.
  { intros locs Hl Hno.
    assert (∀ bm, locs !! b = Some bm → map_Forall (λ j _, j ≤ t) bm) as Hnone.
    { intros bm Hb j x Hj. destruct (decide (j ≤ t)) as [|Hgt]; [done|].
      exfalso. apply Hno. exists locs, bm, j.
      split; [done|]. split; [done|]. split; [by eexists|lia]. }
    pose proof (keeps_frame_follow_path dim self path b t c) as Hfr.
    unfold Thing.follow_path in *.
    erewrite bind_Ok in *; [|by eapply follow_path_guard_passes..].
    destruct (follow_steps_schedule dim self b path (t + 1) c locs Hl)
      as (c' & Hrun & Htl).
    rewrite Hrun in *. by exists c'. }
  split; [done|].
  split; [intros Hl Hne; rewrite (Hunknown Hl); by destruct path|].
  split; [intros Hl ->; by rewrite (Hunknown Hl)|].
  split; [done|].
  destruct (fact_after_or_not c self b t) as [Hfa|Hno].
  { rewrite (Hpar Hfa). split; [done|]. by left. }
  destruct (thing_location (skeleton c) !! self) as [locs|] eqn:Hl.
  - destruct (Hfree locs eq_refl Hno) as (c' & Hrun & _ & Htl). rewrite Hrun.
    split; [done|]. split; [done|].
    intros ->. unfold Thing.follow_path in Hrun.
    erewrite bind_Ok in Hrun.
    + simpl in Hrun. by injection Hrun as <-.
    + eapply follow_path_guard_passes; [done|].
      intros bm Hb j x Hj. destruct (decide (j ≤ t)) as [|Hgt]; [done|].
      exfalso. apply Hno. exists locs, bm, j.
      split; [done|]. split; [done|]. split; [by eexists|lia].
  - rewrite (Hunknown eq_refl). destruct path as [|po path].
    + done.
    + split; [done|]. right. done.
Qed.
End AllOrNothing.

(** ** [exists] and [get_progress] *)

Lemma get_location_rd_default self ob ot c :
  Thing.get_location_rd self ob ot c =
  Thing.get_location_rd self (Some (default (branch c) ob))
    (Some (default (tick c) ot)) c.
Proof.
  unfold Thing.get_location_rd, Thing.or_branch, Thing.or_tick.
  destruct ob, ot; munfold; reflexivity.
Qed.

Lemma get_location_default dim self ob ot c :
  Thing.get_location dim self ob ot c =
  Thing.get_location dim self (Some (default (branch c) ob))
    (Some (default (tick c) ot)) c.
Proof.
  unfold Thing.get_location. munfold.
  by rewrite (get_location_rd_default self ob ot c).
Qed.

(** [get_location_rd] returns [None] only for a branch the thing has no
    data in. *)
Lemma get_location_rd_None self ob ot c :
  Thing.get_location_rd self ob ot c = Ok None c ↔
  ∃ locs, thing_location (skeleton c) !! self = Some locs
    ∧ locs !! default (branch c) ob = None.
Proof.
  rewrite get_location_rd_default, get_location_rd_eval.
  destruct (thing_location (skeleton c) !! self) as [locs|].
  - destruct (locs !! default (branch c) ob) as [bm|] eqn:Hb.
    + split.
      * intros E. exfalso. destruct (if decide _ then _ else _) as [k|];
          [destruct (bm !! k)|]; discriminate.
      * intros (locs' & [= <-] & Hb'). congruence.
    + split; [by eauto|done].
  - split; [discriminate|]. intros (? & ? & _). discriminate.
Qed.

Lemma exists_eval self ob ot c :
  ThingQueries.exists_ self ob ot c =
    match Thing.get_location_rd self ob ot c with
    | Ok (Some rd) _ => Returns (bool_decide (rd_location rd ≠ None)) c
    | Ok None _ => Raises TypeError c
    | Raise _ _ => Returns false c
    end.
Proof.
  unfold ThingQueries.exists_, lift, raises.
  unfold mbind at 1. unfold MX_bind. munfold.
  destruct (get_location_rd_cases self ob ot c) as [[[rd|] E]|E];
    rewrite E; reflexivity.
Qed.

(** X6: [exists] returns exactly when [get_location] would answer for a
    thing that is unknown or has data in the branch, and then says
    whether that answer is a location; for a thing with no data in the
    branch, where [get_location] returns [None], it raises [TypeError]
    from subscripting the missing row.  It writes nothing. *)
Theorem exists_agrees_with_get_location dim self ob ot c :
  closet_of (ThingQueries.exists_ self ob ot c) = c
  ∧ match result_of (ThingQueries.exists_ self ob ot c) with
    | inr r =>
        (∀ locs, thing_location (skeleton c) !! self = Some locs →
                 is_Some (locs !! default (branch c) ob))
        ∧ ∃ l, Thing.get_location dim self ob ot c = Ok l c
             ∧ r = bool_decide (is_Some l)
    | inl e =>
        e = TypeError
        ∧ Thing.get_location dim self ob ot c = Ok None c
        ∧ ∃ locs, thing_location (skeleton c) !! self = Some locs
            ∧ locs !! default (branch c) ob = None
    end.
Proof.
  rewrite exists_eval.
  destruct (get_location_rd_cases self ob ot c) as [[[rd|] E]|E]; rewrite E; simpl.
  - split; [done|]. split.
    + intros locs Hl. destruct (locs !! default (branch c) ob) eqn:Hb; [done|].
      assert (Thing.get_location_rd self ob ot c = Ok None c) as E'
        by (apply get_location_rd_None; eauto).
      congruence.
    + rewrite (get_location_of_rd dim _ _ _ _ _ E). eexists. split; [done|].
      destruct (rd_location rd) as [l|]; simpl.
      * destruct (portex_match l) as [[o d]|]; [done|]. by case_decide.
      * done.
  - split; [done|]. split; [done|]. split.
    + unfold Thing.get_location. munfold. by rewrite E.
    + by apply (get_location_rd_None self ob ot c).
  - split; [done|]. split.
    + intros locs Hl. destruct (locs !! default (branch c) ob) eqn:Hb; [done|].
      assert (Thing.get_location_rd self ob ot c = Ok None c) as E'
        by (apply get_location_rd_None; eauto).
      congruence.
    + exists None. split; [by apply get_location_nothing|done].
Qed.

Lemma get_progress_eval self ob ot c :
  let b := default (branch c) ob in
  let t := default (tick c) ot in
  ThingQueries.get_progress self ob ot c =
    match thing_location (skeleton c) !! self with
    | None => Raises (Core KeyError) c
    | Some locs =>
        match locs !! b with
        | None => Raises LocationException c
        | Some bm =>
            match Thing.get_location_rd self (Some b) (Some t) c with
            | Ok (Some rd) _ =>
                match TS.min_list (filter (λ k, t < k) (map_to_list bm).*1) with
                | Some t2 =>
                    progress_ratio (rd_tick_from rd) t t2 c
                | None => Raises (Core ValueError) c
                end
            | Ok None _ => Raises TypeError c
            | Raise e _ => Raises (Core e) c
            end
        end
    end.
Proof.
  intros b t.
  assert (∀ b' t', b' = b → t' = t →
    (lift (Thing.locations self) ≫= λ locs,
       match locs !! b' with
       | None => raises LocationException
       | Some bm =>
           lift (Thing.get_location_rd self (Some b') (Some t')) ≫= λ rd,
           match rd with
           | None => raises TypeError
           | Some rd =>
               ThingQueries.min_tick_after bm t' ≫= λ t2,
               progress_ratio (rd_tick_from rd) t' t2
           end
       end) c =
    match thing_location (skeleton c) !! self with
    | None => Raises (Core KeyError) c
    | Some locs =>
        match locs !! b with
        | None => Raises LocationException c
        | Some bm =>
            match Thing.get_location_rd self (Some b) (Some t) c with
            | Ok (Some rd) _ =>
                match TS.min_list (filter (λ k, t < k) (map_to_list bm).*1) with
                | Some t2 =>
                    progress_ratio (rd_tick_from rd) t t2 c
                | None => Raises (Core ValueError) c
                end
            | Ok None _ => Raises TypeError c
            | Raise e _ => Raises (Core e) c
            end
        end
    end) as Hbody.
  { intros b' t' -> ->. unfold lift, raises, Thing.locations, mbind, MX_bind.
    destruct (thing_location (skeleton c) !! self) as [locs|]; [|done].
    destruct (locs !! b) as [bm|]; [|done].
    destruct (get_location_rd_cases self (Some b) (Some t) c) as [[[rd|] E]|E];
      rewrite E; [|done..].
    unfold ThingQueries.min_tick_after, mret, MX_ret.
    by destruct (TS.min_list _). }
  unfold ThingQueries.get_progress, Thing.or_branch, Thing.or_tick.
  destruct ob, ot; apply Hbody; reflexivity.
Qed.

Lemma least_after_min bm t k :
  TS.min_list (filter (λ j, t < j) (map_to_list bm).*1) = Some k ↔
  least_after bm t k.
Proof.
  rewrite min_list_Some. unfold least_after, map_Forall. split.
  - intros [Hin Hmin]. apply list_elem_of_filter in Hin as [Htk Hin].
    apply list_elem_of_fmap in Hin as ([k' x] & -> & Hin).
    apply elem_of_map_to_list in Hin. split; [by eexists|]. split; [done|].
    intros j y Hj Htj. apply Hmin. apply list_elem_of_filter. split; [done|].
    apply list_elem_of_fmap. exists (j, y). split; [done|].
    by apply elem_of_map_to_list.
  - intros ([x Hk] & Htk & Hmin). split.
    + apply list_elem_of_filter. split; [done|].
      apply list_elem_of_fmap. exists (k, x). split; [done|].
      by apply elem_of_map_to_list.
    + intros j Hin. apply list_elem_of_filter in Hin as [Htj Hin].
      apply list_elem_of_fmap in Hin as ([j' y] & -> & Hin).
      apply elem_of_map_to_list in Hin. by apply (Hmin j' y).
Qed.

Lemma nothing_after_min bm t :
  TS.min_list (filter (λ j, t < j) (map_to_list bm).*1) = None ↔
  nothing_after bm t.
Proof.
  rewrite min_list_None. unfold nothing_after, map_Forall. split.
  - intros Hnil j x Hj. destruct (decide (j ≤ t)) as [|Hgt]; [done|].
    exfalso. apply (elem_of_nil j). rewrite <- Hnil.
    apply list_elem_of_filter. split; [lia|].
    apply list_elem_of_fmap. exists (j, x). split; [done|].
    by apply elem_of_map_to_list.
  - intros Hall. apply elem_of_nil_inv. intros j Hin.
    apply list_elem_of_filter in Hin as [Htj Hin].
    apply list_elem_of_fmap in Hin as ([j' y] & -> & Hin).
    apply elem_of_map_to_list in Hin. specialize (Hall j' y Hin). simpl in *. lia.
Qed.

(** X7: how [get_progress] ends.  It raises [LocationException] when,
    and only when, the thing has no data in the branch; [KeyError] when
    the thing is unknown or the branch has nothing at or before the
    tick; [ValueError], from [min] of an empty list, when the branch has
    nothing after the tick.  Otherwise, whether or not the thing is in
    a portal, the result is [float(tick - t1) / float(t2 - t1)], [t1]
    the [tick_from] of the fact in force and [t2] the tick of the next
    fact, each difference converted to the nearest float whatever its
    size.  It writes nothing. *)
Theorem get_progress_cases self ob ot c :
  let b := default (branch c) ob in
  let t := default (tick c) ot in
  let r := ThingQueries.get_progress self ob ot c in
  closet_of r = c
  ∧ (result_of r = inl LocationException ↔
     ∃ locs, thing_location (skeleton c) !! self = Some locs ∧ locs !! b = None)
  ∧ (thing_location (skeleton c) !! self = None → result_of r = inl (Core KeyError))
  ∧ ∀ locs bm,
      thing_location (skeleton c) !! self = Some locs → locs !! b = Some bm →
      (nothing_at_or_before bm t → result_of r = inl (Core KeyError))
      ∧ ∀ k rd, greatest_at_or_before bm t k → bm !! k = Some rd →
          (nothing_after bm t → result_of r = inl (Core ValueError))
          ∧ ∀ k2, least_after bm t k2 →
              r = progress_ratio (rd_tick_from rd) t k2 c.
Proof.
  intros b t r. subst r. rewrite get_progress_eval. fold b t.
  assert (∀ t1 t0 t2, closet_of (progress_ratio t1 t0 t2 c) = c
                 ∧ result_of (progress_ratio t1 t0 t2 c) ≠ inl LocationException)
    as Hdiv.
  { intros t1 t0 t2.
    unfold progress_ratio, py_float, ThingQueries.float_div, raises,
      mbind, MX_bind, mret, MX_ret.
    destruct (PrimFloat.is_infinity (nearest_float (t2 - t1))); [done|].
    destruct (PrimFloat.is_infinity (nearest_float (t0 - t1))); [done|].
    destruct (PrimFloat.eqb (nearest_float (t2 - t1)) 0); done. }
  destruct (thing_location (skeleton c) !! self) as [locs|] eqn:Hl.
  2:{ split; [done|]. split; [|split; [done|]].
      - split; [discriminate|]. intros (? & ? & _). discriminate.
      - intros ? ? ?. discriminate. }
  destruct (locs !! b) as [bm|] eqn:Hb.
  2:{ split; [done|]. split; [|split; [discriminate|]].
      - split; [by eauto|done].
      - intros locs' bm [= <-] Hb'. congruence. }
  assert (∀ o : outcome float,
            (result_of o = inl LocationException ↔
             ∃ locs0, Some locs = Some locs0 ∧ locs0 !! b = None)
            ↔ result_of o ≠ inl LocationException) as Hloc.
  { intros o. split.
    - intros H E. apply H in E as (? & [= <-] & ?). congruence.
    - intros H. split; [done|]. intros (? & [= <-] & ?). congruence. }
  assert (∀ k, greatest_at_or_before bm t k → nothing_at_or_before bm t → False)
    as Hexcl.
  { intros k Hk Hn.
    pose proof (proj1 (nothing_at_or_before_unfold bm t) Hn) as Hn'.
    destruct (proj1 (greatest_at_or_before_unfold bm t k) Hk) as (Hs & Hle & _).
    specialize (Hn' k Hs). lia. }
  assert (∀ k k', greatest_at_or_before bm t k → greatest_at_or_before bm t k' →
                  k' = k) as Huniq.
  { intros k k' Hk Hk'.
    destruct (proj1 (greatest_at_or_before_unfold bm t k) Hk) as (Hs & Hle & Hmax).
    destruct (proj1 (greatest_at_or_before_unfold bm t k') Hk') as (Hs' & Hle' & Hmax').
    specialize (Hmax k' Hs' Hle'). specialize (Hmax' k Hs Hle). lia. }
  destruct (in_force_or_nothing bm t) as [(k & Hk)|Hno].
  - destruct (proj1 (greatest_at_or_before_unfold bm t k) Hk) as ([rd Hrd] & _ & _).
    rewrite (get_location_rd_in_force self (Some b) (Some t) c locs bm k rd Hl Hb Hk Hrd).
    destruct (TS.min_list _) as [t2|] eqn:Hmin.
    + split; [apply Hdiv|]. split; [apply Hloc, Hdiv|]. split; [discriminate|].
      intros locs' bm' [= <-] Hb'. assert (bm' = bm) as -> by congruence. split.
      { intros Hn. exfalso. by apply (Hexcl k). }
      intros k' rd' Hk' Hrd'.
      assert (k' = k) as -> by (by apply Huniq).
      assert (rd' = rd) as -> by congruence.
      split.
      { intros Hn. pose proof (proj2 (nothing_after_min bm t) Hn). congruence. }
      intros k2 Hk2. pose proof (proj2 (least_after_min bm t k2) Hk2). congruence.
    + split; [done|]. split; [by apply Hloc|]. split; [discriminate|].
      intros locs' bm' [= <-] Hb'. assert (bm' = bm) as -> by congruence. split.
      { intros Hn. exfalso. by apply (Hexcl k). }
      intros k' rd' Hk' Hrd'. split; [done|].
      intros k2 Hk2. pose proof (proj2 (least_after_min bm t k2) Hk2). congruence.
  - rewrite (get_location_rd_nothing self (Some b) (Some t) c locs bm Hl Hb Hno).
    split; [done|]. split; [by apply Hloc|]. split; [discriminate|].
    intros locs' bm' [= <-] Hb'. assert (bm' = bm) as -> by congruence.
    split; [done|].
    intros k rd Hk _. exfalso. by apply (Hexcl k).
Qed.

(** Half way through the portal of the sample trunk the progress is
    0.5; at the place A, at tick 0, the call returns 0 all the same;
    and half way through a wait of 2^63 ticks it is 0.5 again. *)
Lemma get_progress_cases_witness :
  ThingQueries.get_progress "T" (Some 0) (Some 51) (world trunk_A_to_B 0 0 0 101)
    = Returns 0.5%float (world trunk_A_to_B 0 0 0 101)
  ∧ ThingQueries.get_progress "T" None None (world trunk_A_to_B 0 0 0 101)
    = Returns 0%float (world trunk_A_to_B 0 0 0 101)
  ∧ ThingQueries.get_progress "T" None None long_wait = Returns 0.5%float long_wait.
Proof.
  pose (bm := ({[ 0 := row 0 0 "A"; 1 := row 0 1 "Portal(A->B)";
                  101 := row 0 101 "B" ]} : gmap Z loc_rd)).
  split; [|split].
  - destruct (get_progress_cases "T" (Some 0) (Some 51) (world trunk_A_to_B 0 0 0 101))
      as (_ & _ & _ & H).
    destruct (H trunk_A_to_B bm eq_refl eq_refl) as [_ H'].
    destruct (H' 1 (row 0 1 "Portal(A->B)")) as [_ H''].
    + apply (bool_decide_unpack (greatest_at_or_before _ _ _)). vm_compute. exact I.
    + vm_compute. reflexivity.
    + rewrite (H'' 101).
      * vm_compute. reflexivity.
      * apply (bool_decide_unpack (least_after _ _ _)). vm_compute. exact I.
  - destruct (get_progress_cases "T" None None (world trunk_A_to_B 0 0 0 101))
      as (_ & _ & _ & H).
    destruct (H trunk_A_to_B bm eq_refl eq_refl) as [_ H'].
    destruct (H' 0 (row 0 0 "A")) as [_ H''].
    + apply (bool_decide_unpack (greatest_at_or_before _ _ _)). vm_compute. exact I.
    + vm_compute. reflexivity.
    + rewrite (H'' 1).
      * vm_compute. reflexivity.
      * apply (bool_decide_unpack (least_after _ _ _)). vm_compute. exact I.
  - destruct (get_progress_cases "T" None None long_wait) as (_ & _ & _ & H).
    destruct (H {[ 0 := {[ 0 := row 0 0 "A"; 2 ^ 63 := row 0 (2 ^ 63) "B" ]} ]}
                {[ 0 := row 0 0 "A"; 2 ^ 63 := row 0 (2 ^ 63) "B" ]}
                eq_refl eq_refl) as [_ H'].
    destruct (H' 0 (row 0 0 "A")) as [_ H''].
    + apply (bool_decide_unpack (greatest_at_or_before _ _ _)). vm_compute. exact I.
    + vm_compute. reflexivity.
    + rewrite (H'' (2 ^ 63)).
      * vm_compute. reflexivity.
      * apply (bool_decide_unpack (least_after _ _ _)). vm_compute. exact I.
Defined.

(** ** [new_branch] of a thing whose [new_branch_blank] is set *)

Section Blank.
Context (dim : Dimension).

Lemma get_location_at self b t c :
  Thing.get_location dim self (Some b) (Some t) c
  = Ok (location_at dim self b t c) c.
Proof.
  unfold location_at.
  destruct (get_location_total dim self (Some b) (Some t) c) as [r E].
  by rewrite E.
Qed.

(** Creating an empty branch does not change what is read in another. *)
Lemma location_at_create self parent b t c locs :
  thing_location (skeleton c) !! self = Some locs →
  locs !! b = None → is_Some (locs !! parent) →
  location_at dim self parent t
    (set_skeleton (set_thing_location (<[self := <[b := ∅]> locs]>)) c)
  = location_at dim self parent t c.
Proof.
  intros Hl Hb [pm Hp]. unfold location_at.
  rewrite !get_location_eval, !get_location_rd_eval. simpl.
  rewrite lookup_insert_eq, Hl.
  rewrite lookup_insert_ne by congruence. rewrite Hp.
  destruct (if decide (is_Some (pm !! t)) then Some t else Skel.key_before pm t)
    as [k|]; [|done].
  by destruct (pm !! k).
Qed.

(** With [new_branch_blank] set, [new_branch] is one [set_location],
    in the closet in which the branch exists. *)
Lemma new_branch_blank_eval self parent b t c locs pm :
  thingdict c !! self = Some true →
  thing_location (skeleton c) !! self = Some locs →
  locs !! parent = Some pm →
  let locs1 := if decide (is_Some (locs !! b)) then locs else <[b := ∅]> locs in
  let c1 := if decide (is_Some (locs !! b)) then c
            else set_skeleton (set_thing_location (<[self := <[b := ∅]> locs]>)) c in
  thing_location (skeleton c1) !! self = Some locs1
  ∧ thingdict c1 = thingdict c
  ∧ locs1 !! parent = Some pm
  ∧ default ∅ (locs1 !! b) = default ∅ (locs !! b)
  ∧ (∀ bm, <[b := bm]> locs1 = <[b := bm]> locs)
  ∧ (∀ t', location_at dim self parent t' c1 = location_at dim self parent t' c)
  ∧ Thing.new_branch dim self parent b t c =
    (match location_at dim self parent t c with
     | Some (InPortal _) =>
         locs ← Thing.locations self;
         pm ← Thing.getitem locs parent;
         t ← Thing.key_after pm t;
         start_loc ← Thing.get_location dim self (Some parent) (Some t);
         Thing.set_location dim self (str_or_None location_str start_loc)
           (Some b) (Some t)
     | start_loc =>
         Thing.set_location dim self (str_or_None location_str start_loc)
           (Some b) (Some t)
     end) c1.
Proof.
  intros Htd Hl Hp locs1 c1.
  assert (thing_location (skeleton c1) !! self = Some locs1) as Hl1.
  { subst c1 locs1. case_decide; [done|]. simpl. apply lookup_insert_eq. }
  assert (thingdict c1 = thingdict c) as Htd1 by (subst c1; by case_decide).
  assert (locs1 !! parent = Some pm) as Hp1.
  { subst locs1. case_decide as Hb; [done|].
    rewrite lookup_insert_ne; [done|]. intros <-. apply Hb. by eexists. }
  assert (default ∅ (locs1 !! b) = default ∅ (locs !! b)) as Hb1.
  { subst locs1. case_decide as Hb; [done|]. rewrite lookup_insert_eq.
    destruct (locs !! b) eqn:E; [|done]. exfalso. apply Hb. by eexists. }
  assert (∀ bm, <[b := bm]> locs1 = <[b := bm]> locs) as Hins.
  { intros bm. subst locs1. case_decide; [done|]. apply insert_insert_eq. }
  assert (∀ t', location_at dim self parent t' c1 = location_at dim self parent t' c)
    as Hat.
  { intros t'. subst c1. case_decide as Hb; [done|].
    apply location_at_create; [done| |by eexists].
    destruct (locs !! b) eqn:E; [|done]. exfalso. apply Hb. by eexists. }
  repeat (split; [done|]).
  unfold Thing.new_branch.
  erewrite bind_Ok; [|unfold Thing.locations; by rewrite Hl].
  erewrite (bind_Ok _ _ c tt c1).
  2:{ subst c1. case_decide; [done|]. unfold Thing.set_locations. by munfold. }
  erewrite (bind_Ok _ _ c1 true c1); [|unfold gets; by rewrite Htd1, Htd].
  cbv beta iota.
  erewrite bind_Ok; [|apply get_location_at]. rewrite Hat.
  by destruct (location_at dim self parent t c) as [[| |]|].
Qed.

(** X8: with [new_branch_blank] set, [new_branch] copies no row of the
    parent.  It writes one row into the branch: the [str] of the
    thing's location in the parent at [tick], filed at [tick]; or, for
    a thing in a portal at [tick], the [str] of its location at the
    parent's next fact, filed at that fact's tick.  When a thing in a
    portal has no later fact the call raises [KeyError], after the
    branch has been created. *)
Theorem new_branch_blank self parent b t c locs pm :
  thingdict c !! self = Some true →
  thing_location (skeleton c) !! self = Some locs →
  locs !! parent = Some pm →
  let start :=
    match location_at dim self parent t c with
    | Some (InPortal _) => Skel.key_after pm t
    | _ => Some t
    end in
  match start with
  | Some t' =>
      ∃ c', Thing.new_branch dim self parent b t c = Ok tt c'
        ∧ thing_location (skeleton c') !! self = Some
            (<[b := <[t' := {| rd_dimension := dim_name dim;
                              rd_thing := self;
                              rd_branch := b;
                              rd_tick_from := t';
                              rd_location := Some (str_or_None location_str
                                (location_at dim self parent t' c)) |}]>
                      (default ∅ (locs !! b))]> locs)
  | None =>
      ∃ c', Thing.new_branch dim self parent b t c = Raise KeyError c'
        ∧ thing_location (skeleton c') !! self = Some
            (if decide (is_Some (locs !! b)) then locs else <[b := ∅]> locs)
  end.
Proof.
  intros Htd Hl Hp start.
  destruct (new_branch_blank_eval self parent b t c locs pm Htd Hl Hp)
    as (Hl1 & Htd1 & Hp1 & Hb1 & Hins & Hat & Hrun).
  set (locs1 := if decide (is_Some (locs !! b)) then locs else <[b := ∅]> locs) in *.
  set (c1 := if decide (is_Some (locs !! b)) then c
             else set_skeleton (set_thing_location (<[self := <[b := ∅]> locs]>)) c)
    in *.
  assert (∀ t' l, ∃ c',
    Thing.set_location dim self l (Some b) (Some t') c1 = Ok tt c'
    ∧ thing_location (skeleton c') !! self = Some
        (<[b := <[t' := {| rd_dimension := dim_name dim; rd_thing := self;
                          rd_branch := b; rd_tick_from := t';
                          rd_location := Some l |}]>
                  (default ∅ (locs !! b))]> locs)) as Hset.
  { intros t' l. eexists. split.
    - apply (set_location_Ok dim self l (Some b) (Some t') c1 locs1 Hl1).
    - simpl. rewrite lookup_insert_eq, Hb1, Hins. done. }
  subst start. rewrite Hrun.
  destruct (location_at dim self parent t c) as [[pl|po|th]|] eqn:Hcur;
    cbv beta iota; [rewrite Hcur; apply Hset| |rewrite Hcur; apply Hset..].
  destruct (Skel.key_after pm t) as [t'|] eqn:Hka.
  - destruct (Hset t' (str_or_None location_str (location_at dim self parent t' c)))
      as (c' & Hrun' & Htl).
    exists c'. split; [|exact Htl]. rewrite <- Hrun'.
    erewrite bind_Ok; [|unfold Thing.locations; by rewrite Hl1].
    erewrite bind_Ok; [|unfold Thing.getitem; by rewrite Hp1].
    erewrite bind_Ok; [|unfold Thing.key_after; by rewrite Hka].
    erewrite bind_Ok; [|apply get_location_at]. by rewrite Hat.
  - exists c1. split; [|exact Hl1].
    erewrite bind_Ok; [|unfold Thing.locations; by rewrite Hl1].
    erewrite bind_Ok; [|unfold Thing.getitem; by rewrite Hp1].
    erewrite bind_Raise; [done|]. unfold Thing.key_after. by rewrite Hka.
Qed.
End Blank.

(** Forked at tick 50, half way through the portal, the blank branch
    holds one row: B, at the tick of arrival. *)
Lemma new_branch_blank_witness :
  ∃ c', Thing.new_branch Physical "T" 0 1 50 blank_in_portal = Ok tt c'
    ∧ thing_location (skeleton c') !! "T"
      = Some (<[1 := {[ 101 := row 1 101 "B" ]}]> trunk_A_to_B).
Proof.
  exact (new_branch_blank Physical "T" 0 1 50 blank_in_portal trunk_A_to_B
           {[ 0 := row 0 0 "A"; 1 := row 0 1 "Portal(A->B)"; 101 := row 0 101 "B" ]}
           eq_refl eq_refl eq_refl).
Defined.

(** ** The watermarks and the clock of the closet *)

Lemma uptick_bone_is_max_frame ob otf ott c :
  let hb := hi_branch (timestream c) in
  let ht := hi_tick (timestream c) in
  ∃ c', Closet.uptick_bone ob otf ott c = Ok tt c'
    ∧ hi_branch (timestream c') = Z.max hb (default hb ob)
    ∧ hi_tick (timestream c') = Z.max ht (Z.max (default ht otf) (default ht ott))
    ∧ skeleton c' = skeleton c ∧ old_skeleton c' = old_skeleton c
    ∧ thingdict c' = thingdict c.
Proof.
  destruct c as [sk osk td [hb ht] h u]. simpl.
  unfold Closet.uptick_bone.
  destruct ob as [b|], otf as [tf|], ott as [tt'|]; munfold; simpl;
    unfold set_timestream; simpl;
    repeat (case_decide; simpl);
    eexists; (split; [reflexivity|]); simpl;
    repeat (split; [first [reflexivity | lia]|]); reflexivity.
Qed.

(** X9: [uptick_bone] raises each watermark to the greatest of its
    value and the bone's [branch], respectively [tick_from] and
    [tick_to], changes nothing else, and has nothing left to do when it
    is called again on the same bone. *)
Theorem uptick_bone_is_max ob otf ott c :
  let hb := hi_branch (timestream c) in
  let ht := hi_tick (timestream c) in
  ∃ c', Closet.uptick_bone ob otf ott c = Ok tt c'
    ∧ hi_branch (timestream c') = Z.max hb (default hb ob)
    ∧ hi_tick (timestream c') = Z.max ht (Z.max (default ht otf) (default ht ott))
    ∧ skeleton c' = skeleton c ∧ old_skeleton c' = old_skeleton c
    ∧ thingdict c' = thingdict c
    ∧ time_travel_history c' = time_travel_history c
    ∧ updating c' = updating c
    ∧ Closet.uptick_bone ob otf ott c' = Ok tt c'.
Proof.
  destruct c as [sk osk td [hb ht] h u]. simpl.
  unfold Closet.uptick_bone.
  destruct ob as [b|], otf as [tf|], ott as [tt'|]; munfold; simpl;
    unfold set_timestream; simpl;
    repeat (case_decide; simpl);
    eexists; (split; [reflexivity|]); simpl;
    repeat (split; [first [reflexivity | lia]|]);
    repeat (case_decide; simpl); first [reflexivity | lia].
Qed.

Section Clock.
Context (dim : Dimension).

(** Travel within the branches already known is a move of the cursor. *)
Lemma time_travel_known b t c :
  b ≤ hi_branch (timestream c) →
  Closet.time_travel dim b t c = Closet.move_cursor b t c.
Proof.
  intros Hle. unfold Closet.time_travel. munfold.
  rewrite decide_False by lia. by rewrite decide_False by lia.
Qed.

(** The cursor's move leaves the baseline and the things' flags alone. *)
Lemma move_cursor_keeps b t c :
  old_skeleton (state_of (Closet.move_cursor b t c)) = old_skeleton c
  ∧ thingdict (state_of (Closet.move_cursor b t c)) = thingdict c.
Proof.
  unfold Closet.move_cursor, TS.min_tick, Closet.upd_branch, Closet.upd_tick.
  munfold. simpl.
  destruct (decide (t < 0)); simpl; destruct (TS.min_list _); simpl;
    repeat (case_decide; simpl); done.
Qed.

(** X10: [update] does nothing while the clock is stopped.  While it
    runs, with the cursor on a known branch, it moves the cursor along
    its branch by [game_speed] ticks, not below tick 0 nor below the
    first tick that has data in the branch, records where the cursor
    was, touches no location, and stops the clock when the speed would
    take the cursor below tick 0. *)
Theorem update_advances game_speed c :
  (updating c = false → Clock.update dim game_speed c = Ok tt c)
  ∧ (updating c = true → branch c ≤ hi_branch (timestream c) →
     ∃ c', Clock.update dim game_speed c = Ok tt c'
       ∧ branch c' = branch c
       ∧ tick c' = clamp_tick (tick c + game_speed)
                     (TS.min_list (TS.branch_ticks (thing_location (skeleton c))
                                     (branch c)))
       ∧ time_travel_history c' = time_travel_history c ++ [(branch c, tick c)]
       ∧ thing_location (skeleton c') = thing_location (skeleton c)
       ∧ old_skeleton c' = old_skeleton c
       ∧ updating c' = bool_decide (0 ≤ tick c + game_speed)).
Proof.
  unfold Clock.update. split.
  - intros Hu. unfold mbind, M_bind, gets. by rewrite Hu.
  - intros Hu Hle. unfold mbind at 1. unfold M_bind, gets. rewrite Hu.
    unfold Closet.time_travel_inc_tick. munfold.
    rewrite time_travel_known by done.
    pose proof (move_cursor_keeps (branch c) (tick c + game_speed) c) as [Hold _].
    destruct (move_cursor_Ok (branch c) (tick c + game_speed) c)
      as (c' & E & Hb & Ht & Hh & _ & _ & Htl & _ & Hup).
    rewrite E in Hold. exists c'. repeat (split; [done|]).
    rewrite Hup, Hu. case_decide.
    + by rewrite bool_decide_eq_false_2 by lia.
    + by rewrite bool_decide_eq_true_2 by lia.
Qed.

(** X11: [back_to_start], with the cursor on a known branch, stops the
    clock and puts the cursor of the same branch on the first tick that
    has data there, or on tick 0 when that is later or the branch has
    none; the place it left is recorded and no location is touched. *)
Theorem back_to_start_rewinds c :
  branch c ≤ hi_branch (timestream c) →
  ∃ c', Clock.back_to_start dim c = Ok tt c'
    ∧ updating c' = false
    ∧ branch c' = branch c
    ∧ tick c' = match TS.min_list (TS.branch_ticks (thing_location (skeleton c))
                                     (branch c)) with
                | Some m => Z.max 0 m
                | None => 0
                end
    ∧ time_travel_history c' = time_travel_history c ++ [(branch c, tick c)]
    ∧ thing_location (skeleton c') = thing_location (skeleton c).
Proof.
  intros Hle. unfold Clock.back_to_start, Clock.stop. munfold.
  set (c0 := set_updating false c).
  assert (Closet.time_travel dim (branch c0) 0 c0 = Closet.move_cursor (branch c) 0 c0)
    as -> by (by rewrite time_travel_known).
  destruct (move_cursor_Ok (branch c) 0 c0)
    as (c' & E & Hb & Ht & Hh & _ & _ & Htl & _ & Hup).
  exists c'. split; [done|]. split; [by rewrite Hup|]. split; [done|].
  split; [|by split].
  rewrite Ht. unfold clamp_tick. simpl.
  destruct (TS.min_list _); lia.
Qed.

(** X12: [increment_branch] never moves the cursor.  It returns
    [branch + branches] with the closet untouched when that branch is
    known; otherwise, however far it was asked to go, it makes the
    branch next to the cursor's, registers it in the timestream table
    with the cursor's branch as parent, and returns that branch. *)
Theorem increment_branch_cases branches c :
  (branch c + branches ≤ hi_branch (timestream c) →
   Closet.increment_branch dim branches c = Ok (branch c + branches) c)
  ∧ (hi_branch (timestream c) < branch c + branches →
     match Closet.increment_branch dim branches c with
     | Ok r c1 =>
         r = branch c + 1
         ∧ Closet.new_branch dim (branch c) (branch c + 1) (tick c) c = Ok tt c1
         ∧ branch c1 = branch c ∧ tick c1 = tick c
         ∧ time_travel_history c1 = time_travel_history c
         ∧ timestream_tab (skeleton c1) !! (branch c + 1)
           = Some {| tb_branch := branch c + 1; tb_parent := branch c |}
     | Raise e c1 =>
         Closet.new_branch dim (branch c) (branch c + 1) (tick c) c = Raise e c1
         ∧ branch c1 = branch c ∧ tick c1 = tick c
     end).
Proof.
  unfold Closet.increment_branch, TS.max_branch. munfold. split; intros Hb.
  - by rewrite decide_False by lia.
  - rewrite decide_True by lia.
    pose proof (closet_new_branch_registers dim (branch c) (branch c + 1) (tick c) c)
      as Hreg.
    destruct (Closet.new_branch dim (branch c) (branch c + 1) (tick c) c)
      as [[] c1|e c1].
    + destruct Hreg as (? & ? & ? & _ & ?). done.
    + destruct Hreg as (? & ? & _). done.
Qed.

(** X13: asked to go further than the branch after the highest known
    one, [time_travel_inc_branch] raises [TimestreamException] only
    after [increment_branch] has made and registered the branch next to
    the cursor's: the failed call leaves that branch behind, and the
    cursor where it was. *)
Theorem time_travel_inc_branch_too_far branches c c1 :
  Closet.new_branch dim (branch c) (branch c + 1) (tick c) c = Ok tt c1 →
  hi_branch (timestream c1) + 1 < branch c + branches →
  Closet.time_travel_inc_branch dim branches c = Raise TimestreamException c1
  ∧ branch c1 = branch c ∧ tick c1 = tick c
  ∧ timestream_tab (skeleton c1) !! (branch c + 1)
    = Some {| tb_branch := branch c + 1; tb_parent := branch c |}.
Proof.
  intros Hnew Hfar.
  pose proof (closet_new_branch_registers dim (branch c) (branch c + 1) (tick c) c)
    as Hreg.
  pose proof (keeps_frame_closet_new_branch dim (branch c) (branch c + 1) (tick c) c)
    as Hfr.
  rewrite Hnew in Hreg, Hfr. destruct Hreg as (Hb & Ht & _ & _ & Htab).
  destruct Hfr as [_ _ _ _ Hhb _]. simpl in Hhb.
  split; [|done].
  unfold Closet.time_travel_inc_branch, Closet.increment_branch, TS.max_branch.
  munfold. rewrite decide_True by lia. rewrite Hnew.
  unfold Closet.time_travel. munfold. rewrite Hb.
  by rewrite decide_True by lia.
Qed.
End Clock.

(** With the clock running at speed 5 from tick 7 the cursor is at tick
    12 after an update, and the clock still runs; at speed -10 it is at
    tick 0, the clock stopped. *)
Lemma update_advances_witness :
  (∃ c', Clock.update Physical 5 clock_running = Ok tt c'
     ∧ tick c' = 12 ∧ updating c' = true)
  ∧ (∃ c', Clock.update Physical (-10) clock_running = Ok tt c'
       ∧ tick c' = 0 ∧ updating c' = false).
Proof.
  split.
  - destruct (proj2 (update_advances Physical 5 clock_running))
      as (c' & E & _ & Ht & _ & _ & _ & Hu); [reflexivity|vm_compute; discriminate|].
    exists c'. split; [exact E|]. split; [rewrite Ht|rewrite Hu]; vm_compute; reflexivity.
  - destruct (proj2 (update_advances Physical (-10) clock_running))
      as (c' & E & _ & Ht & _ & _ & _ & Hu); [reflexivity|vm_compute; discriminate|].
    exists c'. split; [exact E|]. split; [rewrite Ht|rewrite Hu]; vm_compute; reflexivity.
Defined.

Lemma back_to_start_rewinds_witness :
  ∃ c', Clock.back_to_start Physical late_start = Ok tt c'
    ∧ updating c' = false ∧ tick c' = 3.
Proof.
  destruct (back_to_start_rewinds Physical late_start)
    as (c' & E & Hu & _ & Ht & _); [vm_compute; discriminate|].
  exists c'. split; [exact E|]. split; [exact Hu|]. rewrite Ht.
  vm_compute. reflexivity.
Defined.

Lemma increment_branch_cases_witness :
  Closet.increment_branch Physical 0 late_start = Ok 0 late_start
  ∧ ∃ c1, Closet.increment_branch Physical 5 late_start = Ok 1 c1.
Proof.
  split.
  - apply (proj1 (increment_branch_cases Physical 0 late_start)).
    vm_compute. discriminate.
  - pose proof (proj2 (increment_branch_cases Physical 5 late_start)) as H.
    destruct (Closet.increment_branch Physical 5 late_start) as [r c1|e c1] eqn:E.
    + destruct H as [-> _]; [vm_compute; reflexivity|]. by exists c1.
    + exfalso. vm_compute in E. discriminate.
Defined.

Lemma time_travel_inc_branch_too_far_witness :
  ∃ c1, Closet.time_travel_inc_branch Physical 3 late_start
        = Raise TimestreamException c1
    ∧ timestream_tab (skeleton c1) !! 1 = Some {| tb_branch := 1; tb_parent := 0 |}.
Proof.
  eexists.
  destruct (time_travel_inc_branch_too_far Physical 3 late_start _
              ltac:(vm_compute; reflexivity)) as (E & _ & _ & Htab).
  - vm_compute. reflexivity.
  - split; [exact E|exact Htab].
Defined.

(** ** [uptick_skel] *)

Lemma uptick_skel_step bones : ∀ c,
  ∃ c', Clock.uptick_skel bones c = Ok tt c'
    ∧ skeleton c' = skeleton c ∧ old_skeleton c' = old_skeleton c
    ∧ thingdict c' = thingdict c
    ∧ hi_branch (timestream c') =
        foldl (λ h bone, Z.max h (default h bone.1.1)) (hi_branch (timestream c)) bones
    ∧ hi_tick (timestream c') =
        foldl (λ h bone, Z.max h (Z.max (default h bone.1.2) (default h bone.2)))
          (hi_tick (timestream c)) bones.
Proof.
  unfold Clock.uptick_skel.
  induction bones as [|[[ob otf] ott] bones IH]; intros c.
  { exists c. done. }
  cbn [for_each foldl fst snd].
  destruct (uptick_bone_is_max_frame ob otf ott c)
    as (c1 & E & Hb & Ht & Hsk & Hold & Htd).
  erewrite bind_Ok; [|exact E].
  destruct (IH c1) as (c' & E' & Hsk' & Hold' & Htd' & Hb' & Ht').
  exists c'. split; [done|].
  rewrite Hsk', Hold', Htd', Hb', Ht', Hb, Ht. done.
Qed.

Lemma foldl_max_le {A} (f : Z → A → Z) (l : list A) :
  (∀ h a, h ≤ f h a) → ∀ h, h ≤ foldl f h l.
Proof.
  intros Hf. induction l as [|a l IH]; intros h; simpl; [lia|].
  specialize (IH (f h a)). specialize (Hf h a). lia.
Qed.

(** X20: [uptick_skel] returns with the skeleton as it was and the
    watermarks raised, never lowered, so that they cover every bone it
    was given: no bone's [branch] is above [hi_branch], and no bone's
    [tick_from] or [tick_to] above [hi_tick]. *)
Theorem uptick_skel_covers bones c :
  ∃ c', Clock.uptick_skel bones c = Ok tt c'
    ∧ skeleton c' = skeleton c
    ∧ hi_branch (timestream c) ≤ hi_branch (timestream c')
    ∧ hi_tick (timestream c) ≤ hi_tick (timestream c')
    ∧ Forall (λ bone : option Z * option Z * option Z,
        (∀ b, bone.1.1 = Some b → b ≤ hi_branch (timestream c'))
        ∧ (∀ t, bone.1.2 = Some t → t ≤ hi_tick (timestream c'))
        ∧ (∀ t, bone.2 = Some t → t ≤ hi_tick (timestream c'))) bones.
Proof.
  destruct (uptick_skel_step bones c) as (c' & E & Hsk & _ & _ & Hb & Ht).
  exists c'. split; [done|]. split; [done|].
  rewrite Hb, Ht. clear. split; [|split].
  - apply foldl_max_le. intros. lia.
  - apply foldl_max_le. intros. lia.
  - generalize (hi_branch (timestream c)) (hi_tick (timestream c)).
    induction bones as [|[[ob otf] ott] bones IH]; intros hb ht; [constructor|].
    cbn [foldl fst snd]. constructor; [|apply IH].
    cbn [fst snd].
    split; [|split]; intros x ->; cbn [default].
    + apply (Z.le_trans _ (Z.max hb x)); [lia|]. apply foldl_max_le. intros. lia.
    + apply (Z.le_trans _ (Z.max ht (Z.max x (default ht ott)))); [lia|].
      apply foldl_max_le. intros. lia.
    + apply (Z.le_trans _ (Z.max ht (Z.max (default ht otf) x))); [lia|].
      apply foldl_max_le. intros. lia.
Qed.

(** ** What [portex] matches *)

Lemma strip_prefix_Some p : ∀ l r, strip_prefix p l = Some r → l = p ++ r.
Proof.
  induction p as [|a p IH]; intros l r E; simpl in E.
  { by injection E as ->. }
  destruct l as [|a' l]; [discriminate|].
  destruct (Ascii.eqb_spec a a') as [<-|]; [|discriminate].
  simpl. f_equal. by apply IH.
Qed.

(** A match of [.+] followed by [k] splits the text into a group that
    is not empty and holds no newline, and a rest that [k] matches. *)
Lemma dot_plus_Some {A} (k : list ascii → option A) : ∀ l g r,
  dot_plus k l = Some (g, r) →
  g ≠ [] ∧ Forall (λ a, is_newline a = false) g
  ∧ ∃ l', l = g ++ l' ∧ k l' = Some r.
Proof.
  induction l as [|a l IH]; intros g r E; [discriminate|].
  rewrite dot_plus_cons in E.
  destruct (is_newline a) eqn:Ha; [discriminate|].
  destruct (dot_plus k l) as [[g' r']|] eqn:Hd.
  - injection E as <- <-.
    destruct (IH g' r' eq_refl) as (_ & Hnl & l' & -> & Hk).
    split; [done|]. split; [by constructor|]. by exists l'.
  - destruct (k l) as [r'|] eqn:Hk; [|discriminate].
    injection E as <- <-. split; [done|]. split; [by repeat constructor|].
    by exists l.
Qed.

Lemma string_of_list_ascii_app l1 l2 :
  string_of_list_ascii (l1 ++ l2)
  = string_of_list_ascii l1 +:+ string_of_list_ascii l2.
Proof. induction l1 as [|a l1 IH]; simpl; [done|]. by rewrite IH. Qed.

(** X14: [portex] matches nothing but portal names.  When
    [match(portex, s)] gives the groups [(o, d)], the string is
    [Portal(o->d)], possibly with more text behind it, and neither group
    is empty or holds a newline.  That is all it takes: whatever is
    stored under such a name, place or thing, [get_location] answers
    with the portal from [o] to [d]. *)
Theorem portex_match_sound s o d :
  portex_match s = Some (o, d) →
  (∃ rest, s = "Portal(" +:+ o +:+ "->" +:+ d +:+ ")" +:+ rest)
  ∧ plain_name o ∧ plain_name d
  ∧ ∀ dim td, named dim td s = InPortal (get_portal dim o d).
Proof.
  intros E. split; [|split; [|split]].
  4:{ intros dim td. unfold named. by rewrite E. }
  all: unfold portex_match in E.
  all: destruct (strip_prefix (list_ascii_of_string "Portal(") (list_ascii_of_string s))
         as [rest|] eqn:Hpre; [|discriminate].
  all: cbn [mbind option_bind] in E.
  all: destruct (dot_plus _ rest) as [[g1 [g2 r]]|] eqn:Hd; [|discriminate].
  all: injection E as <- <-.
  all: apply strip_prefix_Some in Hpre.
  all: apply dot_plus_Some in Hd as (Hg1 & Hnl1 & l1 & -> & Hk).
  all: destruct (strip_prefix (list_ascii_of_string "->") l1) as [r2|] eqn:Harrow;
         [|discriminate].
  all: cbn [mbind option_bind] in Hk.
  all: apply strip_prefix_Some in Harrow as ->.
  all: apply dot_plus_Some in Hk as (Hg2 & Hnl2 & l2 & -> & Hclose).
  all: apply strip_prefix_Some in Hclose as ->.
  - exists (string_of_list_ascii r).
    rewrite <- (string_of_list_ascii_of_string s), Hpre.
    rewrite !string_of_list_ascii_app.
    by rewrite !string_of_list_ascii_of_string.
  - split.
    + intros E. apply Hg1. apply (f_equal list_ascii_of_string) in E.
      by rewrite list_ascii_of_string_of_list_ascii in E.
    + by rewrite list_ascii_of_string_of_list_ascii.
  - split.
    + intros E. apply Hg2. apply (f_equal list_ascii_of_string) in E.
      by rewrite list_ascii_of_string_of_list_ascii in E.
    + by rewrite list_ascii_of_string_of_list_ascii.
Qed.

Lemma portex_match_sound_witness :
  named Physical ∅ "Portal(A->B) and more" = InPortal (portal_of "A" "B").
Proof.
  apply (portex_match_sound "Portal(A->B) and more" "A" "B").
  vm_compute. reflexivity.
Defined.

(** X15: the name [str(portal)] that [set_location] and [follow_path]
    store is read back by [portex] as the portal's two ends, for names
    that are not empty and hold no newline and a destination without a
    hyphen; so the location stored for a portal resolves to the portal
    between those ends.  The greedy first group makes the condition
    on the destination matter: the portal from A to the place "B->C" is
    read back as the portal from "A->B" to C. *)
Theorem portal_name_read_back po :
  plain_name (origin po) → plain_name (destination po) →
  Forall (λ a, a ≠ "-"%char) (list_ascii_of_string (destination po)) →
  (∀ dim td, named dim td (portal_str po)
             = InPortal (get_portal dim (origin po) (destination po)))
  ∧ portex_match (portal_str {| origin := "A"; destination := "B->C";
                                portal_len := 1 |})
    = Some ("A->B", "C").
Proof.
  intros Ho Hd Hh. split; [|vm_compute; reflexivity].
  intros dim td. unfold named.
  by rewrite (portex_match_portal_str po Ho Hd Hh).
Qed.

Lemma portal_name_read_back_witness :
  named Physical ∅ (portal_str (portal_of "A" "B")) = InPortal (portal_of "A" "B").
Proof.
  apply (portal_name_read_back (portal_of "A" "B")).
  - split; [discriminate|]. vm_compute. repeat constructor.
  - split; [discriminate|]. vm_compute. repeat constructor.
  - vm_compute. repeat constructor; discriminate.
Defined.

(** ** Journeys that go through, and journeys that cannot start *)

Section Journeys.
Context (dim : Dimension).

Lemma journey_to_default self destplace ob ot c :
  Travel.journey_to dim self destplace ob ot c =
  Travel.journey_to dim self destplace (Some (default (branch c) ob))
    (Some (default (tick c) ot)) c.
Proof. destruct ob, ot; reflexivity. Qed.

Lemma set_location_keeps self loc ob ot c :
  thingdict (state_of (Thing.set_location dim self loc ob ot c)) = thingdict c
  ∧ timestream_tab (skeleton (state_of (Thing.set_location dim self loc ob ot c)))
    = timestream_tab (skeleton c).
Proof.
  destruct (thing_location (skeleton c) !! self) as [locs|] eqn:Hl.
  - by rewrite (set_location_Ok dim self loc ob ot c locs Hl).
  - by rewrite set_location_Raise.
Qed.

Lemma follow_steps_keeps self b path : ∀ s c,
  thingdict (state_of (Thing.follow_steps dim self path b s c)) = thingdict c
  ∧ timestream_tab (skeleton (state_of (Thing.follow_steps dim self path b s c)))
    = timestream_tab (skeleton c).
Proof.
  induction path as [|po path IH]; intros s c; [done|].
  cbn [Thing.follow_steps]. unfold mbind, M_bind.
  pose proof (set_location_keeps self (portal_str po) (Some b) (Some s) c) as [H1 H1'].
  destruct (Thing.set_location dim self (portal_str po) (Some b) (Some s) c)
    as [[] c1|e c1]; [|done]. simpl in H1, H1'.
  pose proof (set_location_keeps self (destination po) (Some b)
                (Some (s + Thing.get_ticks_thru po)) c1) as [H2 H2'].
  destruct (Thing.set_location dim self (destination po) (Some b) _ c1)
    as [[] c2|e c2]; [|simpl in *; split; congruence]. simpl in H2, H2'.
  destruct (IH (s + Thing.get_ticks_thru po + 1) c2) as [H3 H3'].
  split; congruence.
Qed.

(** [follow_path] on a branch with nothing after the starting tick. *)
Lemma follow_path_free self path b t c locs :
  thing_location (skeleton c) !! self = Some locs →
  ¬ fact_after c self b t →
  ∃ c', Thing.follow_path dim self path b t c = Ok tt c'
    ∧ thingdict c' = thingdict c
    ∧ timestream_tab (skeleton c') = timestream_tab (skeleton c)
    ∧ thing_location (skeleton c') =
        match path with
        | [] => thing_location (skeleton c)
        | _ => <[self := <[b := write_facts dim self b
                                   (scheduled_facts Thing.get_ticks_thru path (t + 1))
                                   (default ∅ (locs !! b))]> locs]>
                 (thing_location (skeleton c))
        end.
Proof.
  intros Hl Hno. unfold Thing.follow_path.
  erewrite bind_Ok.
  - destruct (follow_steps_schedule dim self b path (t + 1) c locs Hl)
      as (c' & Hrun & Htl).
    exists c'. split; [done|].
    pose proof (follow_steps_keeps self b path (t + 1) c) as H.
    rewrite Hrun in H. destruct H. done.
  - eapply follow_path_guard_passes; [done|].
    intros bm Hb j x Hj. destruct (decide (j ≤ t)) as [|Hgt]; [done|].
    exfalso. apply Hno. exists locs, bm, j. split; [done|]. split; [done|].
    split; [by eexists|lia].
Qed.

(** X16: a journey from a place, on a branch with nothing after the
    starting tick.  [journey_to] hands the name of the thing's location
    to the path search and, for the path that [find_path] picks, writes
    the schedule of [follow_path] from the tick after the start; the
    cursor, the history and the baseline stay as they were. *)
Theorem journey_to_schedules self destplace ob ot c locs ipath path :
  let b := default (branch c) ob in
  let t := default (tick c) ot in
  let oloc := str_or_None location_str (location_at dim self b t c) in
  thing_location (skeleton c) !! self = Some locs →
  is_Some (locs !! b) →
  portex_match oloc = None →
  get_shortest_paths dim oloc (place_name destplace) = Some ipath →
  Travel.find_path dim ipath destplace c = Ok (Some path) c →
  ¬ fact_after c self b t →
  ∃ c', Travel.journey_to dim self destplace ob ot c = Ok tt c'
    ∧ frame c c'
    ∧ thingdict c' = thingdict c
    ∧ thing_location (skeleton c') =
        match path with
        | [] => thing_location (skeleton c)
        | _ => <[self := <[b := write_facts dim self b
                                   (scheduled_facts Thing.get_ticks_thru path (t + 1))
                                   (default ∅ (locs !! b))]> locs]>
                 (thing_location (skeleton c))
        end.
Proof.
  intros b t oloc Hl [bm Hb] Hplace Hip Hfind Hno.
  destruct (follow_path_free self path b t c locs Hl Hno)
    as (c' & Hrun & Htd & _ & Htl).
  assert (Travel.journey_to dim self destplace ob ot c = Ok tt c') as Hj.
  { rewrite journey_to_default. fold b t. unfold Travel.journey_to.
    unfold Thing.or_branch, Thing.or_tick.
    erewrite (bind_Ok (mret b) _ c b c); [|done].
    erewrite (bind_Ok (mret t) _ c t c); [|done].
    erewrite bind_Ok; [|apply get_location_at].
    cbv zeta. fold oloc.
    erewrite bind_Ok; [|by apply journey_start_at_place].
    cbv beta iota zeta.
    erewrite bind_Ok; [|unfold Travel.shortest_paths; by rewrite Hip].
    erewrite bind_Ok; [|exact Hfind].
    cbv beta iota.
    erewrite (bind_Ok _ _ c (Skel.iterrows bm) c).
    2:{ unfold Thing.branch_loc_rds, Thing.or_branch, Thing.locations, Thing.getitem.
        munfold. by rewrite Hl, Hb. }
    unfold try_except. by rewrite Hrun. }
  exists c'. split; [done|].
  pose proof (keeps_frame_follow_path dim self path b t c) as Hfr.
  rewrite Hrun in Hfr. done.
Qed.

Lemma not_fact_after c self b t locs bm :
  thing_location (skeleton c) !! self = Some locs →
  locs !! b = Some bm → nothing_after bm t →
  ¬ fact_after c self b t.
Proof.
  intros Hl Hb Hn (locs' & bm' & k & Hl' & Hb' & [x Hk] & Hlt).
  assert (locs' = locs) as -> by congruence.
  assert (bm' = bm) as -> by congruence.
  specialize (Hn k x Hk). simpl in Hn. lia.
Qed.

(** X17: asked for a thing that is inside a portal with no later fact
    in the branch, [journey_to] raises [KeyError] from the [key_after]
    of line 214, before a path is looked for and with the closet as it
    was; the [assert] on the tick that follows is never what fails. *)
Theorem journey_to_without_arrival self destplace ob ot c locs bm o d :
  let b := default (branch c) ob in
  let t := default (tick c) ot in
  thing_location (skeleton c) !! self = Some locs →
  locs !! b = Some bm →
  portex_match (str_or_None location_str (location_at dim self b t c)) = Some (o, d) →
  nothing_after bm t →
  Travel.journey_to dim self destplace ob ot c = Raise KeyError c.
Proof.
  intros b t Hl Hb Hm Hn.
  rewrite journey_to_default. fold b t. unfold Travel.journey_to.
  unfold Thing.or_branch, Thing.or_tick.
  erewrite (bind_Ok (mret b) _ c b c); [|done].
  erewrite (bind_Ok (mret t) _ c t c); [|done].
  erewrite bind_Ok; [|apply get_location_at].
  cbv zeta.
  erewrite bind_Raise; [done|].
  unfold Travel.journey_start. rewrite Hm.
  unfold Thing.locations, Thing.getitem, Thing.key_after. munfold.
  rewrite Hl, Hb.
  assert (Skel.key_after bm t = None) as ->; [|done].
  apply key_after_None. intros j [x Hj]. exact (Hn j x Hj).
Qed.

(** X18: the [while] loop of the [TimeParadox] handler ends, within
    the turns it is given, on the first increment whose branch the
    thing has no data in: every smaller one, from 1 on, names a branch
    the thing has. *)
Theorem find_increment_least (locs : gmap Z (gmap Z loc_rd)) (b : Z) :
  let r := Travel.find_increment (S (size locs)) locs b 1 in
  1 ≤ r
  ∧ locs !! (b + r) = None
  ∧ ∀ i, 1 ≤ i < r → is_Some (locs !! (b + i)).
Proof.
  apply find_increment_free.
  pose proof (subseteq_size (filter (λ k : Z, b + 1 ≤ k) (dom locs)) (dom locs)) as H.
  rewrite size_dom in H.
  assert (filter (λ k : Z, b + 1 ≤ k) (dom locs) ⊆ dom locs) as Hsub
    by (intros k; rewrite elem_of_filter; tauto).
  specialize (H Hsub). lia.
Qed.
End Journeys.

(** The journey of the scenario: from A at tick 0 to B, one portal. *)
Lemma journey_to_schedules_witness :
  ∃ c', Travel.journey_to Physical "T" place_B None None
          (world {[ 0 := {[ 0 := row 0 0 "A" ]} ]} 0 0 0 0) = Ok tt c'
    ∧ thing_location (skeleton c') !! "T"
      = Some {[ 0 := {[ 0 := row 0 0 "A";
                        1 := row 0 1 "Portal(A->B)";
                        101 := row 0 101 "B" ]} ]}.
Proof.
  destruct (journey_to_schedules Physical "T" place_B None None
              (world {[ 0 := {[ 0 := row 0 0 "A" ]} ]} 0 0 0 0)
              {[ 0 := {[ 0 := row 0 0 "A" ]} ]} [[0%nat]] [portal_of "A" "B"])
    as (c' & E & _ & _ & Htl).
  - vm_compute. reflexivity.
  - vm_compute. by eexists.
  - vm_compute. reflexivity.
  - vm_compute. reflexivity.
  - vm_compute. reflexivity.
  - apply (not_fact_after _ _ _ _ {[ 0 := {[ 0 := row 0 0 "A" ]} ]}
             {[ 0 := row 0 0 "A" ]}); [vm_compute; reflexivity..|].
    apply (bool_decide_unpack (nothing_after _ _)). vm_compute. exact I.
  - exists c'. split; [exact E|]. rewrite Htl. vm_compute. reflexivity.
Defined.

Lemma journey_to_without_arrival_witness :
  Travel.journey_to Physical "T" place_C None None in_portal_for_good
  = Raise KeyError in_portal_for_good.
Proof.
  apply (journey_to_without_arrival Physical "T" place_C None None in_portal_for_good
           {[ 0 := {[ 0 := row 0 0 "A"; 1 := row 0 1 "Portal(A->B)" ]} ]}
           {[ 0 := row 0 0 "A"; 1 := row 0 1 "Portal(A->B)" ]} "A" "B").
  - vm_compute. reflexivity.
  - vm_compute. reflexivity.
  - vm_compute. reflexivity.
  - apply (bool_decide_unpack (nothing_after _ _)). vm_compute. exact I.
Defined.

(** ** [ListItemIterator] *)

Lemma drain_from {A} : ∀ (fuel : nat) (it : ListItemIterator.t A),
  (length (ListItemIterator.l_iter it) < fuel)%nat →
  ListItemIterator.drain fuel it
  = zip (seq (ListItemIterator.i it) (length (ListItemIterator.l_iter it)))
        (ListItemIterator.l_iter it).
Proof.
  induction fuel as [|fuel IH]; intros [l li i] Hlt; simpl in *; [lia|].
  unfold ListItemIterator.next. simpl.
  destruct li as [|x rest]; [done|]. simpl in *.
  rewrite IH by (simpl; lia). done.
Qed.

(** X19: calling [__next__] on a fresh [ListItemIterator] until it
    stops gives the items of the list in order, each paired with its
    index from 0 on, and as many pairs as [__len__] says; once
    exhausted, [__next__] stops again without moving the counter. *)
Theorem list_item_iterator_enumerates {A} (xs : list A) (fuel : nat) :
  (length xs < fuel)%nat →
  let items := ListItemIterator.drain fuel (ListItemIterator.init xs) in
  items = zip (seq 0 (length xs)) xs
  ∧ length items = ListItemIterator.len (ListItemIterator.init xs)
  ∧ (∀ n x, items !! n = Some x → x.1 = n ∧ xs !! n = Some x.2)
  ∧ ∀ it : ListItemIterator.t A,
      ListItemIterator.l_iter it = [] → ListItemIterator.next it = None.
Proof.
  intros Hlt items. subst items.
  rewrite (drain_from fuel (ListItemIterator.init xs)) by done. simpl.
  split; [done|]. split.
  { unfold ListItemIterator.len. simpl.
    rewrite length_zip_with, length_seq. lia. }
  split.
  - intros n [i x] Hn. apply lookup_zip_with_Some in Hn
      as (i' & x' & [= <- <-] & Hi & Hx).
    apply lookup_seq in Hi as [-> _]. done.
  - intros it Hit. unfold ListItemIterator.next. by rewrite Hit.
Qed.

Lemma list_item_iterator_enumerates_witness :
  ListItemIterator.drain 4 (ListItemIterator.init ["a"; "b"; "c"])
  = [(0%nat, "a"); (1%nat, "b"); (2%nat, "c")].
Proof.
  apply (list_item_iterator_enumerates ["a"; "b"; "c"] 4). simpl. lia.
Defined.

(** ** The fork of a journey into a future already written *)

Section Fork.
Context (dim : Dimension).

(** What [get_location] answers depends on the thing's rows and on the
    names the dimension has things for. *)
Lemma location_at_ext self b t c1 c2 :
  thing_location (skeleton c1) !! self = thing_location (skeleton c2) !! self →
  (∀ l, is_Some (thingdict c1 !! l) ↔ is_Some (thingdict c2 !! l)) →
  location_at dim self b t c1 = location_at dim self b t c2.
Proof.
  intros Htl Htd. unfold location_at.
  rewrite !get_location_eval, !get_location_rd_eval. rewrite Htl.
  destruct (thing_location (skeleton c2) !! self) as [locs|]; [|done].
  destruct (locs !! b) as [bm|]; [|done].
  destruct (if decide (is_Some (bm !! t)) then Some t else Skel.key_before bm t)
    as [k|]; [|done].
  destruct (bm !! k) as [rd|]; [|done].
  destruct (rd_location rd) as [l|]; [|done]. simpl. f_equal.
  unfold named. destruct (portex_match l) as [[o d]|]; [done|].
  specialize (Htd l). repeat case_decide; try done; exfalso; tauto.
Qed.

Lemma dimension_new_branch_single self v parent b t c :
  thingdict c = {[ self := v ]} →
  Closet.dimension_new_branch dim parent b t c =
  (Thing.new_branch dim self parent b t ;; mret tt) c.
Proof.
  intros Htd. unfold Closet.dimension_new_branch. munfold. rewrite Htd.
  rewrite map_to_list_singleton. reflexivity.
Qed.

(** The handler's fork, for the one thing of a dimension, at the
    cursor on the highest known branch. *)
Lemma fork_at_cursor self c locs bm :
  let b := branch c in
  let t := tick c in
  let cur := location_at dim self b t c in
  thingdict c = {[ self := true ]} →
  thing_location (skeleton c) !! self = Some locs →
  locs !! b = Some bm →
  locs !! (b + 1) = None →
  hi_branch (timestream c) = b →
  0 ≤ t →
  (∀ p, cur ≠ Some (InPortal p)) →
  ∃ c', Closet.time_travel_inc_branch dim 1 c = Ok tt c'
    ∧ branch c' = b + 1 ∧ tick c' = t
    ∧ time_travel_history c' = time_travel_history c ++ [(b, t)]
    ∧ timestream_tab (skeleton c') !! (b + 1)
      = Some {| tb_branch := b + 1; tb_parent := b |}
    ∧ thingdict c' = thingdict c
    ∧ thing_location (skeleton c') !! self = Some
        (<[b + 1 := {[ t := {| rd_dimension := dim_name dim; rd_thing := self;
                               rd_branch := b + 1; rd_tick_from := t;
                               rd_location := Some (str_or_None location_str cur) |} ]}]>
           locs).
Proof.
  intros b t cur Htd Hl Hb Hfree Hhi Ht Hcur.
  assert (thingdict c !! self = Some true) as Htds
    by (rewrite Htd; apply lookup_singleton_eq).
  pose proof (new_branch_blank_eval dim self b (b + 1) t c locs bm Htds Hl Hb) as H.
  cbv zeta in H.
  destruct (decide (is_Some (locs !! (b + 1)))) as [[? Hx]|_]; [congruence|].
  destruct H as (Hl1 & Htd1 & _ & Hb1 & Hins & _ & Hrun).
  set (c1 := set_skeleton (set_thing_location (<[self := <[b + 1 := ∅]> locs]>)) c)
    in *.
  set (row := {| rd_dimension := dim_name dim; rd_thing := self;
                 rd_branch := b + 1; rd_tick_from := t;
                 rd_location := Some (str_or_None location_str cur) |}).
  assert (Thing.new_branch dim self b (b + 1) t c =
          Thing.set_location dim self (str_or_None location_str cur)
            (Some (b + 1)) (Some t) c1) as Hnb.
  { rewrite Hrun. fold cur. destruct cur as [[| |]|] eqn:E; try done.
    exfalso. by eapply Hcur. }
  rewrite (set_location_Ok dim self _ (Some (b + 1)) (Some t) c1 _ Hl1) in Hnb.
  simpl in Hnb. fold row in Hnb.
  rewrite Hb1, Hins, Hfree in Hnb. simpl in Hnb. rewrite insert_empty in Hnb.
  set (c2 := set_timestream _ (set_skeleton _ c1)) in Hnb.
  set (c3 := set_skeleton (set_timestream_tab
                (<[b + 1 := {| tb_branch := b + 1; tb_parent := b |}]>)) c2).
  assert (Closet.new_branch dim b (b + 1) t c = Ok tt c3) as Hcnb.
  { unfold Closet.new_branch.
    erewrite bind_Ok.
    2:{ rewrite (dimension_new_branch_single self true) by done.
        erewrite bind_Ok; [|exact Hnb]. reflexivity. }
    reflexivity. }
  assert (thing_location (skeleton c3) !! self = Some (<[b + 1 := {[ t := row ]}]> locs))
    as Hl3 by (subst c3 c2; simpl; apply lookup_insert_eq).
  assert (hi_branch (timestream c3) = b + 1) as Hhi3
    by (subst c3 c2 c1; simpl; lia).
  assert (branch c3 = b ∧ tick c3 = t) as [Hb3 Ht3] by done.
  destruct (move_cursor_Ok (b + 1) t c3)
    as (c' & Hmove & Hb' & Ht' & Hh' & _ & _ & Htl' & Htab' & _).
  pose proof (move_cursor_keeps (b + 1) t c3) as [_ Htd'].
  rewrite Hmove in Htd'. simpl in Htd'.
  exists c'. split.
  { unfold Closet.time_travel_inc_branch.
    erewrite (bind_Ok (Closet.increment_branch dim 1) _ c (b + 1) c3).
    2:{ unfold Closet.increment_branch, TS.max_branch.
        erewrite (bind_Ok (gets branch) _ c b c); [|done].
        erewrite (bind_Ok (gets _) _ c b c); [|unfold gets; by rewrite Hhi].
        rewrite decide_True by lia.
        erewrite (bind_Ok (gets tick) _ c t c); [|done].
        erewrite bind_Ok; [|exact Hcnb]. reflexivity. }
    erewrite (bind_Ok (gets branch) _ c3 b c3); [|unfold gets; by rewrite Hb3].
    erewrite (bind_Ok (gets tick) _ c3 t c3); [|unfold gets; by rewrite Ht3].
    rewrite time_travel_known by lia. exact Hmove. }
  split; [done|]. split.
  { rewrite Ht'. unfold clamp_tick.
    destruct (TS.min_list _) as [m|] eqn:Hmin; [|lia].
    apply min_list_Some in Hmin as [_ Hmin].
    assert (m ≤ t); [|lia]. apply Hmin. apply elem_of_branch_ticks.
    exists self, (<[b + 1 := {[ t := row ]}]> locs), {[ t := row ]}.
    split; [done|]. split; [apply lookup_insert_eq|].
    rewrite lookup_singleton_eq. by eexists. }
  split; [by rewrite Hh', Hb3, Ht3|].
  split; [rewrite Htab'; subst c3; simpl; apply lookup_insert_eq|].
  split; [by rewrite Htd'|].
  by rewrite Htl'.
Qed.

(** X21: the fork that the [TimeParadox] handler is meant to make.
    The only thing of its dimension, at a place, is sent on a journey
    from the cursor, which stands on the highest known branch, at a tick
    after which the branch already holds a fact.  [journey_to] then
    returns: the rows of the branch are as they were, the branch after
    it is registered with the cursor's branch as parent, the cursor has
    moved onto it at the same tick, leaving its old position in the
    history, and the new branch holds the thing's location at that tick
    followed by the schedule of the path. *)
Theorem journey_to_forks_at_cursor self destplace c locs bm ipath path :
  let b := branch c in
  let t := tick c in
  let cur := location_at dim self b t c in
  let oloc := str_or_None location_str cur in
  thingdict c = {[ self := false ]} →
  thing_location (skeleton c) !! self = Some locs →
  locs !! b = Some bm →
  as_written dim self b bm →
  locs !! (b + 1) = None →
  hi_branch (timestream c) = b →
  0 ≤ t →
  (∀ p, cur ≠ Some (InPortal p)) →
  portex_match oloc = None →
  get_shortest_paths dim oloc (place_name destplace) = Some ipath →
  Travel.find_path dim ipath destplace c = Ok (Some path) c →
  fact_after c self b t →
  ∃ c', Travel.journey_to dim self destplace None None c = Ok tt c'
    ∧ branch c' = b + 1 ∧ tick c' = t
    ∧ time_travel_history c' = time_travel_history c ++ [(b, t)]
    ∧ timestream_tab (skeleton c') !! (b + 1)
      = Some {| tb_branch := b + 1; tb_parent := b |}
    ∧ thingdict c' = thingdict c
    ∧ thing_location (skeleton c') !! self = Some
        (<[b + 1 := write_facts dim self (b + 1)
                      (scheduled_facts Thing.get_ticks_thru path (t + 1))
                      {[ t := {| rd_dimension := dim_name dim; rd_thing := self;
                                 rd_branch := b + 1; rd_tick_from := t;
                                 rd_location := Some oloc |} ]}]> locs).
Proof.
  intros b t cur oloc Htd Hl Hb Hw Hfree Hhi Ht Hcur Hplace Hip Hfind Hfact.
  assert (keyed_by_tick bm) as Hk by (intros k rd E; apply (Hw k rd E)).
  assert (filed_under b bm) as Hf by (intros k rd E; apply (Hw k rd E)).
  assert (bm ≠ ∅) as Hne.
  { destruct Hfact as (locs' & bm' & k & Hl' & Hb' & [x Hx] & _).
    assert (bm' = bm) as -> by congruence. intros ->.
    by rewrite lookup_empty in Hx. }
  (* the first attempt *)
  assert (Thing.follow_path dim self path b t c = Raise TimeParadox c) as Hpar.
  { destruct Hfact as (locs' & bm' & k & Hl' & Hb' & Hx & Hlt).
    by apply (follow_path_paradox dim self path b t c locs' bm' k). }
  (* the undo *)
  destruct (delete_restore_Ok dim self b c locs bm Hl Hb Hk Hf)
    as (c1 & Hrestore & Hfr1 & Htd1 & Htab1 & Htl1 & Hhi1).
  rewrite decide_False in Htl1 by done.
  rewrite (restored_row_as_written dim self b bm Hw) in Htl1.
  rewrite (insert_id locs b bm Hb), (insert_id _ self locs Hl) in Htl1.
  specialize (Hhi1 Hne). rewrite Hhi in Hhi1.
  destruct Hfr1 as [Hgame1 Hhist1 _ _ _ _].
  (* the flag, and the fork *)
  set (c2 := set_thingdict (<[self := true]>) c1).
  assert (branch c2 = b ∧ tick c2 = t) as [Hb2 Ht2].
  { unfold branch, tick. subst c2. simpl. rewrite Hgame1. done. }
  assert (thing_location (skeleton c2) !! self = Some locs) as Hl2
    by (subst c2; simpl; by rewrite Htl1).
  assert (thingdict c2 = {[ self := true ]}) as Htd2.
  { subst c2. simpl. rewrite Htd1, Htd, insert_singleton. by rewrite decide_True. }
  assert (location_at dim self b t c2 = cur) as Hcur2.
  { apply location_at_ext; [by rewrite Hl2|].
    intros l. rewrite Htd2, Htd.
    destruct (decide (l = self)) as [->|Hn].
    - rewrite !lookup_singleton_eq. split; by eexists.
    - by rewrite !lookup_singleton_ne. }
  assert (∃ c3, Closet.time_travel_inc_branch dim 1 c2 = Ok tt c3
    ∧ branch c3 = b + 1 ∧ tick c3 = t
    ∧ time_travel_history c3 = time_travel_history c2 ++ [(b, t)]
    ∧ timestream_tab (skeleton c3) !! (b + 1)
      = Some {| tb_branch := b + 1; tb_parent := b |}
    ∧ thingdict c3 = thingdict c2
    ∧ thing_location (skeleton c3) !! self = Some
        (<[b + 1 := {[ t := {| rd_dimension := dim_name dim; rd_thing := self;
                               rd_branch := b + 1; rd_tick_from := t;
                               rd_location := Some oloc |} ]}]> locs))
    as (c3 & Hfork & Hb3 & Ht3 & Hh3 & Htab3 & Htd3 & Hl3).
  { pose proof (fork_at_cursor self c2 locs bm) as H. cbv zeta in H.
    rewrite Hb2, Ht2, Hcur2 in H. apply H; try done.
    subst c2. simpl. lia. }
  set (row := {| rd_dimension := dim_name dim; rd_thing := self;
                 rd_branch := b + 1; rd_tick_from := t;
                 rd_location := Some oloc |}) in *.
  (* the second attempt *)
  set (c4 := set_thingdict (<[self := false]>) c3).
  assert (thing_location (skeleton c4) !! self
          = Some (<[b + 1 := {[ t := row ]}]> locs)) as Hl4 by done.
  destruct (follow_path_free dim self path (b + 1) t c4 _ Hl4)
    as (c' & Hrun & Htd' & Htab' & Htl').
  { apply (not_fact_after c4 self (b + 1) t _ {[ t := row ]} Hl4).
    - apply lookup_insert_eq.
    - intros j x Hj. apply lookup_singleton_Some in Hj as [<- _]. simpl. lia. }
  pose proof (keeps_frame_follow_path dim self path (b + 1) t c4) as Hfr.
  rewrite Hrun in Hfr. destruct Hfr as [Hgame' Hhist' _ _ _ _].
  simpl in Hgame', Hhist'.
  exists c'. split.
  { unfold Travel.journey_to, Thing.or_branch, Thing.or_tick.
    erewrite (bind_Ok (gets branch) _ c b c); [|done].
    erewrite (bind_Ok (gets tick) _ c t c); [|done].
    erewrite bind_Ok; [|apply get_location_at].
    cbv zeta. fold cur oloc.
    erewrite bind_Ok; [|by apply journey_start_at_place].
    cbv beta iota zeta.
    erewrite bind_Ok; [|unfold Travel.shortest_paths; by rewrite Hip].
    erewrite bind_Ok; [|exact Hfind].
    cbv beta iota.
    erewrite (bind_Ok _ _ c (Skel.iterrows bm) c).
    2:{ unfold Thing.branch_loc_rds, Thing.or_branch, Thing.locations, Thing.getitem.
        munfold. by rewrite Hl, Hb. }
    unfold try_except at 1. rewrite Hpar. rewrite decide_True by done.
    unfold Travel.on_paradox.
    erewrite bind_Ok; [|unfold Thing.locations; by rewrite Hl].
    erewrite bind_Ok; [|unfold Thing.getitem; by rewrite Hb].
    erewrite bind_Ok; [|reflexivity].
    erewrite bind_Ok; [|exact Hrestore].
    erewrite (bind_Ok _ _ c1 tt c2); [|reflexivity].
    erewrite bind_Ok; [|unfold Thing.locations; by rewrite Hl2].
    assert (Travel.find_increment (S (size locs)) locs b 1 = 1) as ->.
    { cbn [Travel.find_increment]. rewrite decide_False; [done|].
      rewrite Hfree. by intros [? ?]. }
    cbv zeta.
    erewrite bind_Ok; [|exact Hfork].
    erewrite (bind_Ok _ _ c3 tt c4); [|reflexivity].
    erewrite (bind_Ok (gets branch) _ c4 (b + 1) c4).
    2:{ unfold gets. f_equal. exact Hb3. }
    erewrite bind_Ok; [|by apply journey_start_at_place].
    cbv beta iota. exact Hrun. }
  unfold branch, tick in *. rewrite Hgame'.
  split; [exact Hb3|]. split; [exact Ht3|].
  split; [rewrite Hhist', Hh3; simpl; by rewrite Hhist1|].
  split; [by rewrite Htab'|].
  split.
  { rewrite Htd'. subst c4. simpl. rewrite Htd3, Htd2, Htd, insert_singleton. by rewrite decide_True. }
  rewrite Htl'. destruct path as [|po path]; [exact Hl4|].
  rewrite lookup_insert_eq. f_equal.
  rewrite lookup_insert_eq. simpl. apply insert_insert_eq.
Qed.
End Fork.

(** At A since tick 0 and due at B at tick 50, sent to C from the
    cursor at (0, 0): branch 1 is made, and the way to C written there. *)
Lemma journey_to_forks_at_cursor_witness :
  ∃ c', Travel.journey_to Physical "T" place_C None None at_the_start = Ok tt c'
    ∧ branch c' = 1 ∧ tick c' = 0
    ∧ thing_location (skeleton c') !! "T"
      = Some {[ 0 := {[ 0 := row 0 0 "A"; 50 := row 0 50 "B" ]};
                1 := {[ 0 := row 1 0 "A";
                        1 := row 1 1 "Portal(A->C)";
                        101 := row 1 101 "C" ]} ]}.
Proof.
  destruct (journey_to_forks_at_cursor Physical "T" place_C at_the_start
              trunk_A_then_B {[ 0 := row 0 0 "A"; 50 := row 0 50 "B" ]}
              [[2%nat]] [portal_of "A" "C"])
    as (c' & E & Hb & Ht & _ & _ & _ & Hl).
  - vm_compute. reflexivity.
  - vm_compute. reflexivity.
  - vm_compute. reflexivity.
  - apply (bool_decide_unpack (as_written _ _ _ _)). vm_compute. exact I.
  - vm_compute. reflexivity.
  - vm_compute. reflexivity.
  - vm_compute. discriminate.
  - intros p. vm_compute. discriminate.
  - vm_compute. reflexivity.
  - vm_compute. reflexivity.
  - vm_compute. reflexivity.
  - exists trunk_A_then_B, {[ 0 := row 0 0 "A"; 50 := row 0 50 "B" ]}, 50.
    split; [vm_compute; reflexivity|]. split; [vm_compute; reflexivity|].
    split; [by eexists|]. vm_compute. reflexivity.
  - exists c'. split; [exact E|]. split; [exact Hb|]. split; [exact Ht|].
    rewrite Hl. vm_compute. reflexivity.
Defined.
